(** * The graph core of the L++ standard library

    A shallow embedding of [stdlib/lpp_stdlib.hpp], section
    "MOLECULE / GRAPH" and "GRAPH UTILITIES": the [Molecule<T>] class with
    its typed bonds, its traversals, and the four stand-alone analysers that
    work on a bare [unordered_map<T, vector<T>>].

    Modelling conventions.
    - [std::unordered_set<T>] is a [gset T], [std::unordered_map<K,V>] a
      [gmap K V], [std::vector<T>] and [std::queue<T>] a [list T] (push at
      the back, pop at the front).
    - The order in which a hash container enumerates its elements is not
      fixed by the language.  Every function that iterates over such a
      container takes that enumeration as an explicit list argument, and
      the theorems quantify over all enumerations of the container.
    - [while] loops are run by [iter] with a fuel counter; [None] means
      that the fuel was exhausted before the loop left.  The recursive
      helpers recurse on a depth counter in the same way.  Each top-level
      function supplies a fuel computed from the graph, and the theorems
      show that the answer is always [Some _]. *)

From Stdlib Require Import Ascii.
From stdpp Require Import gmap list strings.

Set Warnings "-clear-no-such-hyp".

(** ** Bond kinds and bonds *)

Inductive BondType : Set :=
  | SINGLE          (* - undirected edge *)
  | DOUBLE          (* = strong connection *)
  | ARROW           (* -> directed edge *)
  | BIDIRECTIONAL.  (* <-> bidirectional edge *)

#[global] Instance BondType_eq_dec : EqDecision BondType.
Proof. solve_decision. Defined.

Section Molecule.
Context {T : Type} `{Countable T}.

Record MoleculeBond : Type := mkBond {
  bond_from : T;
  bond_to : T;
  bond_type : BondType
}.

#[global] Instance MoleculeBond_eq_dec : EqDecision MoleculeBond.
Proof. solve_decision. Defined.

(** The three private members of [Molecule<T>]. *)
Record Molecule : Type := mkMolecule {
  adjacency : gmap T (list T);
  bonds : list MoleculeBond;
  atoms : gset T
}.

(** [Molecule() = default]. *)
Definition Molecule_new : Molecule :=
  {| adjacency := ∅; bonds := []; atoms := ∅ |}.

(** [adjacency[k].push_back(v)]: [operator[]] creates an empty vector for a
    missing key before the push. *)
Definition adj_push (adj : gmap T (list T)) (k v : T) : gmap T (list T) :=
  <[k := default [] (adj !! k) ++ [v]]> adj.

Definition addAtom (m : Molecule) (atom : T) : Molecule :=
  if decide (atom ∈ atoms m) then m
  else
    {| atoms := {[atom]} ∪ atoms m;
       bonds := bonds m;
       adjacency := match adjacency m !! atom with
                    | None => <[atom := []]> (adjacency m)
                    | Some _ => adjacency m
                    end |}.

(** The test [bond.from == from && bond.to == to && bond.type == type]. *)
Definition same_bond (from to : T) (type : BondType) (bond : MoleculeBond) : bool :=
  bool_decide (bond_from bond = from) && bool_decide (bond_to bond = to)
  && bool_decide (bond_type bond = type).

Definition hasBond (m : Molecule) (from to : T) (type : BondType) : bool :=
  existsb (same_bond from to type) (bonds m).

Definition addBond (m : Molecule) (from to : T) (type : BondType) : Molecule :=
  let m1 := addAtom (addAtom m from) to in
  if existsb (same_bond from to type) (bonds m1) then m1
  else
    let adj1 := adj_push (adjacency m1) from to in
    let adj2 :=
      if bool_decide (type = SINGLE) || bool_decide (type = BIDIRECTIONAL)
      then adj_push adj1 to from
      else if bool_decide (type = DOUBLE) then adj_push adj1 to from
      else adj1 in
    {| atoms := atoms m1;
       bonds := bonds m1 ++ [mkBond from to type];
       adjacency := adj2 |}.

Definition neighbors (m : Molecule) (atom : T) : list T :=
  match adjacency m !! atom with
  | Some l => l
  | None => []
  end.

Definition hasAtom (m : Molecule) (atom : T) : bool :=
  bool_decide (atom ∈ atoms m).

(** The two counts are [size_t] values; a container never holds enough
    elements to wrap them. *)
Definition atomCount (m : Molecule) : nat := size (atoms m).
Definition bondCount (m : Molecule) : nat := length (bonds m).

Definition clear (m : Molecule) : Molecule :=
  {| atoms := ∅; bonds := []; adjacency := ∅ |}.

(** *** Histories of mutations *)

Inductive op : Type :=
  | OpAddAtom (atom : T)
  | OpAddBond (from to : T) (type : BondType)
  | OpClear.

Definition apply_op (m : Molecule) (o : op) : Molecule :=
  match o with
  | OpAddAtom a => addAtom m a
  | OpAddBond a b k => addBond m a b k
  | OpClear => clear m
  end.

(** The state after running a history on a fresh molecule. *)
Definition run (ops : list op) : Molecule := foldl apply_op Molecule_new ops.

(** The state invariant of the class. *)
Record wf (m : Molecule) : Prop := {
  wf_bonds : ∀ b, b ∈ bonds m → bond_from b ∈ atoms m ∧ bond_to b ∈ atoms m;
  wf_dom : dom (adjacency m) = atoms m;
  wf_adj : ∀ x l y, adjacency m !! x = Some l → y ∈ l → y ∈ atoms m;
  wf_bond_adj : ∀ b, b ∈ bonds m →
    bond_to b ∈ neighbors m (bond_from b) ∧
    (bond_type b ≠ ARROW → bond_from b ∈ neighbors m (bond_to b))
}.

(** Which kinds store the reverse adjacency entry. *)
Definition reverse_entry (type : BondType) : bool :=
  match type with ARROW => false | _ => true end.

(** ** Loops *)

(** A [while] loop: [step] either continues with a new state or leaves the
    loop with a result.  [None] is fuel exhaustion. *)
Fixpoint iter {St Res : Type} (step : St → St + Res) (fuel : nat) (s : St)
  : option Res :=
  match fuel with
  | 0 => None
  | S fuel' =>
      match step s with
      | inl s' => iter step fuel' s'
      | inr r => Some r
      end
  end.

(** A [for] loop over a vector whose body may run out of fuel. *)
Fixpoint foldM {A St : Type} (f : St → A → option St) (s : St) (l : list A)
  : option St :=
  match l with
  | [] => Some s
  | x :: l' =>
      match f s x with
      | Some s' => foldM f s' l'
      | None => None
      end
  end.

(** Every node that occurs in a mapping, as a key or inside a neighbour
    list.  Only used to compute fuel. *)
Definition graph_nodes (graph : gmap T (list T)) : gset T :=
  dom graph ∪ ⋃ (list_to_set <$> (snd <$> map_to_list graph)).

Definition loop_fuel (graph : gmap T (list T)) : nat :=
  2 * size (graph_nodes graph) + 2.

Definition depth_fuel (graph : gmap T (list T)) : nat :=
  size (graph_nodes graph) + 1.

(** The body shared by the breadth-first loops:
    [if (visited.find(neighbor) == visited.end())
       { visited.insert(neighbor); queue.push(neighbor); }]. *)
Definition enqueue_unvisited (st : gset T * list T) (neighbor : T) : gset T * list T :=
  if decide (neighbor ∈ st.1) then st
  else ({[neighbor]} ∪ st.1, st.2 ++ [neighbor]).

(** ** Traversals of [Molecule] *)

Record bfs_state : Type := mkBfs {
  bfs_result : list T;
  bfs_visited : gset T;
  bfs_queue : list T
}.

(** The loop of [bfs]. *)
Definition bfs_step (m : Molecule) (s : bfs_state) : bfs_state + list T :=
  match bfs_queue s with
  | [] => inr (bfs_result s)
  | current :: rest =>
      let vq := foldl enqueue_unvisited (bfs_visited s, rest) (neighbors m current) in
      inl {| bfs_result := bfs_result s ++ [current];
             bfs_visited := vq.1;
             bfs_queue := vq.2 |}
  end.

Definition bfs (m : Molecule) (start : T) : option (list T) :=
  if negb (hasAtom m start) then Some []
  else iter (bfs_step m) (loop_fuel (adjacency m))
         {| bfs_result := []; bfs_visited := {[start]}; bfs_queue := [start] |}.

(** [dfsHelper]; the state is the pair of the two reference parameters
    [visited] and [result]. *)
Fixpoint dfsHelper (fuel : nat) (m : Molecule) (node : T) (st : gset T * list T)
  : option (gset T * list T) :=
  match fuel with
  | 0 => None
  | S fuel' =>
      foldM (λ st neighbor,
               if decide (neighbor ∈ st.1) then Some st
               else dfsHelper fuel' m neighbor st)
            ({[node]} ∪ st.1, st.2 ++ [node])
            (neighbors m node)
  end.

Definition dfs (m : Molecule) (start : T) : option (list T) :=
  if negb (hasAtom m start) then Some []
  else snd <$> dfsHelper (depth_fuel (adjacency m)) m start (∅, []).

(** The loop of [hasPath]; the state is [(visited, queue)]. *)
Definition hasPath_step (m : Molecule) (to : T) (s : gset T * list T)
  : gset T * list T + bool :=
  match s.2 with
  | [] => inr false
  | current :: rest =>
      if decide (current = to) then inr true
      else inl (foldl enqueue_unvisited (s.1, rest) (neighbors m current))
  end.

Definition hasPath (m : Molecule) (from to : T) : option bool :=
  if negb (hasAtom m from) || negb (hasAtom m to) then Some false
  else if decide (from = to) then Some true
  else iter (hasPath_step m to) (loop_fuel (adjacency m)) ({[from]}, [from]).

(** [order] is the enumeration of [atoms]; [atoms.empty()] holds exactly
    when it is empty and [*atoms.begin()] is its head. *)
Definition isConnected (order : list T) (m : Molecule) : option bool :=
  match order with
  | [] => Some true
  | start :: _ =>
      match bfs m start with
      | Some reachable => Some (bool_decide (length reachable = size (atoms m)))
      | None => None
      end
  end.

(** ** Cycle detection *)

Section with_default.
(** The value-initialised node [T()]. *)
Context (T_default : T).

(** [parent[node]] read through [operator[]]: a missing key is inserted
    with the value [T()]. *)
Definition parent_at (parent : gmap T T) (node : T) : T * gmap T T :=
  match parent !! node with
  | Some p => (p, parent)
  | None => (T_default, <[node := T_default]> parent)
  end.

(** The [for] loop of [hasCycleHelper]; [rec] is the recursive call. *)
Fixpoint hasCycle_neighbors
    (rec : T → gset T * gmap T T → option (bool * (gset T * gmap T T)))
    (node : T) (neighs : list T) (st : gset T * gmap T T)
  : option (bool * (gset T * gmap T T)) :=
  match neighs with
  | [] => Some (false, st)
  | neighbor :: rest =>
      if decide (neighbor ∉ st.1) then
        match rec neighbor st with
        | None => None
        | Some (true, st') => Some (true, st')
        | Some (false, st') => hasCycle_neighbors rec node rest st'
        end
      else
        let pp := parent_at st.2 node in
        if decide (neighbor ≠ pp.1) then Some (true, (st.1, pp.2))
        else hasCycle_neighbors rec node rest (st.1, pp.2)
  end.

Fixpoint hasCycleHelper (fuel : nat) (m : Molecule) (node : T)
    (st : gset T * gmap T T) (par : T) : option (bool * (gset T * gmap T T)) :=
  match fuel with
  | 0 => None
  | S fuel' =>
      hasCycle_neighbors (λ neighbor st', hasCycleHelper fuel' m neighbor st' node)
        node (neighbors m node) ({[node]} ∪ st.1, <[node := par]> st.2)
  end.

(** The outer loop of [hasCycle], threading [visited] and [parent]; the
    root of each search is given the parent [T()]. *)
Fixpoint hasCycle_atoms (m : Molecule) (order : list T) (st : gset T * gmap T T)
  : option bool :=
  match order with
  | [] => Some false
  | atom :: rest =>
      if decide (atom ∉ st.1) then
        match hasCycleHelper (depth_fuel (adjacency m)) m atom st T_default with
        | None => None
        | Some (true, _) => Some true
        | Some (false, st') => hasCycle_atoms m rest st'
        end
      else hasCycle_atoms m rest st
  end.

(** [order] is the enumeration of [atoms]. *)
Definition hasCycle (order : list T) (m : Molecule) : option bool :=
  hasCycle_atoms m order (∅, ∅).

(** ** Stand-alone analysers on a bare mapping *)

(** The [for] loop of [graphHasPath]: [inr tt] is [return true]. *)
Fixpoint graphHasPath_neighbors (end_ : T) (neighs : list T) (st : gset T * list T)
  : gset T * list T + unit :=
  match neighs with
  | [] => inl st
  | neighbor :: rest =>
      if decide (neighbor = end_) then inr tt
      else graphHasPath_neighbors end_ rest (enqueue_unvisited st neighbor)
  end.

(** The loop of [graphHasPath]; the state is [(visited, queue)]. *)
Definition graphHasPath_step (graph : gmap T (list T)) (end_ : T) (s : gset T * list T)
  : gset T * list T + bool :=
  match s.2 with
  | [] => inr false
  | current :: rest =>
      match graph !! current with
      | Some neighs =>
          match graphHasPath_neighbors end_ neighs (s.1, rest) with
          | inl s' => inl s'
          | inr _ => inr true
          end
      | None => inl (s.1, rest)
      end
  end.

Definition graphHasPath (graph : gmap T (list T)) (start end_ : T) : option bool :=
  if decide (graph !! start = None) then Some false
  else if decide (start = end_) then Some true
  else iter (graphHasPath_step graph end_) (loop_fuel graph) ({[start]}, [start]).

Record sp_state : Type := mkSp {
  sp_parent : gmap T T;
  sp_visited : gset T;
  sp_queue : list T
}.

(** The path reconstruction loop of [graphShortestPath]; the state is
    [(path, node, parent)]. *)
Definition sp_walk_step (start : T) (s : list T * T * gmap T T)
  : list T * T * gmap T T + list T :=
  let '(path, node, parent) := s in
  if decide (node ≠ start) then
    let pp := parent_at parent node in
    inl (path ++ [node], pp.1, pp.2)
  else inr (reverse (path ++ [start])).

(** The body of the [for] loop of [graphShortestPath]. *)
Definition sp_visit (current : T) (s : sp_state) (neighbor : T) : sp_state :=
  if decide (neighbor ∈ sp_visited s) then s
  else {| sp_visited := {[neighbor]} ∪ sp_visited s;
          sp_parent := <[neighbor := current]> (sp_parent s);
          sp_queue := sp_queue s ++ [neighbor] |}.

(** The search loop of [graphShortestPath]: it leaves with the empty
    path when the queue runs dry, or with the reconstructed path when
    [end_] is taken from the queue. *)
Definition sp_step (graph : gmap T (list T)) (start end_ : T) (s : sp_state)
  : sp_state + option (list T) :=
  match sp_queue s with
  | [] => inr (Some [])
  | current :: rest =>
      if decide (current = end_) then
        inr (iter (sp_walk_step start) (size (sp_parent s) + 1) ([], end_, sp_parent s))
      else
        let s0 := {| sp_parent := sp_parent s; sp_visited := sp_visited s;
                     sp_queue := rest |} in
        match graph !! current with
        | Some neighs => inl (foldl (sp_visit current) s0 neighs)
        | None => inl s0
        end
  end.

Definition graphShortestPath (graph : gmap T (list T)) (start end_ : T)
  : option (list T) :=
  if decide (graph !! start = None) then Some []
  else
    match iter (sp_step graph start end_) (loop_fuel graph)
            {| sp_parent := {[start := start]}; sp_visited := {[start]};
               sp_queue := [start] |} with
    | Some r => r
    | None => None
    end.

End with_default.

(** The marking loop of [graphCountComponents]; it leaves with the final
    [visited] set. *)
Definition component_step (graph : gmap T (list T)) (s : gset T * list T)
  : gset T * list T + gset T :=
  match s.2 with
  | [] => inr s.1
  | current :: rest =>
      match graph !! current with
      | Some neighs => inl (foldl enqueue_unvisited (s.1, rest) neighs)
      | None => inl (s.1, rest)
      end
  end.

(** The outer loop; the state is [(visited, count)].  [count] is an [int]
    in the source; it is bounded by the number of keys. *)
Definition component_visit (graph : gmap T (list T)) (vc : gset T * nat) (vertex : T)
  : option (gset T * nat) :=
  if decide (vertex ∉ vc.1) then
    match iter (component_step graph) (loop_fuel graph)
            ({[vertex]} ∪ vc.1, [vertex]) with
    | Some visited => Some (visited, S vc.2)
    | None => None
    end
  else Some vc.

(** [order] is the enumeration of the keys of [graph]. *)
Definition graphCountComponents (order : list T) (graph : gmap T (list T)) : option nat :=
  snd <$> foldM (component_visit graph) (∅, 0) order.

(** [color[k]] read through [operator[]] on the [unordered_map<T, int>]
    of colours: a missing key is inserted with the value 0. *)
Definition color_at (color : gmap T Z) (k : T) : Z * gmap T Z :=
  match color !! k with
  | Some c => (c, color)
  | None => (0%Z, <[k := 0%Z]> color)
  end.

(** The [for] loop of [graphIsBipartite]: [inr tt] is [return false]. *)
Fixpoint bipartite_neighbors (current : T) (neighs : list T) (st : gmap T Z * list T)
  : gmap T Z * list T + unit :=
  match neighs with
  | [] => inl st
  | neighbor :: rest =>
      match st.1 !! neighbor with
      | None =>
          let cc := color_at st.1 current in
          bipartite_neighbors current rest
            (<[neighbor := (1 - cc.1)%Z]> cc.2, st.2 ++ [neighbor])
      | Some _ =>
          let cn := color_at st.1 neighbor in
          let cc := color_at cn.2 current in
          if decide (cn.1 = cc.1) then inr tt
          else bipartite_neighbors current rest (cc.2, st.2)
      end
  end.

(** The colouring loop of one component; it leaves with [None] for
    [return false], or with the colouring reached. *)
Definition bipartite_step (graph : gmap T (list T)) (s : gmap T Z * list T)
  : gmap T Z * list T + option (gmap T Z) :=
  match s.2 with
  | [] => inr (Some s.1)
  | current :: rest =>
      match graph !! current with
      | Some neighs =>
          match bipartite_neighbors current neighs (s.1, rest) with
          | inl s' => inl s'
          | inr _ => inr None
          end
      | None => inl (s.1, rest)
      end
  end.

(** The outer loop over the keys, threading the colouring. *)
Fixpoint bipartite_vertices (graph : gmap T (list T)) (order : list T) (color : gmap T Z)
  : option bool :=
  match order with
  | [] => Some true
  | vertex :: rest =>
      match color !! vertex with
      | None =>
          match iter (bipartite_step graph) (loop_fuel graph)
                  (<[vertex := 0%Z]> color, [vertex]) with
          | None => None
          | Some None => Some false
          | Some (Some color') => bipartite_vertices graph rest color'
          end
      | Some _ => bipartite_vertices graph rest color
      end
  end.

(** [order] is the enumeration of the keys of [graph]. *)
Definition graphIsBipartite (order : list T) (graph : gmap T (list T)) : option bool :=
  bipartite_vertices graph order ∅.

End Molecule.

Arguments MoleculeBond T : clear implicits.
Arguments Molecule T {_ _}.
Arguments op T : clear implicits.
Arguments bfs_state T {_ _}.
Arguments sp_state T {_ _}.

(** * The containers and the string utilities

    The sections "MAP" to "LINKED LIST" and "STRING UTILITIES" of
    [stdlib/lpp_stdlib.hpp], and [Molecule::empty].  A [throw] is a left
    injection carrying the exception; [int] values are integers, with the
    conversion from [size_t] written out as [to_int]; positions inside a
    string are natural numbers and [npos] is [None]; a [std::string] is a
    list of characters.  Sums and differences of positions are those of
    the code: every difference it takes is between a position and an
    earlier one, and no sum leaves the range of [size_t].

    Left out: [Set] and [HashSet] (one-line wrappers), [PriorityQueue]
    (its order is that of the element type), [toUpper] and [toLower]
    (they depend on the locale), and the macros of [lpp_patterns.hpp]. *)

Section Molecule_more.
Context {T : Type} `{Countable T}.

(** [Molecule::empty()]. *)
Definition mol_empty (m : Molecule T) : bool :=
  bool_decide (atoms m = ∅) && bool_decide (bonds m = []).

End Molecule_more.

Inductive exception : Type :=
  | runtime_error (what : string)
  | out_of_range (what : string)
  | invalid_argument (what : string).

(** The value of an [int] that receives a [size_t], or the result of
    [size_t] arithmetic: reduction modulo 2^32 into the signed range. *)
Definition to_int (z : Z) : Z := ((z + 2 ^ 31) mod 2 ^ 32 - 2 ^ 31)%Z.

(** The [size_t] that receives an [int]. *)
Definition to_size_t (z : Z) : nat := Z.to_nat (z mod 2 ^ 64).

Module Queue.
Section ops.
Context {T : Type}.

(** [std::queue<T>], front first. *)
Definition enqueue (data : list T) (item : T) : list T := data ++ [item].

Definition dequeue (data : list T) : exception + T * list T :=
  match data with
  | [] => inl (runtime_error "dequeue from empty queue")
  | item :: data' => inr (item, data')
  end.

Definition peek (data : list T) : exception + T :=
  match data with
  | [] => inl (runtime_error "peek on empty queue")
  | item :: _ => inr item
  end.

Definition isEmpty (data : list T) : bool := bool_decide (length data = 0).
Definition size (data : list T) : Z := to_int (Z.of_nat (length data)).

End ops.
End Queue.

Module Stack.
Section ops.
Context {T : Type}.

(** [std::stack<T>], top first. *)
Definition push (data : list T) (item : T) : list T := item :: data.

Definition pop (data : list T) : exception + T * list T :=
  match data with
  | [] => inl (runtime_error "pop from empty stack")
  | item :: data' => inr (item, data')
  end.

Definition peek (data : list T) : exception + T :=
  match data with
  | [] => inl (runtime_error "peek on empty stack")
  | item :: _ => inr item
  end.

Definition isEmpty (data : list T) : bool := bool_decide (length data = 0).
Definition size (data : list T) : Z := to_int (Z.of_nat (length data)).

End ops.
End Stack.

Module Deque.
Section ops.
Context {T : Type}.

(** [std::deque<T>], front first. *)
Definition pushFront (data : list T) (item : T) : list T := item :: data.
Definition pushBack (data : list T) (item : T) : list T := data ++ [item].

Definition popFront (data : list T) : exception + T * list T :=
  match data with
  | [] => inl (runtime_error "popFront from empty deque")
  | item :: data' => inr (item, data')
  end.

Definition popBack (data : list T) : exception + T * list T :=
  match last data with
  | None => inl (runtime_error "popBack from empty deque")
  | Some item => inr (item, take (length data - 1) data)
  end.

Definition peekFront (data : list T) : exception + T :=
  match data with
  | [] => inl (runtime_error "peekFront on empty deque")
  | item :: _ => inr item
  end.

Definition peekBack (data : list T) : exception + T :=
  match last data with
  | None => inl (runtime_error "peekBack on empty deque")
  | Some item => inr item
  end.

Definition size (data : list T) : Z := to_int (Z.of_nat (length data)).
Definition isEmpty (data : list T) : bool := bool_decide (length data = 0).

End ops.
End Deque.

Module LinkedList.
Section ops.
Context {T : Type}.

(** [std::list<T>], front first. *)
Definition pushFront (data : list T) (item : T) : list T := item :: data.
Definition pushBack (data : list T) (item : T) : list T := data ++ [item].

Definition popFront (data : list T) : exception + T * list T :=
  match data with
  | [] => inl (runtime_error "popFront from empty list")
  | item :: data' => inr (item, data')
  end.

Definition popBack (data : list T) : exception + T * list T :=
  match last data with
  | None => inl (runtime_error "popBack from empty list")
  | Some item => inr (item, take (length data - 1) data)
  end.

Definition size (data : list T) : Z := to_int (Z.of_nat (length data)).
Definition isEmpty (data : list T) : bool := bool_decide (length data = 0).

End ops.
End LinkedList.

Module Map.
Section ops.
Context {K V : Type} `{Countable K}.

(** [std::map<K, V>]. *)
Definition set (data : gmap K V) (key : K) (value : V) : gmap K V := <[key := value]> data.

Definition get (data : gmap K V) (key : K) : exception + V :=
  match data !! key with
  | None => inl (out_of_range "Map key not found")
  | Some value => inr value
  end.

Definition getOrDefault (data : gmap K V) (key : K) (defaultValue : V) : V :=
  match data !! key with
  | Some value => value
  | None => defaultValue
  end.

Definition has (data : gmap K V) (key : K) : bool := bool_decide (data !! key ≠ None).
Definition remove (data : gmap K V) (key : K) : gmap K V := delete key data.
Definition size (data : gmap K V) : Z := to_int (Z.of_nat (base.size data)).
Definition clear (data : gmap K V) : gmap K V := ∅.

End ops.
End Map.

Module HashMap.
Section ops.
Context {K V : Type} `{Countable K}.

(** [std::unordered_map<K, V>]. *)
Definition set (data : gmap K V) (key : K) (value : V) : gmap K V := <[key := value]> data.

Definition get (data : gmap K V) (key : K) : exception + V :=
  match data !! key with
  | None => inl (out_of_range "HashMap key not found")
  | Some value => inr value
  end.

Definition getOrDefault (data : gmap K V) (key : K) (defaultValue : V) : V :=
  match data !! key with
  | Some value => value
  | None => defaultValue
  end.

Definition has (data : gmap K V) (key : K) : bool := bool_decide (data !! key ≠ None).
Definition remove (data : gmap K V) (key : K) : gmap K V := delete key data.
Definition size (data : gmap K V) : Z := to_int (Z.of_nat (base.size data)).
Definition clear (data : gmap K V) : gmap K V := ∅.

End ops.
End HashMap.

Module Vec.
Section ops.
Context {T : Type}.

Definition len (vec : list T) : Z := to_int (Z.of_nat (length vec)).

Definition push (vec : list T) (item : T) : list T := vec ++ [item].

Definition pop (vec : list T) : exception + T * list T :=
  match last vec with
  | None => inl (runtime_error "pop from empty vector")
  | Some item => inr (item, take (length vec - 1) vec)
  end.

(** The index arithmetic shared, line for line, by the two [slice]
    overloads; [size] is [vec.size()] or [str.length()]. *)
Definition slice_bounds (size : nat) (start end_ : Z) : Z * Z :=
  let n := Z.of_nat size in
  let end_ := if decide (end_ = -1)%Z then to_int n else end_ in
  let start := if decide (start < 0)%Z then to_int (n + start) else start in
  let end_ := if decide (end_ < 0)%Z then to_int (n + end_) else end_ in
  let start := if decide (start < 0)%Z then 0%Z else start in
  let end_ := if decide (end_ < 0)%Z then 0%Z else end_ in
  let start := if decide (start > to_int n)%Z then to_int n else start in
  let end_ := if decide (end_ > to_int n)%Z then to_int n else end_ in
  let end_ := if decide (end_ < start)%Z then start else end_ in
  (start, end_).

(** [slice] on a vector.  [None] stands for an access outside the vector,
    which the source leaves undefined. *)
Definition slice (vec : list T) (start end_ : Z) : option (list T) :=
  let se := slice_bounds (length vec) start end_ in
  foldM (λ result i,
           if decide (0 ≤ i)%Z then
             match vec !! Z.to_nat i with
             | Some item => Some (result ++ [item])
             | None => None
             end
           else None)
        [] (seqZ se.1 (se.2 - se.1)).

End ops.
End Vec.

Module Str.

(** *** Members of [std::string] *)

(** The first occurrence of [needle] in [str], counted from its front. *)
Fixpoint find_in (str needle : list ascii) : option nat :=
  if bool_decide (take (length needle) str = needle) then Some 0
  else
    match str with
    | [] => None
    | _ :: str' => S <$> find_in str' needle
    end.

(** [str.find(needle, pos)]. *)
Definition find (str needle : list ascii) (pos : nat) : option nat :=
  if decide (pos ≤ length str) then (λ i, pos + i) <$> find_in (drop pos str) needle
  else None.

(** [str.substr(pos, n)]; [n = None] is the default [npos]. *)
Definition substr (str : list ascii) (pos : nat) (n : option nat) : exception + list ascii :=
  if decide (pos ≤ length str) then
    inr (match n with
         | Some n => take n (drop pos str)
         | None => drop pos str
         end)
  else inl (out_of_range "basic_string::substr").

(** [str.replace(pos, n, to)]. *)
Definition replace_at (str : list ascii) (pos n : nat) (to : list ascii)
  : exception + list ascii :=
  if decide (pos ≤ length str) then inr (take pos str ++ to ++ drop (pos + n) str)
  else inl (out_of_range "basic_string::replace").

(** [str.find_first_not_of(chars)]. *)
Fixpoint find_first_not_of (str chars : list ascii) : option nat :=
  match str with
  | [] => None
  | c :: str' =>
      if bool_decide (c ∈ chars) then S <$> find_first_not_of str' chars else Some 0
  end.

(** [str.find_last_not_of(chars)]. *)
Definition find_last_not_of (str chars : list ascii) : option nat :=
  (λ i, length str - 1 - i) <$> find_first_not_of (reverse str) chars.

(** *** The utilities *)

Definition len (str : list ascii) : Z := to_int (Z.of_nat (length str)).

Record split_state : Type := mkSplit {
  split_result : list (list ascii);
  split_start : nat;
  split_end : option nat
}.

(** The loop of [split], with the [push_back] that follows it as its
    leaving branch. *)
Definition split_step (str delimiter : list ascii) (s : split_state)
  : split_state + (exception + list (list ascii)) :=
  match split_end s with
  | Some end_ =>
      match substr str (split_start s) (Some (end_ - split_start s)) with
      | inl e => inr (inl e)
      | inr piece =>
          let start := end_ + length delimiter in
          inl {| split_result := split_result s ++ [piece];
                 split_start := start;
                 split_end := find str delimiter start |}
      end
  | None =>
      match substr str (split_start s) None with
      | inl e => inr (inl e)
      | inr piece => inr (inr (split_result s ++ [piece]))
      end
  end.

Definition split (str delimiter : list ascii) : option (exception + list (list ascii)) :=
  if decide (delimiter = []) then
    Some (inl (invalid_argument "split delimiter cannot be empty"))
  else
    iter (split_step str delimiter) (S (length str))
      {| split_result := []; split_start := 0; split_end := find str delimiter 0 |}.

Definition join (vec : list (list ascii)) (delimiter : list ascii) : list ascii :=
  foldl (λ result i,
           let result := result ++ nth i vec [] in
           if decide (i + 1 < length vec) then result ++ delimiter else result)
        [] (seq 0 (length vec)).

(** [slice] on a string. *)
Definition slice (str : list ascii) (start end_ : Z) : exception + list ascii :=
  let se := Vec.slice_bounds (length str) start end_ in
  substr str (to_size_t se.1) (Some (to_size_t (se.2 - se.1))).

(** [None] stands for an access outside the string, which the source
    leaves undefined. *)
Definition charAt (str : list ascii) (index : Z) : option (exception + ascii) :=
  if decide (index < 0 ∨ index >= to_int (Z.of_nat (length str)))%Z then
    Some (inl (out_of_range "charAt index out of range"))
  else
    match str !! Z.to_nat index with
    | Some c => Some (inr c)
    | None => None
    end.

Definition substring (str : list ascii) (start length_ : Z) : exception + list ascii :=
  if decide (start < 0 ∨ start > to_int (Z.of_nat (length str)))%Z then
    inl (out_of_range "substring start out of range")
  else if decide (length_ < 0)%Z then
    inl (invalid_argument "substring length cannot be negative")
  else
    let availableLength := to_int (Z.of_nat (length str) - start) in
    let length_ := if decide (length_ > availableLength)%Z then availableLength
                   else length_ in
    substr str (to_size_t start) (Some (to_size_t length_)).

(** The characters [" \t\n\r"]. *)
Definition whitespace : list ascii :=
  [" "; "009"; "010"; "013"]%char.

Definition trim (str : list ascii) : exception + list ascii :=
  match find_first_not_of str whitespace with
  | None => inr []
  | Some start =>
      match find_last_not_of str whitespace with
      | Some end_ => substr str start (Some (end_ - start + 1))
      | None => substr str start (Some (to_size_t (-1 - Z.of_nat start + 1)))
      end
  end.

Definition contains (str substr_ : list ascii) : bool :=
  bool_decide (find str substr_ 0 ≠ None).

Definition startsWith (str prefix : list ascii) : exception + bool :=
  if decide (length str < length prefix) then inr false
  else
    match substr str 0 (Some (length prefix)) with
    | inl e => inl e
    | inr s => inr (bool_decide (s = prefix))
    end.

Definition endsWith (str suffix : list ascii) : exception + bool :=
  if decide (length str < length suffix) then inr false
  else
    match substr str (length str - length suffix) None with
    | inl e => inl e
    | inr s => inr (bool_decide (s = suffix))
    end.

(** The loop of [replace]; the state is [(result, pos)]. *)
Definition replace_step (from to : list ascii) (s : list ascii * nat)
  : list ascii * nat + (exception + list ascii) :=
  match find s.1 from s.2 with
  | None => inr (inr s.1)
  | Some pos =>
      match replace_at s.1 pos (length from) to with
      | inl e => inr (inl e)
      | inr result => inl (result, pos + length to)
      end
  end.

Definition replace (str from to : list ascii) : option (exception + list ascii) :=
  if decide (from = []) then Some (inr str)
  else iter (replace_step from to) (S (length str)) (str, 0).

Definition repeat (str : list ascii) (count : Z) : exception + list ascii :=
  if decide (count < 0)%Z then
    inl (invalid_argument "repeat count cannot be negative")
  else
    inr (foldl (λ result _, result ++ str) [] (seqZ 0 count)).

Definition reverse (str : list ascii) : list ascii := list.reverse str.

End Str.

(** * Specification vocabulary

    Reachability, paths, components, and the loop invariants used in the
    proofs. *)

Section reach_defs.
Context {T : Type} `{Countable T}.

(** The successors of a node in a bare mapping; a missing key has none. *)
Definition succs (graph : gmap T (list T)) (x : T) : list T :=
  default [] (graph !! x).

Definition edge (graph : gmap T (list T)) (x y : T) : Prop := y ∈ succs graph x.

(** [y] can be reached from [x] along the mapping, in zero or more steps. *)
Definition reachable (graph : gmap T (list T)) : T → T → Prop := rtc (edge graph).

(** Termination measure of the breadth-first loops. *)
Definition bfs_measure (graph : gmap T (list T)) (vq : gset T * list T) : nat :=
  2 * size (graph_nodes graph ∖ vq.1) + length vq.2.

(** What every breadth-first loop maintains about its [visited] set and
    its queue, for a search that started in [start]. *)
Record bfs_inv (graph : gmap T (list T)) (start : T) (vq : gset T * list T) : Prop := {
  bfs_inv_queue : ∀ x, x ∈ vq.2 → x ∈ vq.1;
  bfs_inv_start : start ∈ vq.1;
  bfs_inv_reach : ∀ x, x ∈ vq.1 → reachable graph start x;
  bfs_inv_closed : ∀ x y, x ∈ vq.1 → x ∉ vq.2 → y ∈ succs graph x → y ∈ vq.1
}.

End reach_defs.

Section bfs_defs.
Context {T : Type} `{Countable T}.

(** Loop invariant of [bfs]. *)
Record bfs_loop_inv (m : Molecule T) (start : T) (s : bfs_state T) : Prop := {
  bfs_loop_vq : bfs_inv (adjacency m) start (bfs_visited s, bfs_queue s);
  bfs_loop_nodup : NoDup (bfs_result s ++ bfs_queue s);
  bfs_loop_visited : ∀ x, x ∈ bfs_visited s ↔ x ∈ bfs_result s ++ bfs_queue s
}.

(** Loop invariant of [hasPath]: no node that has left the queue is [to]. *)
Definition hasPath_inv (m : Molecule T) (from to : T) (vq : gset T * list T) : Prop :=
  bfs_inv (adjacency m) from vq ∧ ∀ x, x ∈ vq.1 → x ∉ vq.2 → x ≠ to.

End bfs_defs.

Section dfs_defs.
Context {T : Type} `{Countable T}.

(** What a call of [dfsHelper] on [node] adds to a state whose visited set
    is [V]: the list [new] of nodes appended to [result]. *)
Record dfs_post (m : Molecule T) (node : T) (V : gset T) (new : list T) : Prop := {
  dfs_post_nodup : NoDup new;
  dfs_post_fresh : ∀ x, x ∈ new → x ∉ V;
  dfs_post_reach : ∀ x, x ∈ new → reachable (adjacency m) node x;
  dfs_post_closed : ∀ x y, x ∈ new → y ∈ succs (adjacency m) x →
                           y ∈ V ∪ list_to_set new
}.

End dfs_defs.

Section path_defs.
Context {T : Type} `{Countable T}.

(** [p] is a path from [start] to [end_]: its first element is [start],
    its last element is [end_], and each element is followed by one of its
    successors in the mapping. *)
Definition is_path (graph : gmap T (list T)) (start end_ : T) (p : list T) : Prop :=
  head p = Some start
  ∧ last p = Some end_
  ∧ ∀ i x y, p !! i = Some x → p !! S i = Some y → y ∈ succs graph x.

(** Loop invariant of [graphShortestPath].  [lvl] is the depth of each
    visited node in the parent tree; the queue holds nodes of depth [d]
    followed by nodes of depth [d + 1]. *)
Record sp_inv (graph : gmap T (list T)) (start end_ : T) (s : sp_state T)
    (lvl : T → nat) (d : nat) (Q1 Q2 : list T) : Prop := {
  sp_bfs : bfs_inv graph start (sp_visited s, sp_queue s);
  sp_split : sp_queue s = Q1 ++ Q2;
  sp_lvl1 : ∀ x, x ∈ Q1 → lvl x = d;
  sp_lvl2 : ∀ x, x ∈ Q2 → lvl x = S d;
  sp_done_lvl : ∀ x, x ∈ sp_visited s → x ∉ sp_queue s → lvl x ≤ d;
  sp_dom : ∀ x, x ∈ sp_visited s ↔ is_Some (sp_parent s !! x);
  sp_root : sp_parent s !! start = Some start ∧ lvl start = 0;
  sp_tree : ∀ v, v ∈ sp_visited s → v ≠ start →
    ∃ p, sp_parent s !! v = Some p ∧ p ∈ sp_visited s
         ∧ v ∈ succs graph p ∧ lvl v = S (lvl p);
  sp_edge_lvl : ∀ x y, x ∈ sp_visited s → x ∉ sp_queue s → y ∈ succs graph x →
    lvl y ≤ S (lvl x);
  sp_not_end : ∀ x, x ∈ sp_visited s → x ∉ sp_queue s → x ≠ end_;
  sp_lvl_bound : ∀ x, x ∈ sp_visited s → lvl x < size (sp_visited s)
}.

Definition sp_loop_inv (graph : gmap T (list T)) (start end_ : T) (s : sp_state T) : Prop :=
  ∃ lvl d Q1 Q2, sp_inv graph start end_ s lvl d Q1 Q2.

End path_defs.

Section analyser_defs.
Context {T : Type} `{Countable T}.

(** Loop invariant of [graphHasPath]: [end_] is not a successor of any
    node that has left the queue. *)
Definition graphHasPath_inv (graph : gmap T (list T)) (start end_ : T)
    (vq : gset T * list T) : Prop :=
  bfs_inv graph start vq
  ∧ ∀ x, x ∈ vq.1 → x ∉ vq.2 → end_ ∉ succs graph x.

(** Loop invariant of the colouring loop: queued nodes are coloured. *)
Definition bipartite_inv (cq : gmap T Z * list T) : Prop :=
  ∀ x, x ∈ cq.2 → x ∈ dom cq.1.

End analyser_defs.

Section component_defs.
Context {T : Type} `{Countable T}.

(** Undirected adjacency and undirected reachability. *)
Definition linked (graph : gmap T (list T)) (x y : T) : Prop :=
  edge graph x y ∨ edge graph y x.

Definition connected (graph : gmap T (list T)) : T → T → Prop := rtc (linked graph).

(** [n] is the number of connected components that contain a key: there
    are [n] keys, pairwise in different components, such that every key is
    in the component of one of them. *)
Definition component_count (graph : gmap T (list T)) (n : nat) : Prop :=
  ∃ reps : list T,
    length reps = n
    ∧ (∀ r, r ∈ reps → is_Some (graph !! r))
    ∧ (∀ k, is_Some (graph !! k) → ∃ r, r ∈ reps ∧ connected graph r k)
    ∧ (∀ i j r r', reps !! i = Some r → reps !! j = Some r' →
                   connected graph r r' → i = j).

(** Every neighbour relation is listed in both directions. *)
Definition symmetric (graph : gmap T (list T)) : Prop :=
  ∀ x y, y ∈ succs graph x → x ∈ succs graph y.

(** The vertices at which the outer loop started a search, newest first:
    none of them is reachable from an older one. *)
Fixpoint independent (graph : gmap T (list T)) (roots : list T) : Prop :=
  match roots with
  | [] => True
  | r :: older => (∀ r', r' ∈ older → ¬ reachable graph r' r) ∧ independent graph older
  end.

(** Invariant of the marking loop started at [vertex] on top of the
    already marked set [V0]. *)
Record comp_inv (graph : gmap T (list T)) (V0 : gset T) (vertex : T)
    (vq : gset T * list T) : Prop := {
  comp_inv_queue : ∀ x, x ∈ vq.2 → x ∈ vq.1 ∧ reachable graph vertex x;
  comp_inv_base : ∀ x, x ∈ V0 → x ∈ vq.1;
  comp_inv_root : vertex ∈ vq.1;
  comp_inv_reach : ∀ x, x ∈ vq.1 → x ∈ V0 ∨ reachable graph vertex x;
  comp_inv_closed : ∀ x y, x ∈ vq.1 → x ∉ vq.2 → y ∈ succs graph x → y ∈ vq.1
}.

(** Invariant of the outer loop of [graphCountComponents]. *)
Record roots_inv (graph : gmap T (list T)) (V : gset T) (roots : list T) : Prop := {
  roots_closed : ∀ x y, x ∈ V → y ∈ succs graph x → y ∈ V;
  roots_reach : ∀ x, x ∈ V ↔ ∃ r, r ∈ roots ∧ reachable graph r x;
  roots_independent : independent graph roots
}.

End component_defs.

Section examples_defs.

(** One directed two-node chain, [{1: [2], 2: []}]. *)
Definition one_chain : gmap nat (list nat) := {[1 := [2]; 2 := []]}.

(** Two disjoint directed two-node chains. *)
Definition two_chains : gmap nat (list nat) :=
  {[1 := [2]; 2 := []; 3 := [4]; 4 := []]}.

(** The same two chains with every edge listed in both directions. *)
Definition two_chains_sym : gmap nat (list nat) :=
  {[1 := [2]; 2 := [1]; 3 := [4]; 4 := [3]]}.

(** The mapping of the changelog and of the specification's example. *)
Definition diamond : gmap string (list string) :=
  {["A" := ["B"; "C"]; "B" := ["D"]; "C" := ["D"]; "D" := []]}%string.

End examples_defs.

Section bond_defs.
Context {T : Type} `{Countable T}.

(** The entries that one bond contributes to the neighbour list of [x],
    in the order in which [addBond] pushes them. *)
Definition bond_entries (x : T) (b : MoleculeBond T) : list T :=
  (if decide (x = bond_from b) then [bond_to b] else [])
  ++ (if decide (x = bond_to b)
      then if reverse_entry (bond_type b) then [bond_from b] else []
      else []).

(** No stored bond is an [ARROW]. *)
Definition no_arrow (m : Molecule T) : Prop :=
  ∀ b, b ∈ bonds m → bond_type b ≠ ARROW.

End bond_defs.

Section cycle_defs.
Context {T : Type} `{Countable T}.

(** [y] occurs at least twice in [l]. *)
Definition twice (y : T) (l : list T) : Prop :=
  ∃ l1 l2 l3, l = l1 ++ y :: l2 ++ y :: l3.

(** What [hasCycle] has established about the nodes visited so far when
    no search has reported a cycle: a node that lists a neighbour twice
    has that neighbour as its recorded parent, and two different nodes
    are each other's recorded parent only if one of them is [T()]. *)
Record cycle_inv (T_default : T) (m : Molecule T) (vp : gset T * gmap T T) : Prop := {
  cycle_twice : ∀ x y, x ∈ vp.1 → twice y (neighbors m x) → vp.2 !! x = Some y;
  cycle_pairs : ∀ x y, x ∈ vp.1 → y ∈ vp.1 → x ≠ y →
                  vp.2 !! x = Some y → vp.2 !! y = Some x →
                  x = T_default ∨ y = T_default
}.

End cycle_defs.

Section colouring_defs.
Context {T : Type} `{Countable T}.

(** [c] gives one of the colours 0 and 1 to every node, and different
    colours to the two ends of every listed edge. *)
Definition two_colouring (graph : gmap T (list T)) (c : T → Z) : Prop :=
  (∀ x, c x = 0%Z ∨ c x = 1%Z) ∧ ∀ x y, y ∈ succs graph x → c x ≠ c y.

(** Invariant of the colouring loop of [graphIsBipartite]: queued nodes
    are coloured, the colours are 0 and 1, and every coloured node that is
    not queued has all its neighbours coloured, differently from itself. *)
Record colour_inv (graph : gmap T (list T)) (cq : gmap T Z * list T) : Prop := {
  colour_queue : ∀ x, x ∈ cq.2 → x ∈ dom cq.1;
  colour_vals : ∀ x cx, cq.1 !! x = Some cx → cx = 0%Z ∨ cx = 1%Z;
  colour_done : ∀ x y cx, cq.1 !! x = Some cx → x ∉ cq.2 → y ∈ succs graph x →
                  ∃ cy, cq.1 !! y = Some cy ∧ cy ≠ cx
}.

(** The colour [z], exchanged when [f] holds. *)
Definition flip (f : bool) (z : Z) : Z := if f then (1 - z)%Z else z.

(** Invariant of one search on a mapping with the two-colouring [c]: the
    nodes coloured by this search, on top of [color0], carry the colours
    of [c], all exchanged or none; the queue holds such nodes only. *)
Record agree_inv (c : T → Z) (f : bool) (color0 : gmap T Z)
    (cq : gmap T Z * list T) : Prop := {
  agree_ext : color0 ⊆ cq.1;
  agree_new : ∀ x cx, cq.1 !! x = Some cx → color0 !! x = None → cx = flip f (c x);
  agree_queue : ∀ x, x ∈ cq.2 → color0 !! x = None
}.

End colouring_defs.

Section split_defs.

(** [needle] occurs in [str] at position [i]. *)
Definition occurs_at (needle str : list ascii) (i : nat) : Prop :=
  take (length needle) (drop i str) = needle.

(** The pieces of [s] between the successive occurrences of [d], each
    the leftmost one after the end of the one before; [n] bounds their
    number. *)
Fixpoint pieces (n : nat) (d s : list ascii) : list (list ascii) :=
  match n with
  | 0 => [s]
  | S n' =>
      match Str.find_in s d with
      | None => [s]
      | Some i => take i s :: pieces n' d (drop (i + length d) s)
      end
  end.

(** The elements of [vec] with [d] between each two of them. *)
Fixpoint join_rec (vec : list (list ascii)) (d : list ascii) : list ascii :=
  match vec with
  | [] => []
  | p :: rest =>
      match rest with
      | [] => p
      | _ :: _ => p ++ d ++ join_rec rest d
      end
  end.

End split_defs.

Section index_defs.

(** The values of the type [int]. *)
Definition is_int (z : Z) : Prop := (- 2 ^ 31 ≤ z < 2 ^ 31)%Z.



End index_defs.

Section container_defs.
Context {T : Type}.

(** [n] removals in a row with [pop], collecting the removed items; the
    first exception ends the run. *)
Fixpoint remove_n (pop : list T → exception + T * list T) (n : nat) (data : list T)
  : exception + list T * list T :=
  match n with
  | 0 => inr ([], data)
  | S n' =>
      match pop data with
      | inl e => inl e
      | inr (item, data') =>
          match remove_n pop n' data' with
          | inl e => inl e
          | inr (items, rest) => inr (item :: items, rest)
          end
      end
  end.

End container_defs.

(** * Properties of the graph entity *)

Section Molecule_facts.
Context {T : Type} `{Countable T}.
Implicit Types (m : Molecule T) (a b x y : T) (k : BondType).

Lemma same_bond_true a b k (bd : MoleculeBond T) :
  same_bond a b k bd = true ↔ bd = mkBond a b k.
Proof.
  unfold same_bond. rewrite !andb_true_iff, !bool_decide_eq_true.
  destruct bd as [f t ty]; simpl. split.
  - intros [[-> ->] ->]. reflexivity.
  - intros [= -> -> ->]. auto.
Qed.

Lemma hasBond_true m a b k : hasBond m a b k = true ↔ mkBond a b k ∈ bonds m.
Proof.
  unfold hasBond. rewrite existsb_exists. split.
  - intros (bd & Hin & Hs). apply same_bond_true in Hs as ->.
    by apply list_elem_of_In.
  - intros Hin. exists (mkBond a b k). split; [by apply list_elem_of_In|].
    by apply same_bond_true.
Qed.

Lemma hasBond_false m a b k : hasBond m a b k = false ↔ mkBond a b k ∉ bonds m.
Proof. rewrite <- hasBond_true. destruct (hasBond m a b k); naive_solver. Qed.

Lemma hasAtom_true m a : hasAtom m a = true ↔ a ∈ atoms m.
Proof. unfold hasAtom. apply bool_decide_eq_true. Qed.

Lemma neighbors_lookup m x : neighbors m x = default [] (adjacency m !! x).
Proof. unfold neighbors. by destruct (adjacency m !! x). Qed.

(** *** [addAtom] *)

Lemma addAtom_present m a : a ∈ atoms m → addAtom m a = m.
Proof. intros Ha. unfold addAtom. by rewrite decide_True. Qed.

Lemma addAtom_atoms m a : atoms (addAtom m a) = {[a]} ∪ atoms m.
Proof.
  unfold addAtom. destruct (decide (a ∈ atoms m)); simpl; [set_solver|done].
Qed.

Lemma addAtom_bonds m a : bonds (addAtom m a) = bonds m.
Proof. unfold addAtom. by destruct (decide (a ∈ atoms m)). Qed.

Lemma addAtom_neighbors m a x : neighbors (addAtom m a) x = neighbors m x.
Proof.
  unfold addAtom. destruct (decide (a ∈ atoms m)); [done|].
  unfold neighbors; simpl.
  destruct (adjacency m !! a) eqn:Ea; [done|].
  destruct (decide (x = a)) as [->|Hne].
  - by rewrite lookup_insert_eq, Ea.
  - by rewrite lookup_insert_ne.
Qed.

Lemma addAtom_dom m a :
  dom (adjacency (addAtom m a)) =
  if decide (a ∈ atoms m) then dom (adjacency m) else {[a]} ∪ dom (adjacency m).
Proof.
  unfold addAtom. destruct (decide (a ∈ atoms m)); [done|]. simpl.
  destruct (adjacency m !! a) eqn:Ea.
  - assert (a ∈ dom (adjacency m)) by (apply elem_of_dom; eauto). set_solver.
  - by rewrite dom_insert_L.
Qed.

Lemma elem_of_neighbors m x y :
  y ∈ neighbors m x ↔ ∃ l, adjacency m !! x = Some l ∧ y ∈ l.
Proof.
  unfold neighbors. destruct (adjacency m !! x) as [l|].
  - naive_solver.
  - split; [by intros ?%elem_of_nil|naive_solver].
Qed.

Lemma addAtom_wf m a : wf m → wf (addAtom m a).
Proof.
  intros [Hb Hd Ha Hba]. split.
  - intros bd. rewrite addAtom_bonds, addAtom_atoms. intros ?%Hb. set_solver.
  - rewrite addAtom_dom, addAtom_atoms. case_decide; set_solver.
  - intros x l y Hl Hy. rewrite addAtom_atoms.
    assert (y ∈ neighbors (addAtom m a) x) as Hn
      by (apply elem_of_neighbors; eauto).
    rewrite addAtom_neighbors in Hn. apply elem_of_neighbors in Hn as (l' & ? & ?).
    apply elem_of_union_r. eauto.
  - intros bd. rewrite addAtom_bonds, !addAtom_neighbors. apply Hba.
Qed.

(** *** [addBond] *)

Lemma adj_push_lookup (adj : gmap T (list T)) (key v x : T) :
  default [] (adj_push adj key v !! x) =
  default [] (adj !! x) ++ (if decide (x = key) then [v] else []).
Proof.
  unfold adj_push. destruct (decide (x = key)) as [->|Hne].
  - by rewrite lookup_insert_eq.
  - rewrite lookup_insert_ne by done. by rewrite app_nil_r.
Qed.

Lemma adj_push_dom (adj : gmap T (list T)) (key v : T) :
  dom (adj_push adj key v) = {[key]} ∪ dom adj.
Proof. unfold adj_push. by rewrite dom_insert_L. Qed.

(** The reverse push of [addBond], as one conditional. *)
Lemma addBond_fresh m a b k :
  hasBond m a b k = false →
  addBond m a b k =
    let m1 := addAtom (addAtom m a) b in
    let adj1 := adj_push (adjacency m1) a b in
    {| atoms := atoms m1;
       bonds := bonds m1 ++ [mkBond a b k];
       adjacency := if reverse_entry k then adj_push adj1 b a else adj1 |}.
Proof.
  intros Hf. unfold addBond. fold (hasBond (addAtom (addAtom m a) b) a b k).
  assert (hasBond (addAtom (addAtom m a) b) a b k = false) as ->.
  { unfold hasBond in *. by rewrite !addAtom_bonds. }
  simpl. by destruct k.
Qed.

Lemma addBond_dup m a b k :
  hasBond m a b k = true → addBond m a b k = addAtom (addAtom m a) b.
Proof.
  intros Hf. unfold addBond. fold (hasBond (addAtom (addAtom m a) b) a b k).
  assert (hasBond (addAtom (addAtom m a) b) a b k = true) as ->; [|done].
  unfold hasBond in *. by rewrite !addAtom_bonds.
Qed.

Lemma addBond_atoms m a b k : atoms (addBond m a b k) = {[a; b]} ∪ atoms m.
Proof.
  destruct (hasBond m a b k) eqn:E.
  - rewrite addBond_dup by done. rewrite !addAtom_atoms. set_solver.
  - rewrite addBond_fresh by done. simpl. rewrite !addAtom_atoms. set_solver.
Qed.

Lemma addBond_neighbors_fresh m a b k x :
  hasBond m a b k = false →
  neighbors (addBond m a b k) x =
    neighbors m x ++ (if decide (x = a) then [b] else [])
                  ++ (if decide (x = b) then if reverse_entry k then [a] else [] else []).
Proof.
  intros Hf. rewrite addBond_fresh by done. cbv zeta.
  rewrite neighbors_lookup. simpl.
  rewrite <- (addAtom_neighbors m a x), <- (addAtom_neighbors (addAtom m a) b x).
  rewrite (neighbors_lookup (addAtom _ b)).
  destruct (reverse_entry k).
  - rewrite !adj_push_lookup. by rewrite <- app_assoc.
  - rewrite adj_push_lookup. destruct (decide (x = b)); by rewrite app_nil_r.
Qed.

Lemma addBond_wf m a b k : wf m → wf (addBond m a b k).
Proof.
  intros Hwf.
  destruct (hasBond m a b k) eqn:E.
  { rewrite addBond_dup by done. by do 2 apply addAtom_wf. }
  pose proof (addAtom_wf _ b (addAtom_wf _ a Hwf)) as [Hb Hd Ha Hba].
  pose proof (addBond_neighbors_fresh m a b k) as Hn.
  pose proof (addBond_atoms m a b k) as Hat.
  split.
  - intros bd. rewrite Hat. rewrite addBond_fresh by done. simpl.
    rewrite elem_of_app, list_elem_of_singleton. intros [Hin| ->].
    + apply Hb in Hin. rewrite !addAtom_atoms in Hin. set_solver.
    + simpl. set_solver.
  - rewrite Hat. rewrite addBond_fresh by done. simpl.
    rewrite !addAtom_atoms in Hd.
    destruct (reverse_entry k); rewrite !adj_push_dom; set_solver.
  - intros x l y Hl Hy. rewrite Hat.
    assert (y ∈ neighbors (addBond m a b k) x) as Hy'
      by (apply elem_of_neighbors; eauto).
    rewrite Hn in Hy' by done. rewrite !elem_of_app in Hy'.
    destruct Hy' as [Hy'|[Hy'|Hy']].
    + rewrite <- (addAtom_neighbors m a), <- (addAtom_neighbors _ b) in Hy'.
      apply elem_of_neighbors in Hy' as (l' & Hl' & Hy').
      apply (Ha _ _ _ Hl') in Hy'. rewrite !addAtom_atoms in Hy'. set_solver.
    + case_decide; set_solver.
    + case_decide; [|set_solver]. destruct (reverse_entry k); set_solver.
  - intros bd. rewrite !Hn by done. rewrite addBond_fresh by done. simpl.
    rewrite elem_of_app, list_elem_of_singleton. intros [Hin| ->].
    + apply Hba in Hin. rewrite !addAtom_neighbors in Hin.
      destruct Hin as [H1 H2]. split.
      * set_solver.
      * intros ?%H2. set_solver.
    + simpl. split.
      * rewrite decide_True by done. set_solver.
      * intros Hk. rewrite (decide_True (P := b = b)) by done.
        destruct k; simpl; [set_solver|set_solver|done|set_solver].
Qed.

Lemma Molecule_new_wf : wf (@Molecule_new T _ _).
Proof.
  split; simpl.
  - by intros b ?%elem_of_nil.
  - by rewrite dom_empty_L.
  - intros x l y. by rewrite lookup_empty.
  - by intros b ?%elem_of_nil.
Qed.

Lemma clear_wf m : wf (clear m).
Proof. apply Molecule_new_wf. Qed.

Lemma apply_op_wf m o : wf m → wf (apply_op m o).
Proof.
  destruct o; simpl; auto using addAtom_wf, addBond_wf, clear_wf.
Qed.

Lemma run_wf (ops : list (op T)) : wf (run ops).
Proof.
  unfold run. generalize (@Molecule_new_wf).
  generalize (@Molecule_new T _ _). induction ops as [|o ops IH]; simpl; [done|].
  intros m Hm. apply IH. by apply apply_op_wf.
Qed.

Lemma addBond_idem_wf m a b k :
  wf m → hasBond m a b k = true → addBond m a b k = m.
Proof.
  intros Hwf Hb. rewrite addBond_dup by done.
  apply hasBond_true in Hb. apply (wf_bonds _ Hwf) in Hb as [Ha Hb]. simpl in *.
  rewrite (addAtom_present m a) by done. by apply addAtom_present.
Qed.

(** C1: adding a bond whose (from, to, kind) triple is not yet stored
    appends [b] to the adjacency list of [a] for every kind, and appends
    [a] to the adjacency list of [b] exactly when the kind is SINGLE,
    DOUBLE or BIDIRECTIONAL; every other list is unchanged.  For ARROW and
    distinct endpoints the list of [b] is left as it was.  DOUBLE and
    BIDIRECTIONAL give the same adjacency mapping. *)
Theorem addBond_adjacency m a b k :
  hasBond m a b k = false →
  (∀ x, neighbors (addBond m a b k) x =
          neighbors m x
          ++ (if decide (x = a) then [b] else [])
          ++ (if decide (x = b ∧ (k = SINGLE ∨ k = DOUBLE ∨ k = BIDIRECTIONAL))
              then [a] else []))
  ∧ (k = ARROW → a ≠ b → neighbors (addBond m a b k) b = neighbors m b)
  ∧ (hasBond m a b DOUBLE = false → hasBond m a b BIDIRECTIONAL = false →
     adjacency (addBond m a b DOUBLE) = adjacency (addBond m a b BIDIRECTIONAL)).
Proof.
  intros Hf. split; [|split].
  - intros x. rewrite addBond_neighbors_fresh by done. do 2 f_equal.
    destruct (decide (x = b)) as [->|Hne].
    + destruct k; simpl.
      * rewrite decide_True; [done|]. auto.
      * rewrite decide_True; [done|]. auto.
      * rewrite decide_False; [done|]. intros [_ [?|[?|?]]]; discriminate.
      * rewrite decide_True; [done|]. auto.
    + rewrite decide_False; [done|]. by intros [? _].
  - intros -> Hne. rewrite addBond_neighbors_fresh by done. simpl.
    rewrite decide_False by done. rewrite decide_True by done.
    by rewrite !app_nil_r.
  - intros Hd Hb. by rewrite !addBond_fresh.
Qed.

(** C3: on every state reached from the empty graph, adding an atom that
    is present, or a bond whose triple is stored, returns the very same
    state: atoms, bonds and adjacency, hence both counts. *)
Theorem add_idempotent (ops : list (op T)) (n a b : T) (k : BondType) :
  (hasAtom (run ops) n = true →
     addAtom (run ops) n = run ops
     ∧ atomCount (addAtom (run ops) n) = atomCount (run ops)
     ∧ bondCount (addAtom (run ops) n) = bondCount (run ops))
  ∧ (hasBond (run ops) a b k = true →
     addBond (run ops) a b k = run ops
     ∧ atomCount (addBond (run ops) a b k) = atomCount (run ops)
     ∧ bondCount (addBond (run ops) a b k) = bondCount (run ops)).
Proof.
  split.
  - intros Hn%hasAtom_true. by rewrite addAtom_present.
  - intros Hb. by rewrite addBond_idem_wf by auto using run_wf.
Qed.

(** C9: after any history of addAtom, addBond and clear on the empty
    graph, both endpoints of every stored bond are atoms, the enumeration
    of the atom set has no repetition (and its length is the atom count),
    and every atom has an entry in the adjacency mapping. *)
Theorem run_invariant (ops : list (op T)) :
  (∀ bd, bd ∈ bonds (run ops) →
     hasAtom (run ops) (bond_from bd) = true ∧ hasAtom (run ops) (bond_to bd) = true)
  ∧ (∀ order, order ≡ₚ elements (atoms (run ops)) →
     NoDup order ∧ length order = atomCount (run ops))
  ∧ (∀ n, hasAtom (run ops) n = true → is_Some (adjacency (run ops) !! n)).
Proof.
  pose proof (run_wf ops) as [Hb Hd Ha Hba]. split; [|split].
  - intros bd ?%Hb. by rewrite !hasAtom_true.
  - intros order Hp. split.
    + rewrite Hp. apply NoDup_elements.
    + by rewrite Hp.
  - intros n Hn%hasAtom_true. apply elem_of_dom. by rewrite Hd.
Qed.

(** C10: [hasBond] looks for the stored orientation only.  On a reachable
    state with no SINGLE bond from [b] to [a], after [addBond a b SINGLE]
    with [a ≠ b] the query [hasBond b a SINGLE] is false, although [a] is
    a neighbour of [b] and [hasBond a b SINGLE] is true. *)
Theorem hasBond_stored_orientation (ops : list (op T)) (a b : T) :
  a ≠ b →
  hasBond (run ops) b a SINGLE = false →
  hasBond (addBond (run ops) a b SINGLE) b a SINGLE = false
  ∧ a ∈ neighbors (addBond (run ops) a b SINGLE) b
  ∧ hasBond (addBond (run ops) a b SINGLE) a b SINGLE = true.
Proof.
  intros Hne Hba. pose proof (run_wf ops) as Hwf.
  destruct (hasBond (run ops) a b SINGLE) eqn:Hab.
  - rewrite addBond_idem_wf by done. split; [done|]. split; [|done].
    apply hasBond_true in Hab.
    apply (wf_bond_adj _ Hwf) in Hab as [_ Hr]. by apply Hr.
  - split; [|split].
    + apply hasBond_false. rewrite addBond_fresh by done. simpl.
      rewrite !addAtom_bonds. rewrite elem_of_app, list_elem_of_singleton.
      intros [Hin|[=]]; [|done]. by apply hasBond_false in Hba.
    + rewrite addBond_neighbors_fresh by done. simpl.
      rewrite (decide_True (P := b = b)) by done. set_solver.
    + apply hasBond_true. rewrite addBond_fresh by done. simpl.
      set_solver.
Qed.

End Molecule_facts.

Lemma addBond_adjacency_witness :
  (hasBond (addBond Molecule_new 1 2 ARROW) 2 1 SINGLE = false
   ∧ neighbors (addBond (addBond Molecule_new 1 2 ARROW) 2 1 SINGLE) 1 = [2; 2]
   ∧ neighbors (addBond (addBond Molecule_new 1 2 ARROW) 2 1 SINGLE) 2 = [1])
  ∧ (hasBond Molecule_new 1 2 ARROW = false
     ∧ 1 ≠ 2
     ∧ neighbors (addBond Molecule_new 1 2 ARROW) 1 = [2]
     ∧ neighbors (addBond Molecule_new 1 2 ARROW) 2 = neighbors Molecule_new 2)
  ∧ (hasBond Molecule_new 1 2 DOUBLE = false
     ∧ hasBond Molecule_new 1 2 BIDIRECTIONAL = false
     ∧ adjacency (addBond Molecule_new 1 2 DOUBLE)
       = adjacency (addBond Molecule_new 1 2 BIDIRECTIONAL)).
Proof.
  split; [|split].
  - split; [reflexivity|].
    destruct (addBond_adjacency (addBond Molecule_new 1 2 ARROW) 2 1 SINGLE)
      as (Hall & _ & _); [reflexivity|].
    split; rewrite Hall; reflexivity.
  - split; [reflexivity|]. split; [lia|].
    destruct (addBond_adjacency Molecule_new 1 2 ARROW) as (Hall & Harrow & _);
      [reflexivity|].
    split; [rewrite Hall; reflexivity|]. apply Harrow; [reflexivity|lia].
  - split; [reflexivity|]. split; [reflexivity|].
    destruct (addBond_adjacency Molecule_new 1 2 DOUBLE) as (_ & _ & Hsame);
      [reflexivity|].
    apply Hsame; reflexivity.
Defined.

Lemma add_idempotent_witness :
  hasAtom (run [OpAddBond 1 2 DOUBLE]) 2 = true
  ∧ hasBond (run [OpAddBond 1 2 DOUBLE]) 1 2 DOUBLE = true
  ∧ addAtom (run [OpAddBond 1 2 DOUBLE]) 2 = run [OpAddBond 1 2 DOUBLE]
  ∧ addBond (run [OpAddBond 1 2 DOUBLE]) 1 2 DOUBLE = run [OpAddBond 1 2 DOUBLE].
Proof.
  split; [reflexivity|]. split; [reflexivity|].
  destruct (add_idempotent [OpAddBond 1 2 DOUBLE] 2 1 2 DOUBLE) as [Ha Hb].
  split; [apply Ha|apply Hb]; reflexivity.
Defined.

Lemma run_invariant_witness :
  (mkBond 3 4 SINGLE ∈ bonds (run [OpAddBond 1 2 ARROW; OpClear; OpAddBond 3 4 SINGLE])
   ∧ hasAtom (run [OpAddBond 1 2 ARROW; OpClear; OpAddBond 3 4 SINGLE]) 3 = true
   ∧ hasAtom (run [OpAddBond 1 2 ARROW; OpClear; OpAddBond 3 4 SINGLE]) 4 = true)
  ∧ ([3; 4] ≡ₚ elements (atoms (run [OpAddBond 1 2 ARROW; OpClear; OpAddBond 3 4 SINGLE]))
     ∧ NoDup [3; 4]
     ∧ length [3; 4]
       = atomCount (run [OpAddBond 1 2 ARROW; OpClear; OpAddBond 3 4 SINGLE]))
  ∧ (hasAtom (run [OpAddBond 1 2 ARROW; OpClear; OpAddBond 3 4 SINGLE]) 3 = true
     ∧ is_Some (adjacency (run [OpAddBond 1 2 ARROW; OpClear; OpAddBond 3 4 SINGLE]) !! 3)).
Proof.
  destruct (run_invariant [OpAddBond 1 2 ARROW; OpClear; OpAddBond 3 4 SINGLE])
    as (Hbonds & Hnodup & Hadj).
  assert (mkBond 3 4 SINGLE
          ∈ bonds (run [OpAddBond 1 2 ARROW; OpClear; OpAddBond 3 4 SINGLE])) as Hin
    by (vm_compute; constructor).
  assert ([3; 4] ≡ₚ elements
            (atoms (run [OpAddBond 1 2 ARROW; OpClear; OpAddBond 3 4 SINGLE]))) as Hperm.
  { assert (elements (atoms (run [OpAddBond 1 2 ARROW; OpClear; OpAddBond 3 4 SINGLE]))
            = [4; 3]) as -> by (by vm_compute).
    apply perm_swap. }
  split; [|split].
  - split; [exact Hin|]. apply (Hbonds _ Hin).
  - split; [exact Hperm|]. apply (Hnodup _ Hperm).
  - split; [reflexivity|]. apply Hadj. reflexivity.
Defined.

Lemma hasBond_stored_orientation_witness :
  1 ≠ 2
  ∧ hasBond (run [OpAddAtom 1]) 2 1 SINGLE = false
  ∧ hasBond (addBond (run [OpAddAtom 1]) 1 2 SINGLE) 2 1 SINGLE = false
  ∧ 1 ∈ neighbors (addBond (run [OpAddAtom 1]) 1 2 SINGLE) 2
  ∧ hasBond (addBond (run [OpAddAtom 1]) 1 2 SINGLE) 1 2 SINGLE = true.
Proof.
  split; [lia|]. split; [reflexivity|].
  apply (hasBond_stored_orientation [OpAddAtom 1] 1 2); [lia|reflexivity].
Defined.

(** * Loops and the breadth-first primitive *)

Section loops.
Context {St Res : Type}.
Implicit Types (step : St → St + Res) (s : St) (r : Res).

Lemma iter_mono step fuel fuel' s r :
  iter step fuel s = Some r → fuel ≤ fuel' → iter step fuel' s = Some r.
Proof.
  revert fuel' s. induction fuel as [|fuel IH]; intros fuel' s; [done|].
  intros Hi Hle. destruct fuel' as [|fuel']; [lia|]. simpl in *.
  destruct (step s) as [s'|r']; [|done]. apply IH; [done|lia].
Qed.

(** Partial correctness: an invariant of the body holds at the state in
    which the loop leaves. *)
Lemma iter_inv (Inv : St → Prop) step fuel s r :
  (∀ s s', Inv s → step s = inl s' → Inv s') →
  Inv s → iter step fuel s = Some r →
  ∃ s', Inv s' ∧ step s' = inr r.
Proof.
  intros Hstep. revert s. induction fuel as [|fuel IH]; intros s Hs Hi; [done|].
  simpl in Hi. destruct (step s) as [s'|r'] eqn:E.
  - eapply IH; [|done]. eauto.
  - injection Hi as ->. eauto.
Qed.

(** Termination: a measure that the body decreases bounds the fuel. *)
Lemma iter_terminates (Inv : St → Prop) (μ : St → nat) step fuel s :
  (∀ s s', Inv s → step s = inl s' → Inv s' ∧ μ s' < μ s) →
  Inv s → μ s < fuel →
  ∃ r, iter step fuel s = Some r.
Proof.
  intros Hstep. revert s. induction fuel as [|fuel IH]; intros s Hs Hlt; [lia|].
  simpl. destruct (step s) as [s'|r'] eqn:E; [|eauto].
  destruct (Hstep _ _ Hs E) as [Hs' Hm]. apply IH; [done|lia].
Qed.

Lemma iter_total (Inv : St → Prop) (μ : St → nat) step fuel s :
  (∀ s s', Inv s → step s = inl s' → Inv s' ∧ μ s' < μ s) →
  Inv s → μ s < fuel →
  ∃ s' r, iter step fuel s = Some r ∧ Inv s' ∧ step s' = inr r.
Proof.
  intros Hstep Hs Hlt.
  destruct (iter_terminates Inv μ step fuel s) as [r Hr]; [done..|].
  destruct (iter_inv Inv step fuel s r) as (s' & ? & ?); [|done..|by eauto].
  intros ?? Hi E. by destruct (Hstep _ _ Hi E).
Qed.

End loops.

Section bfs_facts.
Context {T : Type} `{Countable T}.
Implicit Types (graph : gmap T (list T)) (m : Molecule T) (x y : T)
  (V : gset T) (Q ns : list T).

Lemma neighbors_succs m x : neighbors m x = succs (adjacency m) x.
Proof. apply neighbors_lookup. Qed.

Lemma succs_Some graph x l : graph !! x = Some l → succs graph x = l.
Proof. unfold succs. by intros ->. Qed.

Lemma succs_in_graph_nodes graph x y : y ∈ succs graph x → y ∈ graph_nodes graph.
Proof.
  unfold succs. destruct (graph !! x) as [l|] eqn:E; simpl; [|by intros ?%elem_of_nil].
  intros Hy. unfold graph_nodes. apply elem_of_union_r, elem_of_union_list.
  exists (list_to_set l). split; [|by apply elem_of_list_to_set].
  apply list_elem_of_fmap. exists l. split; [done|].
  apply list_elem_of_fmap. exists (x, l). split; [done|].
  by apply elem_of_map_to_list.
Qed.

(** *** The enqueueing loop *)

Lemma fold_enqueue_visited V Q ns :
  (foldl enqueue_unvisited (V, Q) ns).1 = V ∪ list_to_set ns.
Proof.
  revert V Q. induction ns as [|n ns IH]; intros V Q; simpl; [set_solver|].
  unfold enqueue_unvisited at 2; simpl. case_decide; rewrite IH; set_solver.
Qed.

Lemma fold_enqueue_queue V Q ns :
  ∃ new, (foldl enqueue_unvisited (V, Q) ns).2 = Q ++ new
         ∧ NoDup new ∧ ∀ x, x ∈ new ↔ x ∈ ns ∧ x ∉ V.
Proof.
  revert V Q. induction ns as [|n ns IH]; intros V Q; simpl.
  { exists []. rewrite app_nil_r. split; [done|]. split; [constructor|]. set_solver. }
  unfold enqueue_unvisited at 2; simpl. case_decide as Hn.
  - destruct (IH V Q) as (new & -> & Hnd & Hin). exists new.
    split; [done|]. split; [done|]. intros x. rewrite Hin. set_solver.
  - destruct (IH ({[n]} ∪ V) (Q ++ [n])) as (new & -> & Hnd & Hin).
    exists (n :: new). rewrite <- app_assoc. split; [done|]. split.
    + constructor; [|done]. rewrite Hin. set_solver.
    + intros x. rewrite elem_of_cons, Hin. clear -Hn.
      destruct (decide (x = n)) as [->|]; set_solver.
Qed.

Lemma fold_enqueue_measure graph (vq : gset T * list T) ns :
  (∀ y, y ∈ ns → y ∈ graph_nodes graph) →
  bfs_measure graph (foldl enqueue_unvisited vq ns) ≤ bfs_measure graph vq.
Proof.
  revert vq. induction ns as [|n ns IH]; intros [V Q] Hns; simpl; [done|].
  etrans; [apply IH; set_solver|].
  unfold enqueue_unvisited; simpl. case_decide as Hn; [done|].
  unfold bfs_measure; simpl. rewrite length_app; simpl.
  assert (graph_nodes graph ∖ V = {[n]} ∪ graph_nodes graph ∖ ({[n]} ∪ V)) as ->.
  { apply set_eq. intros x. specialize (Hns n).
    destruct (decide (x = n)) as [->|]; set_solver. }
  pose proof (size_union (C:=gset T) {[n]} (graph_nodes graph ∖ ({[n]} ∪ V))) as Hsz.
  rewrite size_singleton in Hsz. rewrite Hsz by set_solver. lia.
Qed.

(** One round of the loop: pop [current], enqueue its unvisited successors. *)
Lemma bfs_round_measure graph V current rest :
  bfs_measure graph (foldl enqueue_unvisited (V, rest) (succs graph current))
  < bfs_measure graph (V, current :: rest).
Proof.
  eapply Nat.le_lt_trans.
  - apply fold_enqueue_measure. intros y. apply succs_in_graph_nodes.
  - unfold bfs_measure; simpl. lia.
Qed.

Lemma bfs_measure_init graph x : bfs_measure graph ({[x]}, [x]) < loop_fuel graph.
Proof.
  unfold bfs_measure, loop_fuel; simpl.
  assert (size (graph_nodes graph ∖ {[x]}) ≤ size (graph_nodes graph))
    by (apply subseteq_size; set_solver).
  lia.
Qed.

Lemma bfs_measure_bound graph V x : bfs_measure graph (V, [x]) < loop_fuel graph.
Proof.
  unfold bfs_measure, loop_fuel; simpl.
  assert (size (graph_nodes graph ∖ V) ≤ size (graph_nodes graph))
    by (apply subseteq_size; set_solver).
  lia.
Qed.

Lemma bfs_inv_init graph start : bfs_inv graph start ({[start]}, [start]).
Proof.
  split; simpl.
  - set_solver.
  - set_solver.
  - intros x ->%elem_of_singleton. apply rtc_refl.
  - set_solver.
Qed.

Lemma bfs_inv_round graph start V current rest :
  bfs_inv graph start (V, current :: rest) →
  bfs_inv graph start (foldl enqueue_unvisited (V, rest) (succs graph current)).
Proof.
  intros [Hq Hs Hr Hc]; simpl in *.
  destruct (fold_enqueue_queue V rest (succs graph current)) as (new & HQ & _ & Hnew).
  pose proof (fold_enqueue_visited V rest (succs graph current)) as HV.
  split; rewrite ?HQ, ?HV.
  - intros x. rewrite elem_of_app, Hnew, elem_of_union, elem_of_list_to_set.
    intros [?|[? _]]; [left|by right]. apply Hq. by right.
  - set_solver.
  - intros x. rewrite elem_of_union, elem_of_list_to_set. intros [?|Hx]; [by auto|].
    eapply rtc_r; [apply Hr, Hq; by left|done].
  - intros x y. rewrite !elem_of_union, !elem_of_list_to_set, elem_of_app, Hnew.
    intros Hx Hnx Hy.
    destruct (decide (x = current)) as [->|Hne]; [by right|].
    destruct Hx as [Hx|Hx].
    + left. eapply Hc; [done| |done]. rewrite elem_of_cons. naive_solver.
    + destruct (decide (x ∈ V)) as [HxV|HxV]; [|naive_solver].
      left. eapply Hc; [done| |done]. rewrite elem_of_cons. naive_solver.
Qed.

(** When the queue has drained, [visited] is the reachable set. *)
Lemma bfs_inv_done graph start V x :
  bfs_inv graph start (V, []) → x ∈ V ↔ reachable graph start x.
Proof.
  intros [Hq Hs Hr Hc]; simpl in *. split; [apply Hr|].
  revert x. apply (rtc_ind_r (λ x, x ∈ V) start); [done|].
  intros y z _ Hyz Hy. eapply Hc; [apply Hy|apply not_elem_of_nil|done].
Qed.

End bfs_facts.

(** * Breadth-first traversal and path queries of [Molecule] *)

Section bfs_molecule.
Context {T : Type} `{Countable T}.
Implicit Types (m : Molecule T) (x y start : T).

Lemma bfs_absent m start : hasAtom m start = false → bfs m start = Some [].
Proof. unfold bfs. by intros ->. Qed.

Lemma bfs_step_inv m start s s' :
  bfs_loop_inv m start s → bfs_step m s = inl s' →
  bfs_loop_inv m start s'
  ∧ bfs_measure (adjacency m) (bfs_visited s', bfs_queue s')
    < bfs_measure (adjacency m) (bfs_visited s, bfs_queue s).
Proof.
  intros [Hvq Hnd Hv]. unfold bfs_step.
  destruct s as [res V Q]; simpl in *.
  destruct Q as [|current rest]; [done|]. intros [= <-]; simpl.
  rewrite neighbors_succs.
  destruct (fold_enqueue_queue V rest (succs (adjacency m) current))
    as (new & HQ & Hnew & Hin).
  pose proof (fold_enqueue_visited V rest (succs (adjacency m) current)) as HV.
  split; [split; simpl|].
  - rewrite <- surjective_pairing. by apply bfs_inv_round.
  - rewrite HQ. rewrite <- app_assoc; simpl.
    rewrite (assoc_L (++) res (current :: rest) new : res ++ current :: rest ++ new = _).
    apply NoDup_app. split; [done|]. split; [|done].
    intros x Hx%Hv Hx'%Hin. tauto.
  - intros x. rewrite HV, HQ, elem_of_union, elem_of_list_to_set, Hv.
    rewrite !elem_of_app, elem_of_cons, Hin, Hv, list_elem_of_singleton.
    rewrite !elem_of_app, elem_of_cons.
    destruct (decide (x ∈ res)); destruct (decide (x = current));
      destruct (decide (x ∈ rest)); tauto.
  - rewrite <- surjective_pairing. apply bfs_round_measure.
Qed.

(** [bfs] from a present atom: it returns, without repetition, exactly the
    nodes reachable from [start]. *)
Lemma bfs_present m start :
  hasAtom m start = true →
  ∃ r, bfs m start = Some r ∧ NoDup r
       ∧ ∀ x, x ∈ r ↔ reachable (adjacency m) start x.
Proof.
  intros Hs. unfold bfs. rewrite Hs; simpl.
  destruct (iter_total (bfs_loop_inv m start)
              (λ s, bfs_measure (adjacency m) (bfs_visited s, bfs_queue s))
              (bfs_step m) (loop_fuel (adjacency m))
              {| bfs_result := []; bfs_visited := {[start]}; bfs_queue := [start] |})
    as (s' & r & Hr & [Hvq Hnd Hv] & Hexit).
  - apply bfs_step_inv.
  - split; simpl; [apply bfs_inv_init|apply NoDup_singleton|set_solver].
  - apply bfs_measure_init.
  - exists r. split; [done|].
    unfold bfs_step in Hexit. destruct s' as [res V Q]; simpl in *.
    destruct Q; [|done]. injection Hexit as <-. rewrite app_nil_r in *.
    split; [done|]. intros x. rewrite <- Hv. by apply bfs_inv_done.
Qed.

(** *** [hasPath] *)

Lemma hasPath_step_inv m from to vq vq' :
  hasPath_inv m from to vq → hasPath_step m to vq = inl vq' →
  hasPath_inv m from to vq'
  ∧ bfs_measure (adjacency m) vq' < bfs_measure (adjacency m) vq.
Proof.
  intros [Hvq Hto]. unfold hasPath_step. destruct vq as [V Q]; simpl in *.
  destruct Q as [|current rest]; [done|].
  case_decide as Hcur; [done|]. intros [= <-]. rewrite neighbors_succs.
  split; [split|].
  - by apply bfs_inv_round.
  - destruct (fold_enqueue_queue V rest (succs (adjacency m) current))
      as (new & HQ & Hnew & Hin).
    rewrite HQ, fold_enqueue_visited.
    intros x. rewrite elem_of_union, elem_of_list_to_set, elem_of_app, Hin.
    intros Hx Hnx. destruct (decide (x = current)) as [->|Hne]; [done|].
    destruct (decide (x ∈ V)); [|tauto].
    apply Hto; [done|]. rewrite elem_of_cons. tauto.
  - apply bfs_round_measure.
Qed.

Lemma hasPath_search m from to :
  from ≠ to →
  ∃ b, iter (hasPath_step m to) (loop_fuel (adjacency m)) ({[from]}, [from]) = Some b
       ∧ (b = true ↔ reachable (adjacency m) from to).
Proof.
  intros Hne.
  destruct (iter_total (hasPath_inv m from to) (bfs_measure (adjacency m))
              (hasPath_step m to) (loop_fuel (adjacency m)) ({[from]}, [from]))
    as (vq & b & Hb & [Hvq Hto] & Hexit).
  - apply hasPath_step_inv.
  - split; [apply bfs_inv_init|]. simpl. set_solver.
  - apply bfs_measure_init.
  - exists b. split; [done|].
    unfold hasPath_step in Hexit. destruct vq as [V Q]; simpl in *.
    destruct Q as [|current rest].
    + injection Hexit as <-. split; [done|]. intros Hr.
      apply (bfs_inv_done _ _ _ _ Hvq) in Hr.
      destruct (Hto to); [done|apply not_elem_of_nil|done].
    + case_decide as Hcur; [|done]. injection Hexit as <-. subst current.
      split; [|done]. intros _. apply (bfs_inv_reach _ _ _ Hvq).
      apply (bfs_inv_queue _ _ _ Hvq). simpl. by left.
Qed.

(** [hasPath] returns, and answers true exactly when both endpoints are
    atoms and [to] is reachable from [from]. *)
Lemma hasPath_cases m (from to : T) :
  ∃ b, hasPath m from to = Some b
       ∧ (b = true ↔ hasAtom m from = true ∧ hasAtom m to = true
                     ∧ reachable (adjacency m) from to).
Proof.
  unfold hasPath.
  destruct (hasAtom m from); simpl; [|exists false; naive_solver].
  destruct (hasAtom m to); simpl; [|exists false; naive_solver].
  case_decide as Heq.
  - subst. exists true. split; [done|]. split; [|done]. intros _.
    split; [done|]. split; [done|]. apply rtc_refl.
  - destruct (hasPath_search m from to Heq) as (b & -> & Hb). exists b.
    split; [done|]. rewrite Hb. naive_solver.
Qed.

(** C7: [hasPath] is false as soon as one endpoint is not an atom, also
    when both arguments are the same absent node; it is true when the two
    arguments are one present atom; for two distinct present atoms it
    returns, and the answer is true exactly when [to] is reachable from
    [from] through the adjacency mapping. *)
Theorem hasPath_spec m (from to : T) :
  (hasAtom m from = false ∨ hasAtom m to = false → hasPath m from to = Some false)
  ∧ (hasAtom m from = false → hasPath m from from = Some false)
  ∧ (hasAtom m from = true → hasAtom m to = true → from = to →
     hasPath m from to = Some true)
  ∧ (hasAtom m from = true → hasAtom m to = true → from ≠ to →
     ∃ b, hasPath m from to = Some b
          ∧ (b = true ↔ reachable (adjacency m) from to)).
Proof.
  destruct (hasPath_cases m from to) as (b & Hb & Hiff).
  split; [|split; [|split]].
  - intros Habs. rewrite Hb. f_equal. destruct b; [|done].
    destruct Hiff as [Hiff _]. destruct (Hiff eq_refl) as (? & ? & _).
    destruct Habs; congruence.
  - intros Habs. unfold hasPath. by rewrite Habs.
  - intros Hf Ht ->. rewrite Hb. f_equal. apply Hiff.
    split; [done|]. split; [done|]. apply rtc_refl.
  - intros Hf Ht Hne. exists b. split; [done|]. rewrite Hiff. naive_solver.
Qed.

End bfs_molecule.

Lemma hasPath_spec_witness :
  (hasAtom (addBond (addBond Molecule_new 1 2 ARROW) 3 2 ARROW) 7 = false
   ∧ hasPath (addBond (addBond Molecule_new 1 2 ARROW) 3 2 ARROW) 7 1 = Some false
   ∧ hasPath (addBond (addBond Molecule_new 1 2 ARROW) 3 2 ARROW) 1 7 = Some false
   ∧ hasPath (addBond (addBond Molecule_new 1 2 ARROW) 3 2 ARROW) 7 7 = Some false)
  ∧ (hasAtom (addBond (addBond Molecule_new 1 2 ARROW) 3 2 ARROW) 1 = true
     ∧ hasPath (addBond (addBond Molecule_new 1 2 ARROW) 3 2 ARROW) 1 1 = Some true)
  ∧ (hasAtom (addBond (addBond Molecule_new 1 2 ARROW) 3 2 ARROW) 1 = true
     ∧ hasAtom (addBond (addBond Molecule_new 1 2 ARROW) 3 2 ARROW) 3 = true
     ∧ 1 ≠ 3
     ∧ ∃ b, hasPath (addBond (addBond Molecule_new 1 2 ARROW) 3 2 ARROW) 1 3 = Some b
            ∧ (b = true ↔
               reachable (adjacency (addBond (addBond Molecule_new 1 2 ARROW) 3 2 ARROW))
                 1 3)).
Proof.
  split; [|split].
  - split; [reflexivity|]. split; [|split].
    + apply (hasPath_spec (addBond (addBond Molecule_new 1 2 ARROW) 3 2 ARROW) 7 1).
      left. reflexivity.
    + apply (hasPath_spec (addBond (addBond Molecule_new 1 2 ARROW) 3 2 ARROW) 1 7).
      right. reflexivity.
    + apply (hasPath_spec (addBond (addBond Molecule_new 1 2 ARROW) 3 2 ARROW) 7 7).
      reflexivity.
  - split; [reflexivity|].
    apply (hasPath_spec (addBond (addBond Molecule_new 1 2 ARROW) 3 2 ARROW) 1 1);
      reflexivity.
  - split; [reflexivity|]. split; [reflexivity|]. split; [lia|].
    apply (hasPath_spec (addBond (addBond Molecule_new 1 2 ARROW) 3 2 ARROW) 1 3);
      [reflexivity|reflexivity|lia].
Defined.

(** * Depth-first traversal of [Molecule] *)

Section dfs_molecule.
Context {T : Type} `{Countable T}.
Implicit Types (m : Molecule T) (x y node start : T) (V : gset T).

Lemma dfs_absent m start : hasAtom m start = false → dfs m start = Some [].
Proof. unfold dfs. by intros ->. Qed.

Lemma size_difference_insert (U V : gset T) x :
  x ∈ U → x ∉ V → size (U ∖ V) = S (size (U ∖ ({[x]} ∪ V))).
Proof.
  intros HU HV.
  assert (U ∖ V = {[x]} ∪ U ∖ ({[x]} ∪ V)) as ->.
  { apply set_eq. intros z. destruct (decide (z = x)) as [->|]; set_solver. }
  pose proof (size_union (C:=gset T) {[x]} (U ∖ ({[x]} ∪ V))) as Hsz.
  rewrite size_singleton in Hsz. apply Hsz. set_solver.
Qed.

(** The neighbour loop of one call, given that the recursive calls behave. *)
Lemma dfs_neighbors_spec m node fuel' ns V R :
  (∀ n V R, n ∉ V → size (graph_nodes (adjacency m) ∖ ({[n]} ∪ V)) < fuel' →
     ∃ new, dfsHelper fuel' m n (V, R) = Some (V ∪ list_to_set new, R ++ new)
            ∧ n ∈ new ∧ dfs_post m n V new) →
  (∀ n, n ∈ ns → n ∈ succs (adjacency m) node) →
  size (graph_nodes (adjacency m) ∖ V) ≤ fuel' →
  ∃ new,
    foldM (λ st neighbor,
             if decide (neighbor ∈ st.1) then Some st
             else dfsHelper fuel' m neighbor st) (V, R) ns
    = Some (V ∪ list_to_set new, R ++ new)
    ∧ (∀ n, n ∈ ns → n ∈ V ∪ list_to_set new)
    ∧ NoDup new
    ∧ (∀ x, x ∈ new → x ∉ V)
    ∧ (∀ x, x ∈ new → ∃ n, n ∈ ns ∧ reachable (adjacency m) n x)
    ∧ (∀ x y, x ∈ new → y ∈ succs (adjacency m) x → y ∈ V ∪ list_to_set new).
Proof.
  intros Hrec. revert V R. induction ns as [|n ns IH]; intros V R Hns Hfuel.
  { exists []. simpl. rewrite app_nil_r, union_empty_r_L.
    split; [done|]. split; [set_solver|]. split; [constructor|]. set_solver. }
  simpl. case_decide as Hn.
  - destruct (IH V R) as (new & -> & Hin & Hnd & Hfr & Hre & Hcl);
      [set_solver|done|].
    exists new. split; [done|]. split; [set_solver|]. split; [done|].
    split; [done|]. split; [|done].
    intros x Hx. destruct (Hre x Hx) as (n' & ? & ?). exists n'. set_solver.
  - assert (n ∈ graph_nodes (adjacency m)) as HnU.
    { eapply succs_in_graph_nodes, Hns. by left. }
    pose proof (size_difference_insert _ _ _ HnU Hn) as Hsz.
    destruct (Hrec n V R) as (new1 & -> & Hn1 & [Hnd1 Hfr1 Hre1 Hcl1]); [done|lia|].
    destruct (IH (V ∪ list_to_set new1) (R ++ new1))
      as (new2 & -> & Hin & Hnd2 & Hfr2 & Hre2 & Hcl2); [set_solver| |].
    { etrans; [apply subseteq_size|apply Hfuel]. set_solver. }
    exists (new1 ++ new2).
    assert (V ∪ list_to_set new1 ∪ list_to_set new2 = V ∪ list_to_set (new1 ++ new2))
      as Heq by set_solver.
    rewrite <- Heq, (app_assoc R).
    split; [done|]. split; [|split; [|split; [|split]]].
    + intros n'. rewrite elem_of_cons. intros [->|?]; [set_solver|by apply Hin].
    + apply NoDup_app. split; [done|]. split; [|done].
      intros x Hx Hx'. apply (Hfr2 x Hx'). set_solver.
    + intros x. rewrite elem_of_app. intros [?|Hx]; [by apply Hfr1|].
      apply Hfr2 in Hx. set_solver.
    + intros x. rewrite elem_of_app. intros [Hx|Hx].
      * exists n. split; [by left|by apply Hre1].
      * destruct (Hre2 x Hx) as (n' & ? & ?). exists n'. split; [by right|done].
    + intros x y. rewrite elem_of_app. intros [Hx|Hx] Hy.
      * specialize (Hcl1 x y Hx Hy). set_solver.
      * by apply (Hcl2 x y).
Qed.

Lemma dfsHelper_spec m fuel node V R :
  node ∉ V →
  size (graph_nodes (adjacency m) ∖ ({[node]} ∪ V)) < fuel →
  ∃ new, dfsHelper fuel m node (V, R) = Some (V ∪ list_to_set new, R ++ new)
         ∧ node ∈ new ∧ dfs_post m node V new.
Proof.
  revert node V R. induction fuel as [|fuel IH]; intros node V R Hnode Hfuel; [lia|].
  simpl.
  destruct (dfs_neighbors_spec m node fuel (neighbors m node)
              ({[node]} ∪ V) (R ++ [node]) IH)
    as (new & -> & Hin & Hnd & Hfr & Hre & Hcl).
  { intros n. by rewrite neighbors_succs. }
  { lia. }
  exists (node :: new). simpl. rewrite <- app_assoc; simpl.
  assert ({[node]} ∪ V ∪ list_to_set new = V ∪ ({[node]} ∪ list_to_set new)) as Heq
    by set_solver.
  rewrite Heq. split; [done|]. split; [by left|]. split.
  - constructor; [|done]. intros ?%Hfr. set_solver.
  - intros x [->|Hx%Hfr]%elem_of_cons; set_solver.
  - intros x [->|Hx]%elem_of_cons; [apply rtc_refl|].
    destruct (Hre x Hx) as (n & Hn & Hnx).
    eapply rtc_l; [|done]. unfold edge. by rewrite <- neighbors_succs.
  - intros x y [->|Hx]%elem_of_cons Hy; simpl; rewrite <- Heq.
    + apply Hin. by rewrite neighbors_succs.
    + by apply (Hcl x y).
Qed.

(** [dfs] from a present atom: it returns, without repetition, exactly the
    nodes reachable from [start]. *)
Lemma dfs_present m start :
  hasAtom m start = true →
  ∃ r, dfs m start = Some r ∧ NoDup r
       ∧ ∀ x, x ∈ r ↔ reachable (adjacency m) start x.
Proof.
  intros Hs. unfold dfs. rewrite Hs; simpl.
  destruct (dfsHelper_spec m (depth_fuel (adjacency m)) start ∅ [])
    as (new & -> & Hin & [Hnd Hfr Hre Hcl]).
  { set_solver. }
  { unfold depth_fuel.
    assert (size (graph_nodes (adjacency m) ∖ ({[start]} ∪ ∅))
            ≤ size (graph_nodes (adjacency m))) by (apply subseteq_size; set_solver).
    lia. }
  simpl. exists new. split; [done|]. split; [done|].
  intros x. split; [apply Hre|].
  revert x. apply (rtc_ind_r (λ x, x ∈ new) start); [done|].
  intros y z _ Hyz Hy. specialize (Hcl y z Hy Hyz). set_solver.
Qed.

(** C6: from a present atom, [bfs] and [dfs] both return; each result is
    free of repetitions and lists exactly the nodes reachable from [start]
    through the adjacency mapping, so the two results have the same
    elements (they are permutations of each other; the orders may
    differ). *)
Theorem bfs_dfs_reachable m start :
  hasAtom m start = true →
  ∃ rb rd, bfs m start = Some rb ∧ dfs m start = Some rd
    ∧ NoDup rb ∧ NoDup rd
    ∧ (∀ x, x ∈ rb ↔ reachable (adjacency m) start x)
    ∧ (∀ x, x ∈ rd ↔ reachable (adjacency m) start x)
    ∧ (∀ x, x ∈ rb ↔ x ∈ rd)
    ∧ rb ≡ₚ rd.
Proof.
  intros Hs.
  destruct (bfs_present m start Hs) as (rb & Hb & Hndb & Hrb).
  destruct (dfs_present m start Hs) as (rd & Hd & Hndd & Hrd).
  exists rb, rd. do 6 (split; [done|]).
  assert (∀ x, x ∈ rb ↔ x ∈ rd) as Heq by (intros x; by rewrite Hrb, Hrd).
  split; [done|]. by apply NoDup_Permutation.
Qed.

End dfs_molecule.

(** The two orders differ on a small tree. *)
Lemma bfs_dfs_reachable_witness :
  hasAtom (addBond (addBond (addBond Molecule_new 1 2 SINGLE) 1 3 SINGLE) 2 4 SINGLE) 1
    = true
  ∧ bfs (addBond (addBond (addBond Molecule_new 1 2 SINGLE) 1 3 SINGLE) 2 4 SINGLE) 1
    = Some [1; 2; 3; 4]
  ∧ dfs (addBond (addBond (addBond Molecule_new 1 2 SINGLE) 1 3 SINGLE) 2 4 SINGLE) 1
    = Some [1; 2; 4; 3]
  ∧ [1; 2; 3; 4] ≡ₚ [1; 2; 4; 3].
Proof.
  split; [reflexivity|].
  destruct (bfs_dfs_reachable
              (addBond (addBond (addBond Molecule_new 1 2 SINGLE) 1 3 SINGLE) 2 4 SINGLE) 1)
    as (rb & rd & Hb & Hd & _ & _ & _ & _ & _ & Hp); [reflexivity|].
  vm_compute in Hb. vm_compute in Hd.
  injection Hb as <-. injection Hd as <-.
  split; [reflexivity|]. split; [reflexivity|]. exact Hp.
Defined.

(** * Connectivity and cycle detection of [Molecule] *)

Section cycle.
Context {T : Type} `{Countable T} (T_default : T).
Implicit Types (m : Molecule T) (x y node par : T) (V : gset T) (P : gmap T T).

Lemma isConnected_total (order : list T) m : ∃ b, isConnected order m = Some b.
Proof.
  unfold isConnected. destruct order as [|start rest]; [by eauto|].
  destruct (hasAtom m start) eqn:Hs.
  - destruct (bfs_present m start Hs) as (r & -> & _). eauto.
  - rewrite bfs_absent by done. eauto.
Qed.

(** The neighbour loop of one call of [hasCycleHelper], given that the
    recursive calls behave. *)
Lemma hasCycle_neighbors_spec m node par fuel' ns V P :
  (∀ n V P, n ∉ V → size (graph_nodes (adjacency m) ∖ ({[n]} ∪ V)) < fuel' →
     ∃ b V' P',
       hasCycleHelper T_default fuel' m n (V, P) node = Some (b, (V', P'))
       ∧ {[n]} ∪ V ⊆ V'
       ∧ (∀ x, x ∈ V → P' !! x = P !! x)
       ∧ (b = false → ∀ x, x ∈ V' → x ∉ V → x ∈ neighbors m x → x = n ∧ node = n)) →
  (∀ n, n ∈ ns → n ∈ succs (adjacency m) node) →
  size (graph_nodes (adjacency m) ∖ V) ≤ fuel' →
  node ∈ V → P !! node = Some par →
  ∃ b V' P',
    hasCycle_neighbors T_default
      (λ neighbor st', hasCycleHelper T_default fuel' m neighbor st' node)
      node ns (V, P) = Some (b, (V', P'))
    ∧ V ⊆ V'
    ∧ (∀ x, x ∈ V → P' !! x = P !! x)
    ∧ (b = false →
       (∀ x, x ∈ V' → x ∉ V → x ∉ neighbors m x) ∧ (node ∈ ns → par = node)).
Proof.
  intros Hrec. revert V P. induction ns as [|n ns IH]; intros V P Hns Hfuel Hnode Hpar.
  { exists false, V, P. simpl. split; [done|]. split; [done|]. split; [done|].
    intros _. split; [done|]. by intros ?%elem_of_nil. }
  simpl. destruct (decide (n ∉ V)) as [Hn|Hn].
  - assert (n ∈ graph_nodes (adjacency m)) as HnU.
    { eapply succs_in_graph_nodes, Hns. by left. }
    pose proof (size_difference_insert _ _ _ HnU Hn) as Hsz.
    destruct (Hrec n V P) as (b1 & V1 & P1 & -> & HV1 & HP1 & Hb1); [done|lia|].
    destruct b1.
    { exists true, V1, P1. split; [done|]. split; [set_solver|]. split; [done|]. done. }
    destruct (IH V1 P1) as (b & V' & P' & -> & HV' & HP' & Hb).
    { set_solver. }
    { etrans; [apply subseteq_size|apply Hfuel]. set_solver. }
    { set_solver. }
    { by rewrite HP1. }
    exists b, V', P'. split; [done|]. split; [set_solver|]. split.
    { intros x Hx. rewrite HP' by set_solver. by apply HP1. }
    intros ->. destruct (Hb eq_refl) as [Hnew Hself]. split.
    + intros x Hx HxV Hloop. destruct (decide (x ∈ V1)) as [Hx1|Hx1].
      * destruct (Hb1 eq_refl x Hx1 HxV Hloop) as [-> ->]. done.
      * by apply (Hnew x).
    + intros [->|Hin]%elem_of_cons; [done|]. by apply Hself.
  - apply dec_stable in Hn. unfold parent_at; simpl. rewrite Hpar; simpl.
    destruct (decide (n ≠ par)) as [Hnp|Hnp].
    { exists true, V, P. done. }
    apply dec_stable in Hnp as ->.
    destruct (IH V P) as (b & V' & P' & -> & HV' & HP' & Hb);
      [set_solver|done|done|done|].
    exists b, V', P'. split; [done|]. split; [done|]. split; [done|].
    intros ->. destruct (Hb eq_refl) as [Hnew Hself]. split; [done|].
    intros [->|Hin]%elem_of_cons; [done|]. by apply Hself.
Qed.

(** A call of [hasCycleHelper] on an unvisited node returns.  When it
    reports no cycle, the only node with a self-loop it can have visited
    is [node] itself, and only if [par] is that same node. *)
Lemma hasCycleHelper_spec m fuel node V P par :
  node ∉ V →
  size (graph_nodes (adjacency m) ∖ ({[node]} ∪ V)) < fuel →
  ∃ b V' P',
    hasCycleHelper T_default fuel m node (V, P) par = Some (b, (V', P'))
    ∧ {[node]} ∪ V ⊆ V'
    ∧ (∀ x, x ∈ V → P' !! x = P !! x)
    ∧ (b = false → ∀ x, x ∈ V' → x ∉ V → x ∈ neighbors m x → x = node ∧ par = node).
Proof.
  revert node V P par.
  induction fuel as [|fuel IH]; intros node V P par Hnode Hfuel; [lia|].
  simpl.
  destruct (hasCycle_neighbors_spec m node par fuel (neighbors m node)
              ({[node]} ∪ V) (<[node := par]> P))
    as (b & V' & P' & -> & HV' & HP' & Hb).
  { intros n V0 P0 Hn Hf. by apply IH. }
  { intros n. by rewrite neighbors_succs. }
  { lia. }
  { set_solver. }
  { apply lookup_insert_eq. }
  exists b, V', P'. split; [done|]. split; [done|]. split.
  - intros x Hx. rewrite HP' by set_solver. apply lookup_insert_ne. set_solver.
  - intros ->. destruct (Hb eq_refl) as [Hnew Hself].
    intros x Hx HxV Hloop. destruct (decide (x = node)) as [->|Hne].
    + split; [done|]. by apply Hself.
    + destruct (Hnew x Hx); [set_solver|done].
Qed.

Lemma hasCycle_atoms_spec m (order : list T) V P :
  ∃ b, hasCycle_atoms T_default m order (V, P) = Some b
       ∧ (b = false → ∀ x, x ∈ order → x ∉ V → x ∈ neighbors m x → x = T_default).
Proof.
  revert V P. induction order as [|atom rest IH]; intros V P; simpl.
  { exists false. split; [done|]. by intros _ x ?%elem_of_nil. }
  destruct (decide (atom ∉ V)) as [Ha|Ha].
  - destruct (hasCycleHelper_spec m (depth_fuel (adjacency m)) atom V P T_default)
      as (b1 & V1 & P1 & -> & HV1 & HP1 & Hb1); [done| |].
    { unfold depth_fuel.
      assert (size (graph_nodes (adjacency m) ∖ ({[atom]} ∪ V))
              ≤ size (graph_nodes (adjacency m))) by (apply subseteq_size; set_solver).
      lia. }
    destruct b1; [by exists true|].
    destruct (IH V1 P1) as (b & -> & Hb). exists b. split; [done|].
    intros ->. intros x Hx HxV Hloop.
    destruct (decide (x ∈ V1)) as [Hx1|Hx1].
    + destruct (Hb1 eq_refl x Hx1 HxV Hloop) as [-> ->]. done.
    + apply elem_of_cons in Hx as [->|Hx]; [set_solver|]. by apply (Hb eq_refl x).
  - apply dec_stable in Ha.
    destruct (IH V P) as (b & -> & Hb). exists b. split; [done|].
    intros ->. intros x [->|Hx]%elem_of_cons HxV Hloop; [done|].
    by apply (Hb eq_refl x).
Qed.

(** [hasCycle] returns for every molecule and every enumeration; when it
    answers false, the only enumerated node that can carry a self-loop is
    the value-initialised node. *)
Lemma hasCycle_total (order : list T) m :
  ∃ b, hasCycle T_default order m = Some b
       ∧ (b = false → ∀ x, x ∈ order → x ∈ neighbors m x → x = T_default).
Proof.
  unfold hasCycle. destruct (hasCycle_atoms_spec m order ∅ ∅) as (b & Hb & Hf).
  exists b. split; [done|]. intros -> x Hx. apply Hf; [done|done|set_solver].
Qed.

(** A self-loop on any node other than [T()] is reported as a cycle. *)
Lemma hasCycle_self_loop (ops : list (op T)) (order : list T) (a : T) (k : BondType) :
  order ≡ₚ elements (atoms (run ops)) →
  hasBond (run ops) a a k = true →
  a ≠ T_default →
  hasCycle T_default order (run ops) = Some true.
Proof.
  intros Hperm Hb Ha. pose proof (run_wf ops) as Hwf.
  apply hasBond_true in Hb.
  destruct (wf_bonds _ Hwf _ Hb) as [HaA _].
  destruct (wf_bond_adj _ Hwf _ Hb) as [Hloop _]. simpl in *.
  destruct (hasCycle_total order (run ops)) as (b & -> & Hf).
  destruct b; [done|]. destruct Ha. apply (Hf eq_refl); [|done].
  rewrite Hperm. by apply elem_of_elements.
Qed.

End cycle.

(** C2: a molecule whose only bond is a self-loop on the value-initialised
    node ([0] for an integer node type) is reported as free of cycles:
    the root of the search gets [T()] as its parent, and the loop's
    neighbour is then taken for that parent. *)
Theorem hasCycle_self_loop_on_default :
  hasBond (addBond Molecule_new 0 0 SINGLE) 0 0 SINGLE = true
  ∧ elements (atoms (addBond Molecule_new 0 0 SINGLE)) = [0]
  ∧ hasCycle 0 [0] (addBond Molecule_new 0 0 SINGLE) = Some false
  ∧ hasCycle 0 [0] (addBond Molecule_new 0 0 DOUBLE) = Some false
  ∧ hasCycle 0 [0] (addBond Molecule_new 0 0 ARROW) = Some false
  ∧ hasCycle 0 [0] (addBond Molecule_new 0 0 BIDIRECTIONAL) = Some false.
Proof. vm_compute. repeat split; reflexivity. Qed.

(** * Shortest paths on a bare mapping *)

Section paths.
Context {T : Type} `{Countable T}.
Implicit Types (graph : gmap T (list T)) (x y start : T) (p : list T).

Lemma is_path_singleton graph x : is_path graph x x [x].
Proof. split; [done|]. split; [done|]. by intros [|i] ???. Qed.

Lemma is_path_snoc graph start x y p :
  is_path graph start x p → y ∈ succs graph x → is_path graph start y (p ++ [y]).
Proof.
  intros (Hh & Hl & Hadj) Hy. split; [|split].
  - destruct p; [done|]. done.
  - apply last_snoc.
  - intros i a b Ha Hb.
    destruct (decide (S i < length p)) as [Hlt|Hge].
    + rewrite lookup_app_l in Ha by lia. rewrite lookup_app_l in Hb by lia. eauto.
    + assert (length p ≤ S i) as Hle by lia.
      pose proof (lookup_lt_Some _ _ _ Hb) as Hb'.
      rewrite length_app in Hb'; simpl in Hb'.
      assert (S i = length p) as Hi by lia.
      rewrite lookup_app_r in Hb by lia. rewrite Hi, Nat.sub_diag in Hb.
      injection Hb as <-.
      rewrite lookup_app_l in Ha by lia.
      rewrite last_lookup in Hl. rewrite <- Hi in Hl. simpl in Hl.
      rewrite Hl in Ha. by injection Ha as <-.
Qed.

Lemma is_path_nonempty graph start end_ p : is_path graph start end_ p → 0 < length p.
Proof. intros (Hh & _). destruct p; [done|simpl; lia]. Qed.

Lemma is_path_lookup_reachable graph start end_ p i x :
  is_path graph start end_ p → p !! i = Some x → reachable graph start x.
Proof.
  intros (Hh & Hl & Hadj). revert x. induction i as [|i IH]; intros x Hx.
  - rewrite <- head_lookup, Hh in Hx. injection Hx as <-. apply rtc_refl.
  - destruct (p !! i) as [z|] eqn:Ez.
    + eapply rtc_r; [by apply IH|]. by eapply Hadj.
    + apply lookup_ge_None in Ez. apply lookup_lt_Some in Hx. lia.
Qed.

Lemma is_path_reachable graph start end_ p :
  is_path graph start end_ p → reachable graph start end_.
Proof.
  intros Hp. pose proof Hp as (_ & Hl & _). rewrite last_lookup in Hl.
  by eapply is_path_lookup_reachable.
Qed.

Lemma reachable_is_path graph start end_ :
  reachable graph start end_ → ∃ p, is_path graph start end_ p.
Proof.
  revert end_. apply (rtc_ind_r (λ e, ∃ p, is_path graph start e p) start).
  - exists [start]. apply is_path_singleton.
  - intros y z _ Hyz [p Hp]. exists (p ++ [z]). by eapply is_path_snoc.
Qed.

End paths.

Section shortest_path.
Context {T : Type} `{Countable T} (T_default : T).
Implicit Types (graph : gmap T (list T)) (x y start current : T)
  (s : sp_state T) (lvl : T → nat).

Lemma sp_fold_spec current s ns :
  (sp_visited (foldl (sp_visit current) s ns), sp_queue (foldl (sp_visit current) s ns))
    = foldl enqueue_unvisited (sp_visited s, sp_queue s) ns
  ∧ ∀ x, sp_parent (foldl (sp_visit current) s ns) !! x
         = if decide (x ∈ ns ∧ x ∉ sp_visited s) then Some current
           else sp_parent s !! x.
Proof.
  revert s. induction ns as [|n ns IH]; intros s; simpl.
  { done. }
  destruct (IH (sp_visit current s n)) as [-> Hpar]. split.
  - f_equal. unfold sp_visit, enqueue_unvisited; simpl. by case_decide.
  - intros x. rewrite Hpar. clear Hpar IH. unfold sp_visit.
    destruct (decide (n ∈ sp_visited s)) as [Hn|Hn]; simpl.
    + repeat case_decide; try done; exfalso; set_solver.
    + destruct (decide (x = n)) as [->|Hne].
      * rewrite lookup_insert_eq. repeat case_decide; try done; exfalso; set_solver.
      * rewrite lookup_insert_ne by done.
        repeat case_decide; try done; exfalso; set_solver.
Qed.

(** The continuing branch of [sp_step], with both lookups folded into
    [succs]. *)
Lemma sp_step_continue graph start end_ s s' :
  sp_step T_default graph start end_ s = inl s' →
  ∃ current rest, sp_queue s = current :: rest ∧ current ≠ end_
    ∧ s' = foldl (sp_visit current)
             {| sp_parent := sp_parent s; sp_visited := sp_visited s; sp_queue := rest |}
             (succs graph current).
Proof.
  unfold sp_step. destruct (sp_queue s) as [|current rest]; [done|].
  case_decide; [done|]. intros Hs'. exists current, rest.
  split; [done|]. split; [done|]. unfold succs.
  destruct (graph !! current); simpl; by injection Hs' as <-.
Qed.

(** How the two depth bands of the queue move when its head is served and
    the nodes [new], one level below the head, are appended. *)
Lemma sp_queue_levels lvl d (Q1 Q2 : list T) current (rest new : list T) :
  Q1 ++ Q2 = current :: rest →
  (∀ x, x ∈ Q1 → lvl x = d) →
  (∀ x, x ∈ Q2 → lvl x = S d) →
  (∀ x, x ∈ new → x ∉ current :: rest) →
  (d ≤ lvl current ≤ S d)
  ∧ ∃ Q1' Q2', rest ++ new = Q1' ++ Q2'
      ∧ (∀ x, x ∈ Q1' → (x ∉ new) ∧ lvl x = lvl current)
      ∧ (∀ x, x ∈ Q2' → x ∈ new ∨ ((x ∉ new) ∧ lvl x = S (lvl current))).
Proof.
  intros HQ H1 H2 Hnew. destruct Q1 as [|c Q1r]; simpl in HQ.
  - subst Q2. assert (lvl current = S d) as HL by (apply H2; by left).
    split; [lia|]. exists rest, new. split; [done|]. split.
    + intros x Hx. split.
      * intros ?%Hnew. set_solver.
      * rewrite HL. apply H2. by right.
    + intros x Hx. by left.
  - injection HQ as -> <-. assert (lvl current = d) as HL by (apply H1; by left).
    split; [lia|]. exists Q1r, (Q2 ++ new). split; [by rewrite app_assoc|]. split.
    + intros x Hx. split.
      * intros ?%Hnew. set_solver.
      * rewrite HL. apply H1. by right.
    + intros x [Hx|Hx]%elem_of_app; [|by left].
      destruct (decide (x ∈ new)); [by left|right]. split; [done|].
      rewrite HL. by apply H2.
Qed.

Lemma sp_step_inv graph start (end_ : T) s s' :
  sp_loop_inv graph start end_ s →
  sp_step T_default graph start end_ s = inl s' →
  sp_loop_inv graph start end_ s'
  ∧ bfs_measure graph (sp_visited s', sp_queue s')
    < bfs_measure graph (sp_visited s, sp_queue s).
Proof.
  intros (lvl & d & Q1 & Q2 & [Hbfs Hsplit Hl1 Hl2 Hdone Hdom Hroot Htree Hedge Hend Hbound])
    Hstep.
  destruct (sp_step_continue _ _ _ _ _ Hstep) as (current & rest & HQ & Hcur & ->).
  clear Hstep.
  match goal with |- context [foldl _ ?t _] => set (s0 := t) end.
  destruct (sp_fold_spec current s0 (succs graph current)) as [Hvq Hpar].
  simpl in Hvq, Hpar.
  destruct (fold_enqueue_queue (sp_visited s) rest (succs graph current))
    as (new & HQ' & Hnd & Hin).
  pose proof (fold_enqueue_visited (sp_visited s) rest (succs graph current)) as HV'.
  rewrite <- Hvq in HQ', HV'. simpl in HQ', HV'.
  rewrite HQ in *.
  assert (current ∈ sp_visited s) as HcurV
    by (apply (bfs_inv_queue _ _ _ Hbfs); by left).
  assert (∀ x, x ∈ new → x ∉ current :: rest) as Hnewq.
  { intros x [_ Hx]%Hin Hq. apply Hx. by apply (bfs_inv_queue _ _ _ Hbfs). }
  destruct (sp_queue_levels lvl d Q1 Q2 current rest new (eq_sym Hsplit) Hl1 Hl2 Hnewq)
    as (HL & Q1' & Q2' & Hsplit' & Hl1' & Hl2').
  set (lvl' := λ x, if decide (x ∈ new) then S (lvl current) else lvl x).
  assert (∀ x, x ∈ sp_visited s → lvl' x = lvl x) as Hlvl'.
  { intros x Hx. unfold lvl'. rewrite decide_False; [done|]. rewrite Hin. tauto. }
  assert (∀ x, x ∈ new → lvl' x = S (lvl current)) as Hlvlnew.
  { intros x Hx. unfold lvl'. by rewrite decide_True. }
  assert (∀ x, x ∈ sp_visited (foldl (sp_visit current) s0 (succs graph current)) →
               x ∈ new ∨ x ∈ sp_visited s) as Hsplitv.
  { intros x. rewrite HV', elem_of_union, elem_of_list_to_set, Hin.
    destruct (decide (x ∈ sp_visited s)); tauto. }
  assert (∀ x, x ∈ sp_visited (foldl (sp_visit current) s0 (succs graph current)) →
               x ∉ sp_queue (foldl (sp_visit current) s0 (succs graph current)) →
               x ∈ sp_visited s ∧ (x ∉ new) ∧ (x = current ∨ x ∉ current :: rest)) as Hproc.
  { intros x Hx. rewrite HQ', elem_of_app. intros Hnq.
    destruct (Hsplitv x Hx) as [?|HxV]; [tauto|]. split; [done|]. split; [tauto|].
    destruct (decide (x = current)); [by left|right].
    rewrite elem_of_cons. tauto. }
  split.
  - exists lvl', (lvl current), Q1', Q2'. split.
    + rewrite Hvq. by apply bfs_inv_round.
    + by rewrite HQ'.
    + intros x [Hx1 Hx2]%Hl1'. unfold lvl'. by rewrite decide_False.
    + intros x [Hx|[Hx1 Hx2]]%Hl2'; [by apply Hlvlnew|].
      unfold lvl'. by rewrite decide_False.
    + intros x Hx Hnq. destruct (Hproc x Hx Hnq) as (HxV & Hxn & [->|Hxq]).
      * by rewrite Hlvl'.
      * rewrite Hlvl' by done. specialize (Hdone x HxV Hxq). lia.
    + intros x. rewrite Hpar, HV', elem_of_union, elem_of_list_to_set.
      case_decide as Hc.
      * split; [by eauto|]. tauto.
      * rewrite <- Hdom. destruct (decide (x ∈ sp_visited s)); tauto.
    + destruct Hroot as [Hr1 Hr2].
      assert (start ∈ sp_visited s) as HsV by apply (bfs_inv_start _ _ _ Hbfs).
      split.
      * rewrite Hpar. rewrite decide_False; [done|]. tauto.
      * by rewrite Hlvl'.
    + intros v Hv Hvs. rewrite HV'. destruct (Hsplitv v Hv) as [Hvn|HvV].
      * exists current. rewrite Hpar. apply Hin in Hvn as Hvn'.
        rewrite decide_True by done.
        split; [done|]. split; [set_solver|]. split; [tauto|].
        by rewrite Hlvlnew, Hlvl'.
      * destruct (Htree v HvV Hvs) as (p & Hp & HpV & Hvp & Hlv).
        exists p. rewrite Hpar. rewrite decide_False by tauto.
        split; [done|]. split; [set_solver|]. split; [done|].
        by rewrite !Hlvl'.
    + intros x y Hx Hnq Hy. destruct (Hproc x Hx Hnq) as (HxV & Hxn & [->|Hxq]).
      * rewrite (Hlvl' current) by done.
        destruct (decide (y ∈ new)) as [Hyn|Hyn]; [by rewrite Hlvlnew|].
        assert (y ∈ sp_visited s) as HyV.
        { destruct (decide (y ∈ sp_visited s)); [done|]. exfalso. apply Hyn.
          apply Hin. tauto. }
        rewrite Hlvl' by done.
        destruct (decide (y ∈ current :: rest)) as [Hyq|Hyq].
        -- rewrite Hsplit in Hyq. apply elem_of_app in Hyq as [Hyq|Hyq].
           ++ rewrite (Hl1 y Hyq). lia.
           ++ rewrite (Hl2 y Hyq). lia.
        -- specialize (Hdone y HyV Hyq). lia.
      * assert (y ∈ sp_visited s) as HyV
          by (eapply (bfs_inv_closed _ _ _ Hbfs); eauto).
        rewrite !Hlvl' by done. by eapply Hedge.
    + intros x Hx Hnq. destruct (Hproc x Hx Hnq) as (HxV & Hxn & [->|Hxq]); [done|].
      by apply Hend.
    + intros x Hx.
      assert (size (sp_visited s)
              ≤ size (sp_visited (foldl (sp_visit current) s0 (succs graph current))))
        as Hsz by (apply subseteq_size; rewrite HV'; set_solver).
      destruct (Hsplitv x Hx) as [Hxn|HxV].
      * rewrite Hlvlnew by done. specialize (Hbound current HcurV).
        assert (S (size (sp_visited s))
                ≤ size (sp_visited (foldl (sp_visit current) s0 (succs graph current)))).
        { apply Hin in Hxn as [Hx1 Hx2].
          pose proof (size_union (C:=gset T) {[x]} (sp_visited s)) as Hu.
          rewrite size_singleton in Hu. simpl in Hu. rewrite <- Hu by set_solver.
          apply subseteq_size. rewrite HV'. set_solver. }
        lia.
      * rewrite Hlvl' by done. specialize (Hbound x HxV). lia.
  - rewrite Hvq. apply bfs_round_measure.
Qed.

(** The reconstruction loop, started at a visited node of depth [k], walks
    the parent pointers back to [start] and returns the reversed walk. *)
Lemma sp_walk_spec graph start (end_ : T) s lvl d Q1 Q2 :
  sp_inv graph start end_ s lvl d Q1 Q2 →
  ∀ k node acc fuel,
    node ∈ sp_visited s → lvl node = k → k < fuel →
    ∃ tail,
      iter (sp_walk_step T_default start) fuel (acc, node, sp_parent s)
        = Some (reverse (acc ++ tail))
      ∧ length tail = S k
      ∧ is_path graph start node (reverse tail).
Proof.
  intros [Hbfs Hsplit Hl1 Hl2 Hdone Hdom [Hr1 Hr2] Htree Hedge Hend Hbound].
  induction k as [|k IH]; intros node acc fuel Hnode Hlvl Hfuel;
    (destruct fuel as [|fuel]; [lia|]); simpl;
    destruct (decide (node ≠ start)) as [Hne|Heq].
  - destruct (Htree node Hnode Hne) as (p & _ & _ & _ & Hp). lia.
  - apply dec_stable in Heq as ->. exists [start]. split; [done|]. split; [done|].
    apply is_path_singleton.
  - destruct (Htree node Hnode Hne) as (p & Hp & HpV & Hnp & Hlp).
    unfold parent_at. rewrite Hp. simpl.
    destruct (IH p (acc ++ [node]) fuel) as (tail & -> & Hlen & Hpath);
      [done|lia|lia|].
    exists (node :: tail). rewrite <- app_assoc. split; [done|]. split.
    + simpl. by rewrite Hlen.
    + rewrite reverse_cons. by eapply is_path_snoc.
  - apply dec_stable in Heq as ->. lia.
Qed.

(** When [end_] is at the head of the queue, no path to it is shorter than
    its depth in the parent tree. *)
Lemma sp_found_minimal graph start (end_ : T) s lvl d Q1 Q2 rest p :
  sp_inv graph start end_ s lvl d Q1 Q2 →
  sp_queue s = end_ :: rest →
  is_path graph start end_ p →
  lvl end_ < length p.
Proof.
  intros [Hbfs Hsplit Hl1 Hl2 Hdone Hdom [Hr1 Hr2] Htree Hedge Hend Hbound] HQ Hp.
  destruct (decide (lvl end_ < length p)) as [|Hge]; [done|exfalso].
  assert (∀ x, x ∈ sp_queue s → lvl end_ ≤ lvl x) as Hq.
  { rewrite Hsplit in HQ |- *. intros x Hx.
    destruct Q1 as [|c Q1r]; simpl in HQ.
    - subst Q2. rewrite (Hl2 end_), (Hl2 x); [lia|done|by left].
    - injection HQ as -> <-. rewrite (Hl1 end_) by (by left).
      apply elem_of_app in Hx as [Hx|Hx]; [rewrite (Hl1 x Hx)|rewrite (Hl2 x Hx)]; lia. }
  pose proof (is_path_nonempty _ _ _ _ Hp) as Hlen.
  destruct Hp as (Hh & Hl & Hadj).
  assert (∀ i x, p !! i = Some x →
                 x ∈ sp_visited s ∧ (x ∉ sp_queue s) ∧ lvl x ≤ i) as Hall.
  { induction i as [|i IH]; intros x Hx.
    - rewrite <- head_lookup, Hh in Hx. injection Hx as <-.
      split; [apply (bfs_inv_start _ _ _ Hbfs)|]. split; [|lia].
      intros Hin%Hq. lia.
    - destruct (p !! i) as [z|] eqn:Ez.
      + destruct (IH z eq_refl) as (HzV & Hzq & Hlz).
        assert (x ∈ succs graph z) as Hzx by (by eapply Hadj).
        pose proof (Hedge z x HzV Hzq Hzx) as Hlx.
        split; [by eapply (bfs_inv_closed _ _ _ Hbfs)|]. split; [|lia].
        intros Hin%Hq. apply lookup_lt_Some in Hx. lia.
      + apply lookup_ge_None in Ez. apply lookup_lt_Some in Hx. lia. }
  rewrite last_lookup in Hl. destruct (Hall _ _ Hl) as (_ & Hnq & _).
  apply Hnq. rewrite HQ. by left.
Qed.

Lemma sp_inv_init graph start (end_ : T) :
  sp_loop_inv graph start end_
    {| sp_parent := {[start := start]}; sp_visited := {[start]}; sp_queue := [start] |}.
Proof.
  exists (λ _, 0), 0, [start], []. split; simpl.
  - apply bfs_inv_init.
  - done.
  - done.
  - by intros x ?%elem_of_nil.
  - intros; lia.
  - intros x. rewrite elem_of_singleton. split.
    + intros ->. rewrite lookup_singleton_eq. eauto.
    + intros [y Hy]. apply lookup_singleton_Some in Hy. naive_solver.
  - split; [apply lookup_singleton_eq|done].
  - intros v ->%elem_of_singleton. done.
  - intros x y ->%elem_of_singleton Hx. exfalso. apply Hx. by left.
  - intros x ->%elem_of_singleton Hx. exfalso. apply Hx. by left.
  - intros x _. change (0 < size ({[start]} : gset T)). rewrite size_singleton. lia.
Qed.

Lemma graphShortestPath_search graph start (end_ : T) :
  ∃ r, iter (sp_step T_default graph start end_) (loop_fuel graph)
         {| sp_parent := {[start := start]}; sp_visited := {[start]};
            sp_queue := [start] |} = Some (Some r)
       ∧ ((r = [] ∧ ¬ reachable graph start end_)
          ∨ (is_path graph start end_ r
             ∧ ∀ p, is_path graph start end_ p → length r ≤ length p)).
Proof.
  destruct (iter_total (sp_loop_inv graph start end_)
              (λ s, bfs_measure graph (sp_visited s, sp_queue s))
              (sp_step T_default graph start end_) (loop_fuel graph)
              {| sp_parent := {[start := start]}; sp_visited := {[start]};
                 sp_queue := [start] |})
    as (s & r0 & Hr0 & (lvl & d & Q1 & Q2 & Hinv) & Hexit).
  - apply sp_step_inv.
  - apply sp_inv_init.
  - apply bfs_measure_init.
  - rewrite Hr0. unfold sp_step in Hexit.
    destruct (sp_queue s) as [|current rest] eqn:HQ.
    + injection Hexit as <-. exists []. split; [done|]. left. split; [done|].
      intros Hreach. pose proof (sp_bfs _ _ _ _ _ _ _ _ Hinv) as Hbfs.
      rewrite HQ in Hbfs. apply (bfs_inv_done _ _ _ _ Hbfs) in Hreach.
      eapply (sp_not_end _ _ _ _ _ _ _ _ Hinv); [done| |done].
      rewrite HQ. apply not_elem_of_nil.
    + case_decide as Hcur.
      2:{ destruct (graph !! current); done. }
      subst current. injection Hexit as <-.
      assert (end_ ∈ sp_visited s) as HeV.
      { apply (bfs_inv_queue _ _ _ (sp_bfs _ _ _ _ _ _ _ _ Hinv)). simpl.
        rewrite HQ. by left. }
      assert (size (sp_parent s) = size (sp_visited s)) as Hsz.
      { rewrite <- size_dom. f_equal. apply set_eq. intros x.
        rewrite elem_of_dom. symmetry. apply (sp_dom _ _ _ _ _ _ _ _ Hinv). }
      pose proof (sp_lvl_bound _ _ _ _ _ _ _ _ Hinv end_ HeV) as Hb.
      destruct (sp_walk_spec graph start end_ s lvl d Q1 Q2 Hinv (lvl end_) end_ []
                  (size (sp_parent s) + 1)) as (tail & -> & Hlen & Hpath);
        [done|done|lia|].
      simpl. exists (reverse tail). split; [done|]. right. split; [done|].
      intros p Hp. rewrite length_reverse, Hlen.
      pose proof (sp_found_minimal _ _ _ _ _ _ _ _ _ _ Hinv HQ Hp). lia.
Qed.

(** [graphShortestPath] returns.  The result is empty when [start] is not
    a key or [end_] cannot be reached; otherwise it is a path from [start]
    to [end_] of least length. *)
Lemma graphShortestPath_cases graph start (end_ : T) :
  ∃ r, graphShortestPath T_default graph start end_ = Some r
       ∧ ((r = [] ∧ (graph !! start = None ∨ ¬ reachable graph start end_))
          ∨ (graph !! start ≠ None
             ∧ is_path graph start end_ r
             ∧ ∀ p, is_path graph start end_ p → length r ≤ length p)).
Proof.
  unfold graphShortestPath.
  destruct (graphShortestPath_search graph start end_) as (r & -> & Hr).
  case_decide as Hs.
  - exists []. split; [done|]. left. auto.
  - exists r. split; [done|]. destruct Hr as [[-> Hnr]|[Hp Hmin]]; [left|right]; auto.
Qed.

(** C4: [graphShortestPath] returns the empty sequence when [start] is not
    a key of the mapping or when no path from [start] to [end_] exists;
    it returns [[start]] when [start = end_] is a key; and whenever [start]
    is a key and some path exists it returns a path from [start] to [end_]
    (first element [start], last element [end_], consecutive elements
    adjacent in the mapping) that no other such path undercuts in
    length. *)
Theorem graphShortestPath_spec graph start (end_ : T) :
  (graph !! start = None → graphShortestPath T_default graph start end_ = Some [])
  ∧ (graph !! start ≠ None → (¬ ∃ p, is_path graph start end_ p) →
     graphShortestPath T_default graph start end_ = Some [])
  ∧ (graph !! start ≠ None → start = end_ →
     graphShortestPath T_default graph start end_ = Some [start])
  ∧ (graph !! start ≠ None → (∃ p, is_path graph start end_ p) →
     ∃ r, graphShortestPath T_default graph start end_ = Some r
          ∧ is_path graph start end_ r
          ∧ ∀ p, is_path graph start end_ p → length r ≤ length p).
Proof.
  destruct (graphShortestPath_cases graph start end_) as (r & -> & Hr).
  split; [|split; [|split]].
  - intros Hs. destruct Hr as [[-> _]|[? _]]; done.
  - intros Hs Hno. destruct Hr as [[-> _]|(_ & Hp & _)]; [done|].
    destruct Hno. eauto.
  - intros Hs <-. destruct Hr as [[_ [?|Hnr]]|(_ & Hp & Hmin)];
      [done|destruct Hnr; apply rtc_refl|].
    specialize (Hmin [start] (is_path_singleton _ _)). simpl in Hmin.
    destruct Hp as (Hh & _). destruct r as [|x [|y r]]; simpl in *; [done| |lia].
    by injection Hh as ->.
  - intros Hs [p Hp]. destruct Hr as [[_ [?|Hnr]]|(_ & Hpr & Hmin)]; [done| |by eauto].
    destruct Hnr. by eapply is_path_reachable.
Qed.

End shortest_path.

(** * The remaining analysers on a bare mapping *)

Section analysers.
Context {T : Type} `{Countable T}.
Implicit Types (graph : gmap T (list T)) (x y start current : T)
  (V : gset T) (Q ns : list T).

(** *** [graphHasPath] *)

Lemma graphHasPath_neighbors_inl (end_ : T) ns (st st' : gset T * list T) :
  graphHasPath_neighbors end_ ns st = inl st' →
  st' = foldl enqueue_unvisited st ns ∧ end_ ∉ ns.
Proof.
  revert st. induction ns as [|n ns IH]; intros st; simpl.
  { intros [= <-]. split; [done|]. apply not_elem_of_nil. }
  case_decide as Hn; [done|]. intros [-> Hns]%IH. split; [done|].
  rewrite not_elem_of_cons. auto.
Qed.

Lemma graphHasPath_neighbors_inr (end_ : T) ns (st : gset T * list T) u :
  graphHasPath_neighbors end_ ns st = inr u → end_ ∈ ns.
Proof.
  revert st. induction ns as [|n ns IH]; intros st; simpl; [done|].
  case_decide as Hn; [subst; by left|]. intros ?%IH. by right.
Qed.

Lemma graphHasPath_step_inv graph start (end_ : T) vq vq' :
  graphHasPath_inv graph start end_ vq →
  graphHasPath_step graph end_ vq = inl vq' →
  graphHasPath_inv graph start end_ vq'
  ∧ bfs_measure graph vq' < bfs_measure graph vq.
Proof.
  intros [Hbfs Hend]. unfold graphHasPath_step. destruct vq as [V Q]; simpl in *.
  destruct Q as [|current rest]; [done|].
  intros Hstep.
  assert ((end_ ∉ succs graph current)
          ∧ vq' = foldl enqueue_unvisited (V, rest) (succs graph current)) as [Hne ->].
  { unfold succs. destruct (graph !! current) as [ns|]; simpl.
    - destruct (graphHasPath_neighbors end_ ns (V, rest)) as [s'|] eqn:E; [|done].
      injection Hstep as <-. by apply graphHasPath_neighbors_inl in E as [-> ?].
    - injection Hstep as <-. split; [apply not_elem_of_nil|done]. }
  split; [split|].
  - by apply bfs_inv_round.
  - destruct (fold_enqueue_queue V rest (succs graph current))
      as (new & HQ & Hnew & Hin).
    rewrite HQ, fold_enqueue_visited.
    intros x. rewrite elem_of_union, elem_of_list_to_set, elem_of_app, Hin.
    intros Hx Hnx. destruct (decide (x = current)) as [->|Hnc]; [done|].
    destruct (decide (x ∈ V)); [|tauto].
    apply Hend; [done|]. rewrite elem_of_cons. tauto.
  - apply bfs_round_measure.
Qed.

(** [graphHasPath] returns, and answers true exactly when [start] is a key
    and [end_] is reachable from it. *)
Lemma graphHasPath_spec graph start (end_ : T) :
  ∃ b, graphHasPath graph start end_ = Some b
       ∧ (b = true ↔ graph !! start ≠ None ∧ reachable graph start end_).
Proof.
  unfold graphHasPath. case_decide as Hs.
  { exists false. split; [done|]. split; [done|]. by intros [? _]. }
  case_decide as Hse.
  { subst. exists true. split; [done|]. split; [|done]. intros _. split; [done|].
    apply rtc_refl. }
  destruct (iter_total (graphHasPath_inv graph start end_) (bfs_measure graph)
              (graphHasPath_step graph end_) (loop_fuel graph) ({[start]}, [start]))
    as (vq & b & Hb & [Hbfs Hend] & Hexit).
  - apply graphHasPath_step_inv.
  - split; [apply bfs_inv_init|]. simpl. set_solver.
  - apply bfs_measure_init.
  - exists b. split; [done|].
    unfold graphHasPath_step in Hexit. destruct vq as [V Q]; simpl in *.
    destruct Q as [|current rest].
    + injection Hexit as <-. split; [done|]. intros [_ Hr].
      apply rtc_inv_r in Hr as [?|(y & Hy & Hye)]; [done|].
      apply (bfs_inv_done _ _ _ _ Hbfs) in Hy.
      destruct (Hend y); [done|apply not_elem_of_nil|done].
    + destruct (graph !! current) as [ns|] eqn:Ec; [|done].
      destruct (graphHasPath_neighbors end_ ns (V, rest)) as [|u] eqn:E; [done|].
      injection Hexit as <-. split; [|done]. intros _. split; [done|].
      apply graphHasPath_neighbors_inr in E.
      eapply rtc_r.
      * apply (bfs_inv_reach _ _ _ Hbfs), (bfs_inv_queue _ _ _ Hbfs). simpl. by left.
      * unfold edge. by rewrite (succs_Some _ _ _ Ec).
Qed.

(** *** [graphCountComponents] *)

Lemma component_step_continue graph (vq vq' : gset T * list T) :
  component_step graph vq = inl vq' →
  ∃ current rest, vq.2 = current :: rest
    ∧ vq' = foldl enqueue_unvisited (vq.1, rest) (succs graph current).
Proof.
  unfold component_step. destruct vq as [V Q]; simpl.
  destruct Q as [|current rest]; [done|]. intros Hstep.
  exists current, rest. split; [done|]. unfold succs.
  destruct (graph !! current); simpl; by injection Hstep as <-.
Qed.

Lemma component_step_measure graph (vq vq' : gset T * list T) :
  component_step graph vq = inl vq' →
  bfs_measure graph vq' < bfs_measure graph vq.
Proof.
  intros (current & rest & HQ & ->)%component_step_continue.
  destruct vq as [V Q]; simpl in *. subst Q. apply bfs_round_measure.
Qed.

Lemma component_search_total graph V x :
  ∃ V', iter (component_step graph) (loop_fuel graph) ({[x]} ∪ V, [x]) = Some V'.
Proof.
  apply (iter_terminates (λ _, True) (bfs_measure graph)).
  - intros vq vq' _ Hstep. split; [done|]. by apply component_step_measure.
  - done.
  - apply bfs_measure_bound.
Qed.

Lemma graphCountComponents_total (order : list T) graph :
  ∃ n, graphCountComponents order graph = Some n.
Proof.
  unfold graphCountComponents.
  assert (∀ vc, ∃ vc', foldM (component_visit graph) vc order = Some vc') as Hall.
  { induction order as [|vertex rest IH]; intros vc; simpl; [by eauto|].
    unfold component_visit at 1. case_decide.
    - destruct (component_search_total graph vc.1 vertex) as [V' ->]. apply IH.
    - apply IH. }
  destruct (Hall (∅, 0)) as [vc' ->]. by eauto.
Qed.

(** *** [graphIsBipartite] *)

Lemma bipartite_neighbors_inl current ns (c c' : gmap T Z) Q Q' :
  bipartite_neighbors current ns (c, Q) = inl (c', Q') →
  current ∈ dom c →
  (dom c', Q') = foldl enqueue_unvisited (dom c, Q) ns.
Proof.
  revert c Q. induction ns as [|n ns IH]; intros c Q; simpl.
  { by intros [= <- <-]. }
  intros Hstep Hcur. apply elem_of_dom in Hcur as [col Hcol].
  unfold color_at in Hstep. unfold enqueue_unvisited at 2. simpl in *.
  destruct (c !! n) as [cn|] eqn:En; simpl in Hstep.
  - rewrite Hcol in Hstep; simpl in Hstep. case_decide; [done|].
    rewrite decide_True by (apply elem_of_dom; eauto).
    apply IH; [done|]. apply elem_of_dom; eauto.
  - rewrite Hcol in Hstep; simpl in Hstep.
    rewrite decide_False by (by apply not_elem_of_dom).
    rewrite <- (dom_insert_L c n (1 - col)%Z). apply IH; [done|].
    rewrite dom_insert_L. apply elem_of_union_r, elem_of_dom; eauto.
Qed.

Lemma bipartite_step_inv graph (cq cq' : gmap T Z * list T) :
  bipartite_inv cq →
  bipartite_step graph cq = inl cq' →
  bipartite_inv cq'
  ∧ bfs_measure graph (dom cq'.1, cq'.2) < bfs_measure graph (dom cq.1, cq.2).
Proof.
  unfold bipartite_inv, bipartite_step. destruct cq as [c Q], cq' as [c' Q']; simpl.
  intros Hinv. destruct Q as [|current rest]; [done|]. intros Hstep.
  assert ((dom c', Q') = foldl enqueue_unvisited (dom c, rest) (succs graph current))
    as Heq.
  { unfold succs. destruct (graph !! current) as [ns|]; simpl.
    - destruct (bipartite_neighbors current ns (c, rest)) as [s'|] eqn:E; [|done].
      injection Hstep as ->. apply (bipartite_neighbors_inl _ _ _ _ _ _ E).
      apply Hinv. by left.
    - by injection Hstep as <- <-. }
  split.
  - destruct (fold_enqueue_queue (dom c) rest (succs graph current))
      as (new & HQ & _ & Hin).
    pose proof (fold_enqueue_visited (dom c) rest (succs graph current)) as HV.
    rewrite <- Heq in HQ, HV. simpl in HQ, HV. rewrite HQ, HV.
    intros x. rewrite elem_of_app, Hin, elem_of_union, elem_of_list_to_set.
    intros [?|[? _]]; [left|by right]. apply Hinv. by right.
  - rewrite Heq. apply bfs_round_measure.
Qed.

Lemma bipartite_search_total graph (color : gmap T Z) x :
  ∃ r, iter (bipartite_step graph) (loop_fuel graph) (<[x := 0%Z]> color, [x]) = Some r.
Proof.
  apply (iter_terminates bipartite_inv (λ cq, bfs_measure graph (dom cq.1, cq.2))).
  - apply bipartite_step_inv.
  - intros y ->%list_elem_of_singleton. simpl. rewrite dom_insert_L. set_solver.
  - apply bfs_measure_bound.
Qed.

Lemma graphIsBipartite_total (order : list T) graph :
  ∃ b, graphIsBipartite order graph = Some b.
Proof.
  unfold graphIsBipartite. generalize (∅ : gmap T Z).
  induction order as [|vertex rest IH]; intros color; simpl; [by eauto|].
  destruct (color !! vertex); [apply IH|].
  destruct (bipartite_search_total graph color vertex) as [[color'|] ->]; [apply IH|].
  by eauto.
Qed.

End analysers.

(** * Counting components *)

Section components.
Context {T : Type} `{Countable T}.
Implicit Types (graph : gmap T (list T)) (x y vertex : T) (V : gset T)
  (roots order : list T).

Lemma comp_inv_round graph V0 vertex V current rest :
  comp_inv graph V0 vertex (V, current :: rest) →
  comp_inv graph V0 vertex (foldl enqueue_unvisited (V, rest) (succs graph current)).
Proof.
  intros [Hq Hb Hs Hr Hc]; simpl in *.
  destruct (fold_enqueue_queue V rest (succs graph current)) as (new & HQ & _ & Hnew).
  pose proof (fold_enqueue_visited V rest (succs graph current)) as HV.
  destruct (Hq current) as [HcurV Hcur]; [by left|].
  split; rewrite ?HQ, ?HV.
  - intros x. rewrite elem_of_app, Hnew, elem_of_union, elem_of_list_to_set.
    intros [Hx|[Hx _]].
    + destruct (Hq x) as [? ?]; [by right|]. auto.
    + split; [by right|]. by eapply rtc_r.
  - set_solver.
  - set_solver.
  - intros x. rewrite elem_of_union, elem_of_list_to_set. intros [?|Hx]; [by auto|].
    right. by eapply rtc_r.
  - intros x y. rewrite !elem_of_union, !elem_of_list_to_set, elem_of_app, Hnew.
    intros Hx Hnx Hy.
    destruct (decide (x = current)) as [->|Hne]; [by right|].
    destruct (decide (x ∈ V)) as [HxV|HxV]; [|tauto].
    left. eapply Hc; [done| |done]. rewrite elem_of_cons. tauto.
Qed.

(** The marking loop started at an unmarked [vertex] on top of a closed
    set [V0] returns [V0] extended by everything reachable from [vertex]. *)
Lemma component_search_spec graph V0 vertex :
  (∀ x y, x ∈ V0 → y ∈ succs graph x → y ∈ V0) →
  ∃ V', iter (component_step graph) (loop_fuel graph) ({[vertex]} ∪ V0, [vertex])
          = Some V'
        ∧ (∀ x y, x ∈ V' → y ∈ succs graph x → y ∈ V')
        ∧ (∀ x, x ∈ V' ↔ x ∈ V0 ∨ reachable graph vertex x).
Proof.
  intros Hclosed.
  destruct (iter_total (comp_inv graph V0 vertex) (bfs_measure graph)
              (component_step graph) (loop_fuel graph) ({[vertex]} ∪ V0, [vertex]))
    as (vq & V' & HV' & [Hq Hb Hs Hr Hc] & Hexit).
  - intros vq vq' Hinv Hstep. split; [|by apply component_step_measure].
    apply component_step_continue in Hstep as (current & rest & HQ & ->).
    destruct vq as [V Q]; simpl in *. subst Q. by apply comp_inv_round.
  - split; simpl.
    + intros x ->%list_elem_of_singleton. split; [set_solver|apply rtc_refl].
    + set_solver.
    + set_solver.
    + intros x [->%elem_of_singleton|?]%elem_of_union; [right; apply rtc_refl|by left].
    + intros x y [->%elem_of_singleton|Hx]%elem_of_union Hnq Hy.
      * destruct Hnq. by left.
      * apply elem_of_union_r. by eapply Hclosed.
  - apply bfs_measure_bound.
  - exists V'. split; [done|].
    unfold component_step in Hexit. destruct vq as [V Q]; simpl in *.
    destruct Q as [|current rest]; [|by destruct (graph !! current)].
    injection Hexit as <-. split.
    + intros x y Hx Hy. eapply Hc; [done|apply not_elem_of_nil|done].
    + intros x. split; [apply Hr|]. intros [Hx|Hx]; [by apply Hb|].
      revert x Hx. apply (rtc_ind_r (λ x, x ∈ V) vertex); [done|].
      intros y z _ Hyz Hy. eapply Hc; [done|apply not_elem_of_nil|done].
Qed.

Lemma roots_inv_empty graph : roots_inv graph ∅ [].
Proof.
  split; simpl; [set_solver| |done].
  intros x. split; [set_solver|]. by intros (r & ?%elem_of_nil & _).
Qed.

Lemma component_fold_spec graph order V roots :
  roots_inv graph V roots →
  ∃ V' roots',
    foldM (component_visit graph) (V, length roots) order = Some (V', length roots')
    ∧ roots_inv graph V' roots'
    ∧ (∀ k, k ∈ V ∨ k ∈ order → k ∈ V')
    ∧ (∀ r, r ∈ roots' → r ∈ roots ∨ r ∈ order).
Proof.
  revert V roots. induction order as [|vertex rest IH]; intros V roots Hinv; simpl.
  { exists V, roots. split; [done|]. split; [done|]. split; [|by auto].
    intros k [?|?%elem_of_nil]; done. }
  unfold component_visit at 1; simpl. destruct (decide (vertex ∉ V)) as [Hv|Hv].
  - destruct Hinv as [Hcl Hre Hin].
    destruct (component_search_spec graph V vertex Hcl) as (V1 & -> & Hcl1 & HV1).
    destruct (IH V1 (vertex :: roots)) as (V' & roots' & Hfold & Hinv' & Hk & Hr).
    { split; [done| |].
      - intros x. rewrite HV1, Hre. split.
        + intros [(r & ? & ?)|?]; [exists r|exists vertex]; set_solver.
        + intros (r & [->|?]%elem_of_cons & ?); [by right|left; by exists r].
      - split; [|done]. intros r' Hr' Hreach. apply Hv, Hre. eauto. }
    exists V', roots'. split; [done|]. split; [done|]. split.
    + intros k [Hk1|[->|Hk2]%elem_of_cons]; apply Hk.
      * left. apply HV1. by left.
      * left. apply HV1. right. apply rtc_refl.
      * by right.
    + intros r [[->|?]%elem_of_cons|?]%Hr; set_solver.
  - apply dec_stable in Hv.
    destruct (IH V roots Hinv) as (V' & roots' & -> & Hinv' & Hk & Hr).
    exists V', roots'. split; [done|]. split; [done|]. split.
    + intros k [Hk1|[->|Hk2]%elem_of_cons]; apply Hk; auto.
    + intros r [?|?]%Hr; set_solver.
Qed.

(** What [graphCountComponents] counts, for every mapping and every
    enumeration: the vertices at which a search was started.  Every
    enumerated vertex is reachable from one of them, and none of them is
    reachable from one that was started earlier. *)
Lemma graphCountComponents_roots order graph :
  ∃ roots,
    graphCountComponents order graph = Some (length roots)
    ∧ (∀ r, r ∈ roots → r ∈ order)
    ∧ (∀ k, k ∈ order → ∃ r, r ∈ roots ∧ reachable graph r k)
    ∧ independent graph roots.
Proof.
  unfold graphCountComponents.
  destruct (component_fold_spec graph order ∅ [] (roots_inv_empty graph))
    as (V' & roots & Hfold & [Hcl Hre Hin] & Hk & Hr).
  simpl in Hfold. rewrite Hfold. exists roots. split; [done|]. split.
  - intros r [?%elem_of_nil|?]%Hr; done.
  - split; [|done]. intros k Hko. apply Hre, Hk. by right.
Qed.

Lemma independent_lookup graph roots i j r r' :
  independent graph roots → roots !! i = Some r → roots !! j = Some r' → i < j →
  ¬ reachable graph r' r.
Proof.
  revert i j. induction roots as [|r0 roots IH]; intros i j; [done|].
  intros [Hnew Hold] Hi Hj Hlt. destruct j as [|j]; [lia|]. destruct i as [|i].
  - injection Hi as ->. apply Hnew. by eapply list_elem_of_lookup_2.
  - eapply (IH i j); [done..|lia].
Qed.

Lemma symmetric_connected graph x y :
  symmetric graph → connected graph x y → reachable graph x y.
Proof.
  intros Hsym. induction 1 as [|x y z [Hxy|Hyx] _ IH]; [apply rtc_refl| |].
  - by eapply rtc_l.
  - eapply rtc_l; [|done]. by apply Hsym.
Qed.

Lemma symmetric_reachable_sym graph x y :
  symmetric graph → reachable graph x y → reachable graph y x.
Proof.
  intros Hsym. induction 1 as [|x y z Hxy _ IH]; [apply rtc_refl|].
  eapply rtc_r; [done|]. by apply Hsym.
Qed.

Lemma reachable_connected graph x y : reachable graph x y → connected graph x y.
Proof. apply rtc_subrel. intros ???. by left. Qed.

(** On a mapping that lists every neighbour relation in both directions,
    [graphCountComponents] returns the number of connected components,
    whatever the enumeration of the keys. *)
Lemma graphCountComponents_symmetric order graph :
  order ≡ₚ elements (dom graph) →
  symmetric graph →
  ∃ n, graphCountComponents order graph = Some n ∧ component_count graph n.
Proof.
  intros Hperm Hsym.
  destruct (graphCountComponents_roots order graph) as (roots & -> & Hro & Hk & Hin).
  exists (length roots). split; [done|]. exists roots. split; [done|].
  assert (∀ k, k ∈ order ↔ is_Some (graph !! k)) as Hkeys.
  { intros k. by rewrite Hperm, elem_of_elements, elem_of_dom. }
  split; [|split].
  - intros r Hr. by apply Hkeys, Hro.
  - intros k Hkk%Hkeys. destruct (Hk k Hkk) as (r & ? & ?). exists r.
    split; [done|]. by apply reachable_connected.
  - intros i j r r' Hi Hj Hc.
    apply (symmetric_connected _ _ _ Hsym) in Hc.
    destruct (Nat.lt_trichotomy i j) as [Hlt|[->|Hlt]]; [|done|].
    + destruct (independent_lookup _ _ _ _ _ _ Hin Hi Hj Hlt).
      by apply symmetric_reachable_sym.
    + by destruct (independent_lookup _ _ _ _ _ _ Hin Hj Hi Hlt).
Qed.

Lemma connected_sym graph x y : connected graph x y → connected graph y x.
Proof.
  induction 1 as [|x y z Hxy _ IH]; [apply rtc_refl|].
  eapply rtc_r; [done|]. destruct Hxy; [by right|by left].
Qed.

(** Pairwise unconnected nodes, each connected to a member of [targets],
    are at most as many as [targets]. *)
Lemma representatives_length graph (reps targets : list T) :
  (∀ i j r r', reps !! i = Some r → reps !! j = Some r' →
               connected graph r r' → i = j) →
  (∀ r, r ∈ reps → ∃ t, t ∈ targets ∧ connected graph t r) →
  length reps ≤ length targets.
Proof.
  revert targets. induction reps as [|r reps IH]; intros targets Hinj Hcov; simpl.
  { lia. }
  destruct (Hcov r) as (t & Ht & Htr); [by left|].
  apply list_elem_of_split in Ht as (l1 & l2 & ->).
  rewrite length_app; simpl.
  assert (length reps ≤ length (l1 ++ l2)) as Hle.
  { apply IH.
    - intros i j a b Hi Hj Hab.
      assert (S i = S j) by (by apply (Hinj (S i) (S j) a b)). lia.
    - intros a Ha. destruct (Hcov a) as (t' & Ht' & Hta); [by right|].
      exists t'. split; [|done].
      rewrite elem_of_app in Ht' |- *. rewrite elem_of_cons in Ht'.
      destruct Ht' as [?|[->|?]]; [by left| |by right].
      apply list_elem_of_lookup in Ha as [i Hi].
      assert (0 = S i); [|lia].
      apply (Hinj 0 (S i) r a); [done|done|].
      etrans; [apply connected_sym, Htr|done]. }
  rewrite length_app in Hle. lia.
Qed.

(** The number of components is determined by the mapping. *)
Lemma component_count_unique graph n n' :
  component_count graph n → component_count graph n' → n = n'.
Proof.
  intros (reps & <- & Hk & Hc & Hi) (reps' & <- & Hk' & Hc' & Hi').
  apply Nat.le_antisymm; eapply representatives_length; eauto.
Qed.

End components.

(** * Concrete mappings, and the queries as a whole *)

Lemma diamond_path : is_path diamond "A"%string "D"%string ["A"; "C"; "D"]%string.
Proof.
  split; [reflexivity|]. split; [reflexivity|].
  intros [|[|[|i]]] x y Hx Hy; simpl in *; simplify_eq; vm_compute; repeat constructor.
Qed.

Lemma one_chain_unreachable : ¬ reachable one_chain 2 1.
Proof.
  intros [?|(y & Hy & _)]%rtc_inv; [done|].
  unfold edge in Hy. replace (succs one_chain 2) with (@nil nat) in Hy by (by vm_compute).
  by apply elem_of_nil in Hy.
Qed.

(** A start that is not a key, a target that cannot be reached, a start
    that is its own target, and the specification's example: a three-node
    path from A to D. *)
Lemma graphShortestPath_spec_witness :
  (one_chain !! 5 = None ∧ graphShortestPath 0 one_chain 5 1 = Some [])
  ∧ (one_chain !! 2 ≠ None
     ∧ (¬ ∃ p, is_path one_chain 2 1 p)
     ∧ graphShortestPath 0 one_chain 2 1 = Some [])
  ∧ (one_chain !! 1 ≠ None ∧ graphShortestPath 0 one_chain 1 1 = Some [1])
  ∧ (diamond !! "A"%string ≠ None
     ∧ (∃ p, is_path diamond "A"%string "D"%string p)
     ∧ graphShortestPath ""%string diamond "A"%string "D"%string
       = Some ["A"; "B"; "D"]%string
     ∧ is_path diamond "A"%string "D"%string ["A"; "B"; "D"]%string
     ∧ ∀ p, is_path diamond "A"%string "D"%string p → 3 ≤ length p).
Proof.
  assert (¬ ∃ p, is_path one_chain 2 1 p) as Hno.
  { intros [p Hp]. apply one_chain_unreachable. by eapply is_path_reachable. }
  split; [|split; [|split]].
  - split; [reflexivity|].
    destruct (graphShortestPath_spec 0 one_chain 5 1) as (Habsent & _).
    apply Habsent. reflexivity.
  - split; [by vm_compute|]. split; [exact Hno|].
    destruct (graphShortestPath_spec 0 one_chain 2 1) as (_ & Hnone & _).
    apply Hnone; [by vm_compute|exact Hno].
  - split; [by vm_compute|].
    destruct (graphShortestPath_spec 0 one_chain 1 1) as (_ & _ & Hsame & _).
    apply Hsame; [by vm_compute|reflexivity].
  - split; [by vm_compute|].
    split; [exists ["A"; "C"; "D"]%string; apply diamond_path|].
    destruct (graphShortestPath_spec ""%string diamond "A"%string "D"%string)
      as (_ & _ & _ & Hfound).
    destruct Hfound as (r & Hr & Hp & Hmin);
      [by vm_compute|exists ["A"; "C"; "D"]%string; apply diamond_path|].
    vm_compute in Hr. injection Hr as <-. done.
Defined.

Lemma one_chain_keys k : is_Some (one_chain !! k) → k = 1 ∨ k = 2.
Proof.
  intros Hk%elem_of_dom.
  assert (dom one_chain = {[1; 2]}) as Hd by (by vm_compute).
  rewrite Hd in Hk. set_solver.
Qed.

Lemma one_chain_connected a b :
  a = 1 ∨ a = 2 → b = 1 ∨ b = 2 → connected one_chain a b.
Proof.
  assert (edge one_chain 1 2) as He by (vm_compute; repeat constructor).
  intros [-> | ->] [-> | ->]; try apply rtc_refl; apply rtc_once; [by left|by right].
Qed.

Lemma one_chain_component_count :
  component_count one_chain 1 ∧ ¬ component_count one_chain 2.
Proof.
  assert (component_count one_chain 1) as H1.
  { exists [1]. split; [done|]. split; [|split].
    - intros r ->%list_elem_of_singleton. by vm_compute; eauto.
    - intros k Hk%one_chain_keys. exists 1. split; [by left|].
      apply one_chain_connected; auto.
    - intros [|i] [|j] r r' Hi Hj _; simpl in *; done. }
  split; [done|]. intros H2.
  pose proof (component_count_unique _ _ _ H1 H2). lia.
Qed.

Lemma two_chains_sym_edge x y :
  edge two_chains_sym x y →
  (x = 1 ∧ y = 2) ∨ (x = 2 ∧ y = 1) ∨ (x = 3 ∧ y = 4) ∨ (x = 4 ∧ y = 3).
Proof.
  unfold edge, succs. intros Hy.
  destruct (two_chains_sym !! x) as [l|] eqn:Hx; [|by apply elem_of_nil in Hy].
  assert (x ∈ dom two_chains_sym) as Hd by (apply elem_of_dom; eauto).
  assert (dom two_chains_sym = {[1; 2; 3; 4]}) as Hdom by (by vm_compute).
  rewrite Hdom in Hd.
  assert (x = 1 ∨ x = 2 ∨ x = 3 ∨ x = 4) as [-> | [-> | [-> | ->]]] by set_solver;
    vm_compute in Hx; injection Hx as <-; simpl in Hy;
    apply list_elem_of_singleton in Hy; auto.
Qed.

Lemma two_chains_sym_symmetric : symmetric two_chains_sym.
Proof.
  intros x y Hxy. change (edge two_chains_sym y x).
  destruct (two_chains_sym_edge x y Hxy) as [[-> ->] | [[-> ->] | [[-> ->] | [-> ->]]]];
    vm_compute; repeat constructor.
Qed.

Lemma two_chains_sym_connected x y :
  connected two_chains_sym x y → (x = 1 ∨ x = 2) ↔ (y = 1 ∨ y = 2).
Proof.
  induction 1 as [|x y z Hxy _ IH]; [done|]. rewrite <- IH.
  destruct Hxy as [Hxy|Hxy]; apply two_chains_sym_edge in Hxy; lia.
Qed.

Lemma two_chains_sym_component_count : component_count two_chains_sym 2.
Proof.
  assert (edge two_chains_sym 1 2) as H12 by (vm_compute; repeat constructor).
  assert (edge two_chains_sym 3 4) as H34 by (vm_compute; repeat constructor).
  exists [1; 3]. split; [done|]. split; [|split].
  - intros r [->|[->|?%elem_of_nil]%elem_of_cons]%elem_of_cons;
      [by vm_compute; eauto|by vm_compute; eauto|done].
  - intros k Hk%elem_of_dom.
    assert (dom two_chains_sym = {[1; 2; 3; 4]}) as Hdom by (by vm_compute).
    rewrite Hdom in Hk.
    assert (k = 1 ∨ k = 2 ∨ k = 3 ∨ k = 4) as [-> | [-> | [-> | ->]]] by set_solver.
    + exists 1. split; [set_solver|apply rtc_refl].
    + exists 1. split; [set_solver|]. apply rtc_once. by left.
    + exists 3. split; [set_solver|apply rtc_refl].
    + exists 3. split; [set_solver|]. apply rtc_once. by left.
  - intros [|[|i]] [|[|j]] r r' Hi Hj Hc; simpl in *; simplify_eq; try done;
      apply two_chains_sym_connected in Hc; lia.
Qed.

(** On two disjoint two-node chains given with both directions of every
    edge, [graphCountComponents] returns 2 for every enumeration. *)
Lemma two_chains_sym_count (order : list nat) :
  order ≡ₚ elements (dom two_chains_sym) →
  graphCountComponents order two_chains_sym = Some 2.
Proof.
  intros Hp.
  destruct (graphCountComponents_symmetric order two_chains_sym Hp
              two_chains_sym_symmetric) as (n & -> & Hn).
  f_equal. eapply component_count_unique; [done|].
  apply two_chains_sym_component_count.
Qed.

(** C5: the count depends on the order in which the hash table enumerates
    its keys.  On the single directed chain [{1: [2], 2: []}], which has
    one connected component, the enumeration 1, 2 gives 1 and the
    enumeration 2, 1 gives 2; two disjoint directed chains give 4 instead
    of 2, and the changelog's example mapping gives 4 instead of the
    documented 1 when enumerated as D, C, B, A. *)
Theorem graphCountComponents_enumeration_dependent :
  [1; 2] ≡ₚ elements (dom one_chain)
  ∧ [2; 1] ≡ₚ elements (dom one_chain)
  ∧ graphCountComponents [1; 2] one_chain = Some 1
  ∧ graphCountComponents [2; 1] one_chain = Some 2
  ∧ component_count one_chain 1
  ∧ ¬ component_count one_chain 2
  ∧ [2; 1; 4; 3] ≡ₚ elements (dom two_chains)
  ∧ graphCountComponents [2; 1; 4; 3] two_chains = Some 4
  ∧ ["D"; "C"; "B"; "A"]%string ≡ₚ elements (dom diamond)
  ∧ graphCountComponents ["D"; "C"; "B"; "A"]%string diamond = Some 4.
Proof.
  assert (elements (dom one_chain) = [2; 1]) as -> by (by vm_compute).
  assert (elements (dom two_chains) = [4; 2; 3; 1]) as -> by (by vm_compute).
  assert (Permutation ["D"; "C"; "B"; "A"]%string (elements (dom diamond))) as Hd.
  { apply NoDup_Permutation.
    - repeat (constructor; [set_solver|]). constructor.
    - apply NoDup_elements.
    - intros x. rewrite elem_of_elements. unfold diamond. set_solver. }
  split; [solve_Permutation|]. split; [solve_Permutation|].
  split; [by vm_compute|]. split; [by vm_compute|].
  split; [apply one_chain_component_count|]. split; [apply one_chain_component_count|].
  split; [solve_Permutation|]. split; [by vm_compute|].
  split; [done|]. by vm_compute.
Qed.

Section totality.
Context {T : Type} `{Countable T} (T_default : T).

(** The two whole-mapping analysers on the empty mapping: no component,
    and a (vacuously) two-colourable graph. *)
Lemma whole_mapping_analysers_empty :
  graphCountComponents [] (∅ : gmap T (list T)) = Some 0
  ∧ graphIsBipartite [] (∅ : gmap T (list T)) = Some true.
Proof. done. Qed.

(** C8: every query and traversal returns a value on every input: no
    operation in their bodies can fail, and the loops and the recursions
    end.  An absent atom has no neighbours, an empty traversal and no
    path; a start node that is not a key, an unreachable target and the
    empty mapping give [false] and the empty path. *)
Theorem queries_total (ops : list (op T)) (order : list T)
    (graph : gmap T (list T)) (a b : T) :
  ((∃ r, bfs (run ops) a = Some r)
   ∧ (∃ r, dfs (run ops) a = Some r)
   ∧ (∃ r, hasPath (run ops) a b = Some r)
   ∧ (∃ r, isConnected order (run ops) = Some r)
   ∧ (∃ r, hasCycle T_default order (run ops) = Some r)
   ∧ (∃ r, graphHasPath graph a b = Some r)
   ∧ (∃ r, graphShortestPath T_default graph a b = Some r)
   ∧ (∃ r, graphCountComponents order graph = Some r)
   ∧ (∃ r, graphIsBipartite order graph = Some r))
  ∧ (hasAtom (run ops) a = false →
     neighbors (run ops) a = [] ∧ bfs (run ops) a = Some []
     ∧ dfs (run ops) a = Some []
     ∧ hasPath (run ops) a b = Some false ∧ hasPath (run ops) b a = Some false)
  ∧ (¬ reachable (adjacency (run ops)) a b → hasPath (run ops) a b = Some false)
  ∧ (graph !! a = None →
     graphHasPath graph a b = Some false
     ∧ graphShortestPath T_default graph a b = Some [])
  ∧ (¬ reachable graph a b →
     graphHasPath graph a b = Some false
     ∧ graphShortestPath T_default graph a b = Some [])
  ∧ (graphHasPath ∅ a b = Some false
     ∧ graphShortestPath T_default ∅ a b = Some []).
Proof.
  pose proof (run_wf ops) as Hwf.
  destruct (hasPath_cases (run ops) a b) as (bp & Hbp & Hbp').
  destruct (hasPath_cases (run ops) b a) as (bq & Hbq & Hbq').
  destruct (graphShortestPath_cases T_default graph a b) as (rs & Hrs & Hrs').
  destruct (graphHasPath_spec graph a b) as (bh & Hbh & Hbh').
  split; [repeat apply conj|].
  - destruct (hasAtom (run ops) a) eqn:Ha.
    + destruct (bfs_present _ _ Ha) as (r & ? & _). by exists r.
    + rewrite bfs_absent by done. by eexists.
  - destruct (hasAtom (run ops) a) eqn:Ha.
    + destruct (dfs_present _ _ Ha) as (r & ? & _). by exists r.
    + rewrite dfs_absent by done. by eexists.
  - by exists bp.
  - apply isConnected_total.
  - destruct (hasCycle_total T_default order (run ops)) as (r & ? & _). by exists r.
  - by exists bh.
  - by exists rs.
  - apply graphCountComponents_total.
  - apply graphIsBipartite_total.
  - split; [|split; [|split; [|split]]].
    + intros Ha. split; [|split; [by apply bfs_absent|split; [by apply dfs_absent|]]].
      * unfold neighbors. destruct (adjacency (run ops) !! a) eqn:E; [|done].
        assert (a ∈ atoms (run ops)) as Hin.
        { rewrite <- (wf_dom _ Hwf). apply elem_of_dom. eauto. }
        apply hasAtom_true in Hin. congruence.
      * rewrite Hbp, Hbq. split; f_equal.
        -- destruct bp; [|done]. destruct Hbp' as [Hx _].
           destruct (Hx eq_refl) as (? & _). congruence.
        -- destruct bq; [|done]. destruct Hbq' as [Hx _].
           destruct (Hx eq_refl) as (_ & ? & _). congruence.
    + intros Hnr. rewrite Hbp. f_equal. destruct bp; [|done].
      destruct Hbp' as [Hx _]. destruct (Hx eq_refl) as (_ & _ & ?). done.
    + intros Ha. split.
      * rewrite Hbh. f_equal. destruct bh; [|done]. by destruct Hbh' as [[? _] _].
      * rewrite Hrs. f_equal. destruct Hrs' as [[-> _]|[? _]]; done.
    + intros Hnr. split.
      * rewrite Hbh. f_equal. destruct bh; [|done]. by destruct Hbh' as [[_ ?] _].
      * rewrite Hrs. f_equal. destruct Hrs' as [[-> _]|(_ & Hp & _)]; [done|].
        destruct Hnr. by eapply is_path_reachable.
    + split.
      * unfold graphHasPath. by rewrite lookup_empty, decide_True.
      * unfold graphShortestPath. by rewrite lookup_empty, decide_True.
Qed.

End totality.

Lemma queries_total_witness :
  (hasAtom (run [OpAddBond 1 2 ARROW]) 3 = false
   ∧ neighbors (run [OpAddBond 1 2 ARROW]) 3 = []
   ∧ bfs (run [OpAddBond 1 2 ARROW]) 3 = Some []
   ∧ dfs (run [OpAddBond 1 2 ARROW]) 3 = Some []
   ∧ hasPath (run [OpAddBond 1 2 ARROW]) 3 1 = Some false
   ∧ hasPath (run [OpAddBond 1 2 ARROW]) 1 3 = Some false)
  ∧ (¬ reachable (adjacency (run [OpAddBond 1 2 ARROW])) 2 1
     ∧ hasPath (run [OpAddBond 1 2 ARROW]) 2 1 = Some false)
  ∧ (one_chain !! 5 = None
     ∧ graphHasPath one_chain 5 1 = Some false
     ∧ graphShortestPath 0 one_chain 5 1 = Some [])
  ∧ (¬ reachable one_chain 2 1
     ∧ graphHasPath one_chain 2 1 = Some false
     ∧ graphShortestPath 0 one_chain 2 1 = Some []).
Proof.
  assert (adjacency (run [OpAddBond 1 2 ARROW]) = one_chain) as Hadj by (by vm_compute).
  split; [|split; [|split]].
  - split; [reflexivity|].
    destruct (queries_total 0 [OpAddBond 1 2 ARROW] [] ∅ 3 1) as (_ & Habsent & _).
    apply Habsent. reflexivity.
  - rewrite Hadj. split; [exact one_chain_unreachable|].
    destruct (queries_total 0 [OpAddBond 1 2 ARROW] [] ∅ 2 1) as (_ & _ & Hnopath & _).
    apply Hnopath. rewrite Hadj. exact one_chain_unreachable.
  - split; [reflexivity|].
    destruct (queries_total 0 [] [] one_chain 5 1) as (_ & _ & _ & Hnokey & _).
    apply Hnokey. reflexivity.
  - split; [exact one_chain_unreachable|].
    destruct (queries_total 0 [] [] one_chain 2 1) as (_ & _ & _ & _ & Hunreach & _).
    apply Hunreach. exact one_chain_unreachable.
Defined.

(** * The bond list and the adjacency lists *)

Section structure.
Context {T : Type} `{Countable T}.
Implicit Types (m : Molecule T) (a b x y : T) (k : BondType).

Lemma run_snoc (ops : list (op T)) o : run (ops ++ [o]) = apply_op (run ops) o.
Proof. unfold run. by rewrite foldl_app. Qed.

(** Induction over the states that a history can reach. *)
Lemma run_ind (P : Molecule T → Prop) :
  P Molecule_new →
  (∀ m o, wf m → P m → P (apply_op m o)) →
  ∀ ops, P (run ops).
Proof.
  intros Hnew Hstep ops. induction ops as [|o ops IH] using rev_ind; [done|].
  rewrite run_snoc. apply Hstep; [apply run_wf|done].
Qed.

Lemma addBond_bonds_fresh m a b k :
  hasBond m a b k = false → bonds (addBond m a b k) = bonds m ++ [mkBond a b k].
Proof. intros Hf. rewrite addBond_fresh by done. simpl. by rewrite !addAtom_bonds. Qed.

Lemma run_bonds_NoDup (ops : list (op T)) : NoDup (bonds (run ops)).
Proof.
  apply (run_ind (λ m, NoDup (bonds m))); [apply NoDup_nil_2|].
  intros m [a|a b k|] Hwf Hnd; simpl.
  - by rewrite addAtom_bonds.
  - destruct (hasBond m a b k) eqn:Hb.
    + by rewrite addBond_idem_wf.
    + rewrite addBond_bonds_fresh by done. apply NoDup_app. split; [done|]. split.
      * intros bd Hbd ->%list_elem_of_singleton. by apply hasBond_false in Hb.
      * apply NoDup_singleton.
  - apply NoDup_nil_2.
Qed.

Lemma run_neighbors_bonds (ops : list (op T)) x :
  neighbors (run ops) x = bonds (run ops) ≫= bond_entries x.
Proof.
  revert x.
  apply (run_ind (λ m, ∀ x, neighbors m x = bonds m ≫= bond_entries x)); [done|].
  intros m [a|a b k|] Hwf IH x; simpl.
  - by rewrite addAtom_neighbors, addAtom_bonds.
  - destruct (hasBond m a b k) eqn:Hb.
    + by rewrite addBond_idem_wf.
    + rewrite addBond_neighbors_fresh, addBond_bonds_fresh by done.
      rewrite bind_app, IH. simpl. unfold bond_entries at 2; simpl.
      by rewrite app_nil_r.
  - done.
Qed.

Lemma elem_of_bond_entries x y (bd : MoleculeBond T) :
  y ∈ bond_entries x bd ↔
    (bond_from bd = x ∧ bond_to bd = y)
    ∨ (bond_to bd = x ∧ bond_from bd = y ∧ bond_type bd ≠ ARROW).
Proof.
  unfold bond_entries. rewrite elem_of_app.
  destruct bd as [f t k]; simpl.
  repeat case_decide; destruct k; simpl;
    rewrite ?elem_of_nil, ?list_elem_of_singleton; naive_solver.
Qed.

Lemma run_elem_of_neighbors (ops : list (op T)) x y :
  y ∈ neighbors (run ops) x ↔
    ∃ k, mkBond x y k ∈ bonds (run ops)
         ∨ (k ≠ ARROW ∧ mkBond y x k ∈ bonds (run ops)).
Proof.
  rewrite run_neighbors_bonds, list_elem_of_bind. split.
  - intros ([f t k] & Hy & Hin). apply elem_of_bond_entries in Hy. simpl in Hy.
    destruct Hy as [[<- <-]|(<- & <- & Hk)]; exists k; auto.
  - intros [k [Hin|[Hk Hin]]]; eexists; (split; [|exact Hin]);
      apply elem_of_bond_entries; simpl; auto.
Qed.

(** X1: in every state reached from the empty graph the bond list holds
    no (from, to, type) triple twice; adding a triple that is not stored
    makes bondCount grow by exactly one and keeps the list duplicate-free. *)
Theorem bonds_distinct (ops : list (op T)) a b k :
  NoDup (bonds (run ops))
  ∧ (hasBond (run ops) a b k = false →
     bondCount (addBond (run ops) a b k) = S (bondCount (run ops))
     ∧ NoDup (bonds (addBond (run ops) a b k))).
Proof.
  split; [apply run_bonds_NoDup|]. intros Hb. split.
  - unfold bondCount. rewrite addBond_bonds_fresh by done.
    rewrite length_app. simpl. lia.
  - change (addBond (run ops) a b k) with (apply_op (run ops) (OpAddBond a b k)).
    rewrite <- run_snoc. apply run_bonds_NoDup.
Qed.

(** X2: in every reachable state the neighbour list of [x] is exactly
    what the stored bonds contribute, bond by bond in insertion order: the
    target of each bond that starts at [x], then the source of each
    non-ARROW bond that ends at [x].  So [y] is a neighbour of [x] exactly
    when a bond (x, y, k) is stored, or a bond (y, x, k) with k other than
    ARROW. *)
Theorem neighbors_from_bonds (ops : list (op T)) x :
  neighbors (run ops) x = bonds (run ops) ≫= bond_entries x
  ∧ ∀ y, y ∈ neighbors (run ops) x ↔
         ∃ k, hasBond (run ops) x y k = true
              ∨ (k ≠ ARROW ∧ hasBond (run ops) y x k = true).
Proof.
  split; [apply run_neighbors_bonds|]. intros y.
  rewrite run_elem_of_neighbors. by setoid_rewrite hasBond_true.
Qed.

(** *** Growth *)

Lemma addAtom_extends m a x :
  atoms m ⊆ atoms (addAtom m a)
  ∧ bonds (addAtom m a) = bonds m
  ∧ neighbors (addAtom m a) x = neighbors m x.
Proof.
  rewrite addAtom_atoms, addAtom_bonds, addAtom_neighbors. set_solver.
Qed.

Lemma addBond_extends m a b k x :
  atoms m ⊆ atoms (addBond m a b k)
  ∧ bonds m `prefix_of` bonds (addBond m a b k)
  ∧ neighbors m x `prefix_of` neighbors (addBond m a b k) x.
Proof.
  split; [rewrite addBond_atoms; set_solver|].
  destruct (hasBond m a b k) eqn:Hb.
  - rewrite addBond_dup by done. by rewrite !addAtom_bonds, !addAtom_neighbors.
  - rewrite addBond_bonds_fresh, addBond_neighbors_fresh by done.
    split; by eexists.
Qed.

Lemma apply_op_extends m o x :
  o ≠ OpClear →
  atoms m ⊆ atoms (apply_op m o)
  ∧ bonds m `prefix_of` bonds (apply_op m o)
  ∧ neighbors m x `prefix_of` neighbors (apply_op m o) x.
Proof.
  destruct o as [a|a b k|]; simpl; intros Ho; [|apply addBond_extends|done].
  destruct (addAtom_extends m a x) as (? & -> & ->). done.
Qed.

Lemma reachable_mono (graph graph' : gmap T (list T)) x y :
  (∀ z, succs graph z ⊆ succs graph' z) →
  reachable graph x y → reachable graph' x y.
Proof.
  intros Hsub. induction 1 as [|x y z Hxy _ IH]; [apply rtc_refl|].
  eapply rtc_l; [|done]. by apply Hsub, Hxy.
Qed.

(** Nodes reached from an atom are atoms. *)
Lemma reachable_atoms m x y :
  wf m → x ∈ atoms m → reachable (adjacency m) x y → y ∈ atoms m.
Proof.
  intros Hwf Hx Hr. revert Hx.
  induction Hr as [|x y z Hxy _ IH]; [done|]. intros Hx. apply IH.
  unfold edge in Hxy. rewrite <- neighbors_succs in Hxy. apply elem_of_neighbors in Hxy as (l & Hl & Hy).
  by eapply wf_adj.
Qed.

(** X3: [addAtom] and [addBond] only ever add: the atoms stay, the bond
    list and every neighbour list are extended at their end, the atom
    count grows by at most two and the bond count by at most one. *)
Theorem mutators_only_extend m (o : op T) x :
  o ≠ OpClear →
  atoms m ⊆ atoms (apply_op m o)
  ∧ bonds m `prefix_of` bonds (apply_op m o)
  ∧ neighbors m x `prefix_of` neighbors (apply_op m o) x
  ∧ atomCount m ≤ atomCount (apply_op m o) ≤ atomCount m + 2
  ∧ bondCount m ≤ bondCount (apply_op m o) ≤ bondCount m + 1.
Proof.
  intros Ho. destruct (apply_op_extends m o x Ho) as (Ha & Hb & Hn).
  split; [done|]. split; [done|]. split; [done|].
  unfold atomCount, bondCount. split.
  - split; [by apply subseteq_size|].
    destruct o as [a|a b k|]; simpl; [| |done].
    + rewrite addAtom_atoms.
      pose proof (size_union_alt (C:=gset T) {[a]} (atoms m)) as Hsz.
      pose proof (subseteq_size (C:=gset T) (atoms m ∖ {[a]}) (atoms m)) as Hle.
      rewrite size_singleton in Hsz. rewrite Hsz.
      assert (size (atoms m ∖ {[a]}) ≤ size (atoms m)) by (apply Hle; set_solver).
      lia.
    + rewrite addBond_atoms.
      pose proof (size_union_alt (C:=gset T) {[a; b]} (atoms m)) as Hsz.
      pose proof (subseteq_size (C:=gset T) (atoms m ∖ {[a; b]}) (atoms m)) as Hle.
      assert (size (atoms m ∖ {[a; b]}) ≤ size (atoms m)) by (apply Hle; set_solver).
      assert (size ({[a; b]} : gset T) ≤ 2).
      { pose proof (size_union_alt (C:=gset T) {[a]} {[b]}) as Hab.
        pose proof (subseteq_size (C:=gset T) ({[b]} ∖ {[a]}) {[b]}) as Hb'.
        rewrite !size_singleton in *.
        assert (size (({[b]} : gset T) ∖ {[a]}) ≤ 1) by (apply Hb'; set_solver).
        lia. }
      lia.
  - split; [by apply prefix_length|].
    destruct o as [a|a b k|]; simpl; [| |done].
    + rewrite addAtom_bonds. lia.
    + destruct (hasBond m a b k) eqn:Hhb.
      * rewrite addBond_dup by done. rewrite !addAtom_bonds. lia.
      * rewrite addBond_bonds_fresh by done. rewrite length_app. simpl. lia.
Qed.

(** X4: a path that [hasPath] reports is still reported after any
    [addAtom] or [addBond]. *)
Theorem hasPath_preserved m (o : op T) (from to : T) :
  o ≠ OpClear →
  hasPath m from to = Some true →
  hasPath (apply_op m o) from to = Some true.
Proof.
  intros Ho Hp.
  destruct (hasPath_cases m from to) as (b & Hb & Hiff).
  rewrite Hp in Hb. injection Hb as <-.
  destruct Hiff as [Hiff _]. destruct (Hiff eq_refl) as (Hf & Ht & Hr).
  destruct (hasPath_cases (apply_op m o) from to) as (b' & -> & Hiff').
  f_equal. apply Hiff'.
  destruct (apply_op_extends m o from Ho) as (Ha & _ & _).
  rewrite !hasAtom_true in *. split; [by apply Ha|]. split; [by apply Ha|].
  eapply reachable_mono; [|done]. intros z y.
  rewrite <- !neighbors_succs.
  destruct (apply_op_extends m o z Ho) as (_ & _ & [l ->]). set_solver.
Qed.

(** X5: in every reachable state [empty()] is true exactly when there is
    no atom; its test of the bond list never decides. *)
Theorem mol_empty_atomCount (ops : list (op T)) :
  mol_empty (run ops) = bool_decide (atomCount (run ops) = 0).
Proof.
  pose proof (run_wf ops) as Hwf. unfold mol_empty, atomCount.
  destruct (decide (atoms (run ops) = ∅)) as [He|Hne].
  - rewrite !bool_decide_eq_true_2; [done|by rewrite He| |done].
    destruct (bonds (run ops)) as [|bd l] eqn:E; [done|].
    destruct (wf_bonds _ Hwf bd) as [Hin _]; [rewrite E; by left|].
    rewrite He in Hin. by apply not_elem_of_empty in Hin.
  - rewrite (bool_decide_eq_false_2 (atoms (run ops) = ∅)) by done. simpl.
    symmetry. apply bool_decide_eq_false_2. by intros ?%size_empty_inv%leibniz_equiv.
Qed.

(** *** Molecules without ARROW bonds *)

Lemma no_arrow_symmetric (ops : list (op T)) :
  no_arrow (run ops) → symmetric (adjacency (run ops)).
Proof.
  intros Hna x y. rewrite <- !neighbors_succs, !run_elem_of_neighbors.
  intros [k [Hin|[Hk Hin]]]; exists k; [right|left]; [|done].
  split; [|done]. apply (Hna _ Hin).
Qed.

(** X6: as long as no ARROW bond is stored, [hasPath] is symmetric in its
    two endpoints. *)
Theorem hasPath_symmetric (ops : list (op T)) a b :
  no_arrow (run ops) →
  hasPath (run ops) a b = hasPath (run ops) b a.
Proof.
  intros Hsym%no_arrow_symmetric.
  destruct (hasPath_cases (run ops) a b) as (r & -> & Hr).
  destruct (hasPath_cases (run ops) b a) as (r' & -> & Hr').
  f_equal. apply eq_true_iff_eq. rewrite Hr, Hr'.
  split; intros (? & ? & ?); (split; [done|]); (split; [done|]);
    by apply symmetric_reachable_sym.
Qed.

Lemma addBond_stored m a b k : wf m → mkBond a b k ∈ bonds (addBond m a b k).
Proof.
  intros Hwf. destruct (hasBond m a b k) eqn:Hb.
  - rewrite addBond_idem_wf by done. by apply hasBond_true.
  - rewrite addBond_bonds_fresh by done. apply elem_of_app. right. by left.
Qed.

(** X7: on every reachable state [hasPath] is a preorder on the atoms:
    an atom has a path to itself (and a node that is no atom has none),
    and a path from [a] to [b] and one from [b] to [c] give one from [a]
    to [c].  After addBond(a, b, k) there is a path from [a] to [b], and
    one from [b] to [a] unless [k] is ARROW (which stores no reverse
    entry). *)
Theorem hasPath_laws (ops : list (op T)) a b c k :
  hasPath (run ops) a a = Some (hasAtom (run ops) a)
  ∧ (hasPath (run ops) a b = Some true → hasPath (run ops) b c = Some true →
     hasPath (run ops) a c = Some true)
  ∧ hasPath (addBond (run ops) a b k) a b = Some true
  ∧ (k ≠ ARROW → hasPath (addBond (run ops) a b k) b a = Some true).
Proof.
  split; [|split].
  - destruct (hasPath_cases (run ops) a a) as (r & -> & Hr). f_equal.
    apply eq_true_iff_eq. rewrite Hr. split; [by intros (? & _)|].
    intros Ha. split; [done|]. split; [done|]. apply rtc_refl.
  - intros Hab Hbc.
    destruct (hasPath_cases (run ops) a b) as (r1 & H1 & Hr1).
    destruct (hasPath_cases (run ops) b c) as (r2 & H2 & Hr2).
    destruct (hasPath_cases (run ops) a c) as (r3 & -> & Hr3).
    rewrite Hab in H1. rewrite Hbc in H2. injection H1 as <-. injection H2 as <-.
    destruct (proj1 Hr1 eq_refl) as (Ha & _ & Hrab).
    destruct (proj1 Hr2 eq_refl) as (_ & Hc & Hrbc).
    f_equal. apply Hr3. split; [done|]. split; [done|]. by etrans.
  - change (addBond (run ops) a b k) with (apply_op (run ops) (OpAddBond a b k)).
    rewrite <- run_snoc. pose proof (run_wf (ops ++ [OpAddBond a b k])) as Hwf.
    assert (mkBond a b k ∈ bonds (run (ops ++ [OpAddBond a b k]))) as Hin.
    { rewrite run_snoc. apply addBond_stored, run_wf. }
    destruct (wf_bonds _ Hwf _ Hin) as [Ha Hb].
    destruct (wf_bond_adj _ Hwf _ Hin) as [Hab Hba]. simpl in *.
    split.
    + destruct (hasPath_cases (run (ops ++ [OpAddBond a b k])) a b) as (r & -> & Hr).
      f_equal. apply Hr. rewrite !hasAtom_true. split; [done|]. split; [done|].
      apply rtc_once. unfold edge. by rewrite <- neighbors_succs.
    + intros Hk.
      destruct (hasPath_cases (run (ops ++ [OpAddBond a b k])) b a) as (r & -> & Hr).
      f_equal. apply Hr. rewrite !hasAtom_true. split; [done|]. split; [done|].
      apply rtc_once. unfold edge. rewrite <- neighbors_succs. by apply Hba.
Qed.

End structure.

(** * Connectivity and the agreement of the path queries *)

Section queries.
Context {T : Type} `{Countable T}.
Implicit Types (m : Molecule T) (x y start : T) (k : BondType)
  (graph : gmap T (list T)).

Lemma isConnected_cases m order start rest :
  wf m → order ≡ₚ elements (atoms m) → order = start :: rest →
  ∃ b, isConnected order m = Some b
       ∧ (b = true ↔ ∀ x, x ∈ atoms m → reachable (adjacency m) start x).
Proof.
  intros Hwf Hperm ->. unfold isConnected.
  assert (start ∈ atoms m) as Hs.
  { apply elem_of_elements. rewrite <- Hperm. by left. }
  destruct (bfs_present m start) as (r & -> & Hnd & Hr); [by apply hasAtom_true|].
  eexists. split; [done|]. rewrite bool_decide_eq_true.
  assert (r ⊆+ elements (atoms m)) as Hsub.
  { apply NoDup_submseteq; [done|]. intros x Hx%Hr. apply elem_of_elements.
    by eapply reachable_atoms. }
  split.
  - intros Hlen x Hx. apply Hr.
    assert (elements (atoms m) ≡ₚ r) as <-; [|by apply elem_of_elements].
    symmetry. apply submseteq_length_Permutation; [done|].
    unfold size, set_size in Hlen. simpl in Hlen. by rewrite Hlen.
  - intros Hall. apply Nat.le_antisymm; [by apply submseteq_length in Hsub|].
    apply (submseteq_length (elements (atoms m)) r).
    apply NoDup_submseteq; [apply NoDup_elements|].
    intros x Hx%elem_of_elements. by apply Hr, Hall.
Qed.

(** X8: [isConnected] answers true on the graph without atoms; otherwise
    it answers whether every atom can be reached, along the adjacency
    lists, from the atom that the atom set enumerates first. *)
Theorem isConnected_spec (ops : list (op T)) (order : list T) :
  order ≡ₚ elements (atoms (run ops)) →
  ∃ b, isConnected order (run ops) = Some b
       ∧ (order = [] → b = true)
       ∧ (∀ start, head order = Some start →
            (b = true ↔
             ∀ x, hasAtom (run ops) x = true →
                  reachable (adjacency (run ops)) start x)).
Proof.
  intros Hperm. destruct order as [|start rest] eqn:E.
  { exists true. by repeat split. }
  destruct (isConnected_cases (run ops) (start :: rest) start rest)
    as (b & Hb & Hiff); [apply run_wf|done|done|].
  exists b. split; [done|]. split; [done|].
  intros ? [= <-]. rewrite Hiff. by setoid_rewrite hasAtom_true.
Qed.

(** X9: while no ARROW bond is stored the answer of [isConnected] does
    not depend on the order in which the atom set is enumerated, and it is
    true exactly when every atom is reachable from every atom. *)
Theorem isConnected_no_arrow (ops : list (op T)) (order : list T) :
  order ≡ₚ elements (atoms (run ops)) →
  no_arrow (run ops) →
  ∃ b, isConnected order (run ops) = Some b
       ∧ (∀ order', order' ≡ₚ elements (atoms (run ops)) →
            isConnected order' (run ops) = Some b)
       ∧ (b = true ↔
          ∀ x y, hasAtom (run ops) x = true → hasAtom (run ops) y = true →
                 reachable (adjacency (run ops)) x y).
Proof.
  intros Hperm Hsym%no_arrow_symmetric. pose proof (run_wf ops) as Hwf.
  assert (∀ o, o ≡ₚ elements (atoms (run ops)) →
    ∃ b, isConnected o (run ops) = Some b
         ∧ (b = true ↔ ∀ x y, x ∈ atoms (run ops) → y ∈ atoms (run ops) →
                              reachable (adjacency (run ops)) x y)) as Hall.
  { intros o Ho. destruct o as [|start rest] eqn:E.
    - exists true. split; [done|]. split; [|done]. intros _ x y Hx.
      apply elem_of_elements in Hx. rewrite <- Ho in Hx. by apply elem_of_nil in Hx.
    - destruct (isConnected_cases (run ops) (start :: rest) start rest)
        as (b & Hb & Hiff); [done..|].
      exists b. split; [done|]. rewrite Hiff. split.
      + intros Hs x y Hx Hy. etrans; [|by apply Hs].
        by apply symmetric_reachable_sym, Hs.
      + intros Hxy x Hx. apply Hxy; [|done].
        apply elem_of_elements. rewrite <- Ho. by left. }
  destruct (Hall order Hperm) as (b & Hb & Hiff). exists b.
  split; [done|]. split.
  - intros order' Hperm'. destruct (Hall order' Hperm') as (b' & -> & Hiff').
    f_equal. apply eq_true_iff_eq. by rewrite Hiff, Hiff'.
  - rewrite Hiff. by setoid_rewrite hasAtom_true.
Qed.

(** X10: with an ARROW bond the answer of [isConnected] depends on the
    enumeration of the atom set: after the single call addBond(a, b, ARROW)
    with a ≠ b it is true when [a] is enumerated first and false when [b]
    is. *)
Theorem isConnected_arrow_enumeration (a b : T) :
  a ≠ b →
  [a; b] ≡ₚ elements (atoms (run [OpAddBond a b ARROW]))
  ∧ [b; a] ≡ₚ elements (atoms (run [OpAddBond a b ARROW]))
  ∧ isConnected [a; b] (run [OpAddBond a b ARROW]) = Some true
  ∧ isConnected [b; a] (run [OpAddBond a b ARROW]) = Some false.
Proof.
  intros Hab. set (m := run [OpAddBond a b ARROW]).
  assert (atoms m = {[a; b]}) as Hat.
  { unfold m, run. simpl. rewrite addBond_atoms. set_solver. }
  assert (∀ x, neighbors m x = if decide (x = a) then [b] else []) as Hn.
  { intros x. unfold m, run. simpl. rewrite addBond_neighbors_fresh by done.
    simpl. change (neighbors Molecule_new x) with (@nil T). simpl.
    repeat case_decide; by rewrite ?app_nil_r. }
  assert ([a; b] ≡ₚ elements (atoms m)) as Hp1.
  { rewrite Hat. apply NoDup_Permutation.
    - apply NoDup_cons. split; [set_solver|apply NoDup_singleton].
    - apply NoDup_elements.
    - intros x. rewrite elem_of_elements. set_solver. }
  assert ([b; a] ≡ₚ elements (atoms m)) as Hp2.
  { rewrite <- Hp1. apply Permutation_swap. }
  split; [done|]. split; [done|].
  pose proof (run_wf [OpAddBond a b ARROW]) as Hwf. fold m in Hwf.
  split.
  - destruct (isConnected_cases m [a; b] a [b] Hwf Hp1 eq_refl) as (r & -> & Hiff).
    f_equal. apply Hiff. intros x. rewrite Hat.
    intros [Hx%elem_of_singleton | Hx%elem_of_singleton]%elem_of_union; subst x.
    + apply rtc_refl.
    + apply rtc_once. unfold edge. rewrite <- neighbors_succs, Hn.
      rewrite decide_True by done. by left.
  - destruct (isConnected_cases m [b; a] b [a] Hwf Hp2 eq_refl) as (r & -> & Hiff).
    f_equal. destruct r; [|done]. exfalso.
    destruct Hiff as [Hiff _]. specialize (Hiff eq_refl a).
    assert (a ∈ atoms m) as Ha by (rewrite Hat; set_solver).
    apply Hiff in Ha. inversion Ha as [|? y ? Hby]; [by subst|]. subst.
    unfold edge in Hby. rewrite <- neighbors_succs, Hn in Hby.
    rewrite decide_False in Hby by done. by apply elem_of_nil in Hby.
Qed.

(** X11: on every reachable state the member query [hasPath] and the
    stand-alone [graphHasPath] run on the adjacency mapping give the same
    answer. *)
Theorem hasPath_graphHasPath (ops : list (op T)) (from to : T) :
  hasPath (run ops) from to = graphHasPath (adjacency (run ops)) from to.
Proof.
  pose proof (run_wf ops) as Hwf.
  destruct (hasPath_cases (run ops) from to) as (b & -> & Hb).
  destruct (graphHasPath_spec (adjacency (run ops)) from to) as (b' & -> & Hb').
  assert (∀ x, x ∈ atoms (run ops) ↔ adjacency (run ops) !! x ≠ None) as Hkey.
  { intros x. by rewrite <- (wf_dom _ Hwf), elem_of_dom, <- not_eq_None_Some. }
  f_equal. apply eq_true_iff_eq. rewrite Hb, Hb', !hasAtom_true. split.
  - intros (Hf & _ & Hr). split; [by apply Hkey|done].
  - intros [Hf%Hkey Hr]. split; [done|]. split; [|done].
    by eapply reachable_atoms.
Qed.

End queries.

Section analysers_agree.
Context {T : Type} `{Countable T} (T_default : T).
Implicit Types (graph : gmap T (list T)) (x y start : T).

(** X12: [graphHasPath] answers true exactly when [start] is a key of the
    mapping and [end_] can be reached from it along the neighbour lists
    (a node is reachable from itself); it always returns. *)
Theorem graphHasPath_correct graph start (end_ : T) :
  ∃ b, graphHasPath graph start end_ = Some b
       ∧ (b = true ↔ is_Some (graph !! start) ∧ reachable graph start end_)
       ∧ (graph !! start = None → b = false)
       ∧ (is_Some (graph !! start) → start = end_ → b = true).
Proof.
  destruct (graphHasPath_spec graph start end_) as (b & Hb & Hiff).
  exists b. split; [done|]. rewrite <- not_eq_None_Some. split; [done|]. split.
  - intros Hn. destruct b; [|done]. by destruct Hiff as [[? _] _].
  - intros Hs <-. apply Hiff. split; [done|]. apply rtc_refl.
Qed.

(** Cutting a path short between two visits of the same node. *)
Lemma is_path_shortcut graph start (end_ : T) (p : list T) i j x :
  is_path graph start end_ p → i < j → p !! i = Some x → p !! j = Some x →
  is_path graph start end_ (take (S i) p ++ drop (S j) p).
Proof.
  intros (Hh & Hl & Hadj) Hij Hi Hj.
  pose proof (lookup_lt_Some _ _ _ Hi) as Hilen.
  pose proof (lookup_lt_Some _ _ _ Hj) as Hjlen.
  assert (length (take (S i) p) = S i) as Htl by (rewrite length_take; lia).
  assert (∀ k, k ≤ i → (take (S i) p ++ drop (S j) p) !! k = p !! k) as Hlow.
  { intros k Hk. rewrite lookup_app_l by lia. apply lookup_take_lt. lia. }
  assert (∀ k, i < k →
            (take (S i) p ++ drop (S j) p) !! k = p !! (S j + (k - S i))) as Hhigh.
  { intros k Hk. rewrite lookup_app_r by lia. rewrite Htl. apply lookup_drop. }
  split; [|split].
  - rewrite head_lookup, Hlow by lia. by rewrite <- head_lookup.
  - rewrite last_lookup in Hl. rewrite last_lookup, length_app, Htl, length_drop.
    destruct (decide (S j = length p)) as [Hlast|Hmore].
    + replace (pred (S i + (length p - S j))) with i by lia.
      rewrite Hlow by lia. rewrite Hi, <- Hj. rewrite <- Hl. f_equal. lia.
    + rewrite Hhigh by lia. rewrite <- Hl. f_equal. lia.
  - intros k a b Ha Hb. destruct (decide (k < i)) as [Hlt|Hge].
    + rewrite Hlow in Ha, Hb by lia. by eapply Hadj.
    + destruct (decide (k = i)) as [->|Hne].
      * rewrite Hlow in Ha by lia. rewrite Hhigh in Hb by lia.
        replace (S j + (S i - S i)) with (S j) in Hb by lia.
        rewrite Hi in Ha. injection Ha as <-. by eapply Hadj.
      * rewrite Hhigh in Ha, Hb by lia.
        replace (S j + (S k - S i)) with (S (S j + (k - S i))) in Hb by lia.
        by eapply Hadj.
Qed.

(** A path of least length visits no node twice. *)
Lemma shortest_path_NoDup graph start (end_ : T) (r : list T) :
  is_path graph start end_ r →
  (∀ p, is_path graph start end_ p → length r ≤ length p) →
  NoDup r.
Proof.
  intros Hr Hmin. apply NoDup_alt.
  assert (∀ i j x, i < j → r !! i = Some x → r !! j = Some x → False) as Hno.
  { intros i j x Hij Hi Hj.
    pose proof (Hmin _ (is_path_shortcut _ _ _ _ _ _ _ Hr Hij Hi Hj)) as Hle.
    pose proof (lookup_lt_Some _ _ _ Hi). pose proof (lookup_lt_Some _ _ _ Hj).
    rewrite length_app, length_take, length_drop in Hle. lia. }
  intros i j x Hi Hj. destruct (Nat.lt_trichotomy i j) as [Hlt|[->|Hgt]]; [|done|].
  - by destruct (Hno i j x).
  - by destruct (Hno j i x).
Qed.

(** X13: [graphShortestPath] returns a non-empty path exactly when
    [graphHasPath] answers true on the same arguments; a non-empty path
    begins with [start] and ends with [end_]; and the path returned
    visits no node twice. *)
Theorem graphShortestPath_graphHasPath graph start (end_ : T) :
  ∃ p, graphShortestPath T_default graph start end_ = Some p
       ∧ graphHasPath graph start end_ = Some (bool_decide (p ≠ []))
       ∧ (p ≠ [] → head p = Some start ∧ last p = Some end_)
       ∧ NoDup p.
Proof.
  destruct (graphShortestPath_cases T_default graph start end_) as (p & Hp & Hc).
  destruct (graphHasPath_spec graph start end_) as (b & Hb & Hiff).
  exists p. split; [done|]. rewrite Hb.
  destruct Hc as [[-> Hno]|(Hs & Hpath & Hmin)].
  - split; [|split; [done|apply NoDup_nil_2]]. f_equal. destruct b; [|done].
    destruct Hiff as [Hiff _]. destruct (Hiff eq_refl) as [Hs Hr].
    by destruct Hno.
  - pose proof (is_path_nonempty _ _ _ _ Hpath) as Hlen.
    assert (p ≠ []) as Hne by (intros ->; simpl in Hlen; lia).
    rewrite bool_decide_eq_true_2 by done. split; [|split].
    + f_equal. apply Hiff. split; [done|]. by eapply is_path_reachable.
    + intros _. by destruct Hpath as (? & ? & _).
    + by eapply shortest_path_NoDup.
Qed.

End analysers_agree.

(** * Order of the traversals, cycles without bonds, component counts *)

Section traversal_order.
Context {T : Type} `{Countable T}.
Implicit Types (m : Molecule T) (x y start node : T) (V : gset T).

Lemma bfs_head m start r :
  hasAtom m start = true → bfs m start = Some r → head r = Some start.
Proof.
  intros Hs. unfold bfs. rewrite Hs. simpl. intros Hr.
  assert (∃ s, head (bfs_result s ++ bfs_queue s) = Some start
               ∧ bfs_step m s = inr r) as (s & Hinv & Hexit).
  { eapply (iter_inv (λ s, head (bfs_result s ++ bfs_queue s) = Some start));
      [| |exact Hr]; [|done].
    intros s s' Hinv. unfold bfs_step.
    destruct (bfs_queue s) as [|current rest] eqn:EQ; [done|].
    intros [= <-]. simpl.
    destruct (fold_enqueue_queue (bfs_visited s) rest (neighbors m current))
      as (new & -> & _).
    rewrite <- app_assoc. simpl.
    destruct (bfs_result s); simpl in *; done. }
  unfold bfs_step in Hexit. destruct (bfs_queue s) eqn:EQ; [|done].
  injection Hexit as <-. by rewrite app_nil_r in Hinv.
Qed.

Lemma dfs_fold_prefix m fuel ns (st st' : gset T * list T) :
  (∀ n st st', dfsHelper fuel m n st = Some st' → st.2 `prefix_of` st'.2) →
  foldM (λ st neighbor,
           if decide (neighbor ∈ st.1) then Some st
           else dfsHelper fuel m neighbor st) st ns = Some st' →
  st.2 `prefix_of` st'.2.
Proof.
  intros Hrec. revert st. induction ns as [|n ns IH]; intros st; simpl.
  { by intros [= ->]. }
  case_decide; [apply IH|].
  destruct (dfsHelper fuel m n st) as [st1|] eqn:E; [|done].
  intros Hf. etrans; [by eapply Hrec|by apply IH].
Qed.

Lemma dfsHelper_prefix m fuel node (st st' : gset T * list T) :
  dfsHelper fuel m node st = Some st' → (st.2 ++ [node]) `prefix_of` st'.2.
Proof.
  revert node st st'. induction fuel as [|fuel IH]; intros node st st'; [done|].
  simpl. intros Hf. apply dfs_fold_prefix in Hf; [done|].
  intros n s s' Hs. etrans; [|by eapply IH]. by apply prefix_app_r.
Qed.

Lemma dfs_head m start r :
  hasAtom m start = true → dfs m start = Some r → head r = Some start.
Proof.
  intros Hs. unfold dfs. rewrite Hs. simpl.
  destruct (dfsHelper _ m start (∅, [])) as [st'|] eqn:E; [|done].
  intros [= <-]. apply dfsHelper_prefix in E as [l ->]. done.
Qed.

(** X14: for a present start node both traversals list the start node
    first, and the nodes that [bfs] lists are exactly the nodes to which
    [hasPath] reports a path from the start. *)
Theorem traversals_start_first (ops : list (op T)) start :
  hasAtom (run ops) start = true →
  ∃ rb rd,
    bfs (run ops) start = Some (start :: rb)
    ∧ dfs (run ops) start = Some (start :: rd)
    ∧ ∀ x, x ∈ start :: rb ↔ hasPath (run ops) start x = Some true.
Proof.
  intros Hs. pose proof (run_wf ops) as Hwf.
  destruct (bfs_present _ _ Hs) as (r & Hr & _ & Hin).
  destruct (dfs_present _ _ Hs) as (r' & Hr' & _).
  pose proof (bfs_head _ _ _ Hs Hr) as Hh.
  pose proof (dfs_head _ _ _ Hs Hr') as Hh'.
  destruct r as [|? rb]; [done|]. destruct r' as [|? rd]; [done|].
  simpl in Hh, Hh'. injection Hh as ->. injection Hh' as ->.
  exists rb, rd. split; [done|]. split; [done|]. intros x. rewrite Hin.
  destruct (hasPath_cases (run ops) start x) as (b & -> & Hb). split.
  - intros Hre. f_equal. apply Hb. split; [done|]. split; [|done].
    apply hasAtom_true. eapply reachable_atoms; [done| |done]. by apply hasAtom_true.
  - intros [= ->]. by destruct Hb as [(_ & _ & ?) _].
Qed.

End traversal_order.

Section cycles.
Context {T : Type} `{Countable T} (T_default : T).
Implicit Types (m : Molecule T) (x y node : T).

Lemma hasCycle_atoms_isolated m (order : list T) st :
  (∀ x, neighbors m x = []) →
  hasCycle_atoms T_default m order st = Some false.
Proof.
  intros Hn. revert st. induction order as [|atom rest IH]; intros st; simpl; [done|].
  case_decide; [|apply IH].
  unfold depth_fuel. rewrite Nat.add_1_r. simpl. rewrite Hn. simpl. apply IH.
Qed.

(** *** Parallel bonds *)

Lemma twice_cons y n (l : list T) : twice y (n :: l) → (y = n ∧ y ∈ l) ∨ twice y l.
Proof.
  intros (l1 & l2 & l3 & Heq). destruct l1 as [|a l1]; simpl in Heq.
  - injection Heq as -> ->. left. split; [done|]. apply elem_of_app. right. by left.
  - injection Heq as -> ->. right. by exists l1, l2, l3.
Qed.

Lemma twice_app_both y (l k : list T) : y ∈ l → y ∈ k → twice y (l ++ k).
Proof.
  intros (a1 & a2 & ->)%list_elem_of_split (b1 & b2 & ->)%list_elem_of_split.
  exists a1, (a2 ++ b1), b2. by rewrite <- !app_assoc.
Qed.

Lemma twice_app_r y (l k : list T) : twice y k → twice y (l ++ k).
Proof.
  intros (l1 & l2 & l3 & ->). exists (l ++ l1), l2, l3. by rewrite <- app_assoc.
Qed.

Lemma twice_app_l y (l k : list T) : twice y l → twice y (l ++ k).
Proof.
  intros (l1 & l2 & l3 & ->). exists l1, l2, (l3 ++ k).
  rewrite <- app_assoc. simpl. by rewrite <- app_assoc.
Qed.

Lemma twice_bind {A} (f : A → list T) (l : list A) (a1 a2 : A) y :
  a1 ∈ l → a2 ∈ l → a1 ≠ a2 → y ∈ f a1 → y ∈ f a2 → twice y (l ≫= f).
Proof.
  intros (l1 & l2 & ->)%list_elem_of_split H2 Hne Hy1 Hy2.
  rewrite bind_app, bind_cons.
  apply elem_of_app in H2 as [H2|[?|H2]%elem_of_cons]; [|done|].
  - rewrite app_assoc. apply twice_app_l, twice_app_both; [|done].
    apply list_elem_of_bind. eauto.
  - apply twice_app_r, twice_app_both; [done|].
    apply list_elem_of_bind. eauto.
Qed.

(** The neighbour loop of one call of [hasCycleHelper], given what the
    recursive calls establish: the nodes it visits hang below [node] in
    the parent map, no two of them are each other's parent, and when no
    cycle is reported every neighbour of [node] that was visited before
    its turn, or is listed twice, is [par]. *)
Lemma hasCycle_neighbors_tree m node par
    (rec : T → gset T * gmap T T → option (bool * (gset T * gmap T T))) ns V P b V' P' :
  (∀ n V P b V' P', n ∉ V → rec n (V, P) = Some (b, (V', P')) →
     {[n]} ∪ V ⊆ V'
     ∧ (∀ x, x ∈ V → P' !! x = P !! x)
     ∧ P' !! n = Some node
     ∧ (∀ x, x ∈ V' → x ∉ V → x ≠ n → ∃ p, P' !! x = Some p ∧ p ∈ V' ∧ p ∉ V)
     ∧ (∀ x y, x ∈ V' → x ∉ V → y ∈ V' → y ∉ V → x ≠ y →
          P' !! x = Some y → P' !! y = Some x →
          (x = n ∧ y = node) ∨ (y = n ∧ x = node))
     ∧ (b = false → ∀ x y, x ∈ V' → x ∉ V → twice y (neighbors m x) →
          P' !! x = Some y)) →
  node ∈ V → P !! node = Some par →
  hasCycle_neighbors T_default rec node ns (V, P) = Some (b, (V', P')) →
  V ⊆ V'
  ∧ (∀ x, x ∈ V → P' !! x = P !! x)
  ∧ (∀ x, x ∈ V' → x ∉ V → ∃ p, P' !! x = Some p ∧ p ∈ V' ∧ (p ∉ V ∨ p = node))
  ∧ (∀ x y, x ∈ V' → x ∉ V → y ∈ V' → y ∉ V → x ≠ y →
       P' !! x = Some y → P' !! y = Some x → False)
  ∧ (b = false →
     (∀ x y, x ∈ V' → x ∉ V → twice y (neighbors m x) → P' !! x = Some y)
     ∧ (∀ y, y ∈ ns → y ∈ V → y = par)
     ∧ (∀ y, twice y ns → y = par)).
Proof.
  intros Hrec. revert V P. induction ns as [|n ns IH]; intros V P Hnode Hpar; simpl.
  { intros [= <- <- <-]. split; [done|]. split; [done|]. split; [done|].
    split; [done|]. intros _. split; [done|]. split.
    - by intros y ?%elem_of_nil.
    - intros y (l1 & l2 & l3 & Heq). by destruct l1. }
  destruct (decide (n ∉ V)) as [Hn|Hn].
  - destruct (rec n (V, P)) as [[b1 [V1 P1]]|] eqn:Erec; [|done].
    destruct (Hrec n V P b1 V1 P1 Hn Erec) as (HV1 & HP1 & HPn & Hpar1 & Hpair1 & Hfalse1).
    assert (node ∈ V1) as Hnode1 by set_solver.
    destruct b1.
    { intros [= <- <- <-]. split; [set_solver|]. split; [done|]. split; [|split; [|done]].
      - intros x Hx HxV. destruct (decide (x = n)) as [->|Hxn].
        + exists node. split; [done|]. split; [done|]. by right.
        + destruct (Hpar1 x Hx HxV Hxn) as (p & ? & ? & ?). exists p. auto.
      - intros x y Hx HxV Hy HyV Hxy Hpx Hpy.
        destruct (Hpair1 x y Hx HxV Hy HyV Hxy Hpx Hpy) as [[_ ->]|[_ ->]]; done. }
    intros Hloop.
    destruct (IH V1 P1 Hnode1) as (HV' & HP' & Hpar' & Hpair' & Hfalse'); [|done|].
    { by rewrite HP1. }
    assert (∀ x, x ∈ V1 → x ∉ V → ∃ p, P' !! x = Some p ∧ p ∈ V1 ∧ (p ∉ V ∨ p = node))
      as Hblock.
    { intros x Hx HxV. rewrite HP' by done. destruct (decide (x = n)) as [->|Hxn].
      - exists node. split; [done|]. split; [done|]. by right.
      - destruct (Hpar1 x Hx HxV Hxn) as (p & ? & ? & ?). exists p. auto. }
    split; [set_solver|]. split; [|split; [|split]].
    + intros x Hx. rewrite HP' by set_solver. by apply HP1.
    + intros x Hx HxV. destruct (decide (x ∈ V1)) as [Hx1|Hx1].
      * destruct (Hblock x Hx1 HxV) as (p & ? & ? & ?). exists p.
        split; [done|]. split; [set_solver|done].
      * destruct (Hpar' x Hx Hx1) as (p & ? & ? & Hp). exists p.
        split; [done|]. split; [done|]. destruct Hp as [Hp|Hp]; [|by right].
        left. set_solver.
    + intros x y Hx HxV Hy HyV Hxy Hpx Hpy.
      destruct (decide (x ∈ V1)) as [Hx1|Hx1], (decide (y ∈ V1)) as [Hy1|Hy1].
      * rewrite HP' in Hpx, Hpy by done.
        destruct (Hpair1 x y Hx1 HxV Hy1 HyV Hxy Hpx Hpy) as [[_ ->]|[_ ->]]; done.
      * destruct (Hblock x Hx1 HxV) as (p & Hp & Hp1 & _).
        rewrite Hpx in Hp. by injection Hp as <-.
      * destruct (Hblock y Hy1 HyV) as (p & Hp & Hp1 & _).
        rewrite Hpy in Hp. by injection Hp as <-.
      * by apply (Hpair' x y).
    + intros ->. destruct (Hfalse' eq_refl) as (Htw & Hvis & Hdup).
      split; [|split].
      * intros x y Hx HxV Hxy. destruct (decide (x ∈ V1)) as [Hx1|Hx1].
        -- rewrite HP' by done. by apply Hfalse1.
        -- by apply Htw.
      * intros y [->|Hy]%elem_of_cons HyV; [done|]. apply Hvis; [done|set_solver].
      * intros y [[-> Hy]|Hy]%twice_cons; [|by apply Hdup].
        apply Hvis; [done|set_solver].
  - apply dec_stable in Hn. unfold parent_at. rewrite Hpar. simpl.
    destruct (decide (n ≠ par)) as [Hnp|Hnp].
    { intros [= <- <- <-]. split; [done|]. split; [done|]. split; [done|].
      split; [done|]. done. }
    apply dec_stable in Hnp as ->. intros Hloop.
    destruct (IH V P Hnode Hpar Hloop) as (HV' & HP' & Hpar' & Hpair' & Hfalse').
    split; [done|]. split; [done|]. split; [done|]. split; [done|].
    intros ->. destruct (Hfalse' eq_refl) as (Htw & Hvis & Hdup).
    split; [done|]. split.
    + intros y [->|Hy]%elem_of_cons HyV; [done|]. by apply Hvis.
    + intros y [[-> Hy]|Hy]%twice_cons; [done|]. by apply Hdup.
Qed.

Lemma hasCycleHelper_tree m fuel node V P par b V' P' :
  node ∉ V →
  hasCycleHelper T_default fuel m node (V, P) par = Some (b, (V', P')) →
  {[node]} ∪ V ⊆ V'
  ∧ (∀ x, x ∈ V → P' !! x = P !! x)
  ∧ P' !! node = Some par
  ∧ (∀ x, x ∈ V' → x ∉ V → x ≠ node → ∃ p, P' !! x = Some p ∧ p ∈ V' ∧ p ∉ V)
  ∧ (∀ x y, x ∈ V' → x ∉ V → y ∈ V' → y ∉ V → x ≠ y →
       P' !! x = Some y → P' !! y = Some x →
       (x = node ∧ y = par) ∨ (y = node ∧ x = par))
  ∧ (b = false → ∀ x y, x ∈ V' → x ∉ V → twice y (neighbors m x) →
       P' !! x = Some y).
Proof.
  revert node V P par b V' P'.
  induction fuel as [|fuel IH]; intros node V P par b V' P' Hnode; [done|].
  simpl. intros Hloop.
  apply (hasCycle_neighbors_tree m node par) in Hloop
    as (HV' & HP' & Hpar' & Hpair' & Hfalse').
  - assert (P' !! node = Some par) as Hpn.
    { rewrite HP' by set_solver. apply lookup_insert_eq. }
    split; [done|]. split; [|split; [done|split; [|split]]].
    + intros x Hx. rewrite HP' by set_solver. apply lookup_insert_ne. set_solver.
    + intros x Hx HxV Hxn. destruct (Hpar' x) as (p & Hp & HpV & Hp'); [done|set_solver|].
      exists p. split; [done|]. split; [done|]. destruct Hp' as [Hp' | ->]; set_solver.
    + intros x y Hx HxV Hy HyV Hxy Hpx Hpy.
      destruct (decide (x = node)) as [->|Hxn].
      { left. split; [done|]. rewrite Hpn in Hpx. by injection Hpx. }
      destruct (decide (y = node)) as [->|Hyn].
      { right. split; [done|]. rewrite Hpn in Hpy. by injection Hpy. }
      destruct (Hpair' x y); [done|set_solver|done|set_solver|done..].
    + intros ->. destruct (Hfalse' eq_refl) as (Htw & _ & Hdup).
      intros x y Hx HxV Hxy. destruct (decide (x = node)) as [->|Hxn].
      * rewrite Hpn. f_equal. symmetry. by apply Hdup.
      * apply Htw; [done|set_solver|done].
  - intros n V0 P0 b0 V0' P0' Hn Hcall. by apply (IH n V0 P0 node).
  - set_solver.
  - apply lookup_insert_eq.
Qed.

Lemma hasCycle_atoms_tree m (order : list T) V P :
  cycle_inv T_default m (V, P) →
  hasCycle_atoms T_default m order (V, P) = Some false →
  ∃ V' P', cycle_inv T_default m (V', P') ∧ V ⊆ V' ∧ ∀ x, x ∈ order → x ∈ V'.
Proof.
  revert V P. induction order as [|atom rest IH]; intros V P Hinv; simpl.
  { intros _. exists V, P. split; [done|]. split; [done|]. by intros x ?%elem_of_nil. }
  destruct (decide (atom ∉ V)) as [Ha|Ha].
  - destruct (hasCycleHelper T_default (depth_fuel (adjacency m)) m atom (V, P) T_default)
      as [[[] [V1 P1]]|] eqn:E; [done| |done].
    intros Hrest.
    destruct (hasCycleHelper_tree _ _ _ _ _ _ _ _ _ Ha E)
      as (HV1 & HP1 & Hpa & Hpar1 & Hpair1 & Hfalse1).
    destruct Hinv as [Htw Hpairs]; simpl in *.
    destruct (IH V1 P1) as (V' & P' & Hinv' & HV' & Hall); [|done|].
    { split; simpl.
      - intros x y Hx Hxy. destruct (decide (x ∈ V)) as [HxV|HxV].
        + rewrite HP1 by done. by apply Htw.
        + by apply Hfalse1.
      - intros x y Hx Hy Hxy Hpx Hpy.
        destruct (decide (x ∈ V)) as [HxV|HxV], (decide (y ∈ V)) as [HyV|HyV].
        + rewrite HP1 in Hpx, Hpy by done. by apply Hpairs.
        + destruct (decide (y = atom)) as [->|Hya].
          * rewrite Hpa in Hpy. injection Hpy as <-. by left.
          * destruct (Hpar1 y Hy HyV Hya) as (p & Hp & _ & HpV).
            rewrite Hpy in Hp. by injection Hp as <-.
        + destruct (decide (x = atom)) as [->|Hxa].
          * rewrite Hpa in Hpx. injection Hpx as <-. by right.
          * destruct (Hpar1 x Hx HxV Hxa) as (p & Hp & _ & HpV).
            rewrite Hpx in Hp. by injection Hp as <-.
        + destruct (Hpair1 x y Hx HxV Hy HyV Hxy Hpx Hpy) as [[_ ->]|[_ ->]];
            [by right|by left]. }
    exists V', P'. split; [done|]. split; [set_solver|].
    intros x [->|Hx]%elem_of_cons; [set_solver|by apply Hall].
  - apply dec_stable in Ha. intros Hrest.
    destruct (IH V P Hinv Hrest) as (V' & P' & Hinv' & HV' & Hall).
    exists V', P'. split; [done|]. split; [done|].
    intros x [->|Hx]%elem_of_cons; [set_solver|by apply Hall].
Qed.

(** Two non-ARROW bonds between the same two nodes, in either
    orientation, are reported as a cycle. *)
Lemma hasCycle_parallel (ops : list (op T)) (order : list T) (bd1 bd2 : MoleculeBond T)
    (a b : T) :
  order ≡ₚ elements (atoms (run ops)) →
  bd1 ∈ bonds (run ops) → bd2 ∈ bonds (run ops) → bd1 ≠ bd2 →
  bond_type bd1 ≠ ARROW → bond_type bd2 ≠ ARROW →
  ((bond_from bd1 = a ∧ bond_to bd1 = b) ∨ (bond_from bd1 = b ∧ bond_to bd1 = a)) →
  ((bond_from bd2 = a ∧ bond_to bd2 = b) ∨ (bond_from bd2 = b ∧ bond_to bd2 = a)) →
  a ≠ b → a ≠ T_default → b ≠ T_default →
  hasCycle T_default order (run ops) = Some true.
Proof.
  intros Hperm H1 H2 Hne Hk1 Hk2 Hab1 Hab2 Hab Ha Hb.
  pose proof (run_wf ops) as Hwf.
  destruct (hasCycle_total T_default order (run ops)) as (r & Hr & _).
  destruct r; [done|]. exfalso. unfold hasCycle in Hr.
  destruct (hasCycle_atoms_tree (run ops) order ∅ ∅) as (V & P & [Htw Hpairs] & _ & Hall);
    [|done|].
  { split; simpl; intros x y Hx; by apply not_elem_of_empty in Hx. }
  simpl in *.
  assert (a ∈ V ∧ b ∈ V) as [HaV HbV].
  { split; apply Hall; rewrite Hperm; apply elem_of_elements;
      destruct (wf_bonds _ Hwf _ H1) as [? ?]; destruct Hab1 as [[<- <-]|[<- <-]]; done. }
  assert (twice b (neighbors (run ops) a)) as Hba.
  { rewrite run_neighbors_bonds. apply (twice_bind _ _ bd1 bd2); [done..| |];
      apply elem_of_bond_entries; naive_solver. }
  assert (twice a (neighbors (run ops) b)) as Hab'.
  { rewrite run_neighbors_bonds. apply (twice_bind _ _ bd1 bd2); [done..| |];
      apply elem_of_bond_entries; naive_solver. }
  destruct (Hpairs a b HaV HbV Hab); [by apply Htw|by apply Htw|done..].
Qed.

(** X15: for every enumeration of the atoms, [hasCycle] answers false on
    a graph on which no bond is stored; true on a graph that stores a
    bond from a node to itself; and true on a graph that stores two
    non-ARROW bonds between the same two different nodes, be it the same
    pair in the opposite orientation or with another kind.  The two
    positive cases require that the nodes are not the value-initialised
    [T()]. *)
Theorem hasCycle_cases (ops : list (op T)) (order : list T) (a b : T)
    (k k' : BondType) :
  (bonds (run ops) = [] → hasCycle T_default order (run ops) = Some false)
  ∧ (order ≡ₚ elements (atoms (run ops)) →
     hasBond (run ops) a a k = true → a ≠ T_default →
     hasCycle T_default order (run ops) = Some true)
  ∧ (order ≡ₚ elements (atoms (run ops)) →
     hasBond (run ops) a b k = true →
     hasBond (run ops) b a k' = true ∨ (k ≠ k' ∧ hasBond (run ops) a b k' = true) →
     k ≠ ARROW → k' ≠ ARROW → a ≠ b → a ≠ T_default → b ≠ T_default →
     hasCycle T_default order (run ops) = Some true).
Proof.
  split; [|split].
  - intros Hb. apply hasCycle_atoms_isolated. intros x.
    by rewrite run_neighbors_bonds, Hb.
  - apply hasCycle_self_loop.
  - intros Hperm H1%hasBond_true H2 Hk Hk' Hab Ha Hb.
    destruct H2 as [H2%hasBond_true|[Hkk H2%hasBond_true]].
    + apply (hasCycle_parallel ops order (mkBond a b k) (mkBond b a k') a b);
        simpl; auto. intros [= -> _]. done.
    + apply (hasCycle_parallel ops order (mkBond a b k) (mkBond a b k') a b);
        simpl; auto. intros [= ->]. done.
Qed.

End cycles.

Section counts.
Context {T : Type} `{Countable T}.
Implicit Types (graph : gmap T (list T)) (x y : T).

(** X16: on a mapping that lists every neighbour relation in both
    directions, [graphCountComponents] returns the number of connected
    components among the keys, whatever the enumeration of the keys. *)
Theorem graphCountComponents_undirected (order : list T) graph :
  order ≡ₚ elements (dom graph) →
  symmetric graph →
  ∃ n, graphCountComponents order graph = Some n
       ∧ component_count graph n
       ∧ ∀ n', component_count graph n' → n' = n.
Proof.
  intros Hperm Hsym.
  destruct (graphCountComponents_symmetric order graph Hperm Hsym) as (n & Hn & Hc).
  exists n. split; [done|]. split; [done|]. intros n' Hc'.
  by eapply component_count_unique.
Qed.

(** X17: on every mapping and enumeration, the number that
    [graphCountComponents] returns is the number of searches it started:
    each started at an enumerated key, every enumerated key is reachable
    from one of these roots, and no root is reachable from a root at which
    an earlier search started.  The roots are distinct, so the count is
    at most the number of enumerated keys. *)
Theorem graphCountComponents_search_roots (order : list T) graph :
  ∃ roots,
    graphCountComponents order graph = Some (length roots)
    ∧ (∀ r, r ∈ roots → r ∈ order)
    ∧ (∀ k, k ∈ order → ∃ r, r ∈ roots ∧ reachable graph r k)
    ∧ independent graph roots
    ∧ NoDup roots
    ∧ length roots ≤ length order.
Proof.
  destruct (graphCountComponents_roots order graph) as (roots & Hc & Hro & Hk & Hin).
  exists roots. split; [done|]. split; [done|]. split; [done|]. split; [done|].
  assert (NoDup roots) as Hnd.
  { clear -Hin. induction roots as [|r roots IH]; [apply NoDup_nil_2|].
    destruct Hin as [Hr Hin]. apply NoDup_cons. split; [|by apply IH].
    intros Hrr. apply (Hr r Hrr), rtc_refl. }
  split; [done|]. apply submseteq_length, NoDup_submseteq; [done|].
  intros r Hr. by apply Hro.
Qed.

End counts.

(** * Two-colouring *)

Section bipartite.
Context {T : Type} `{Countable T}.
Implicit Types (graph : gmap T (list T)) (x y current vertex : T)
  (color : gmap T Z) (Q ns : list T).

Lemma bipartite_neighbors_colours current ns color color' Q Q' cc :
  bipartite_neighbors current ns (color, Q) = inl (color', Q') →
  color !! current = Some cc →
  color ⊆ color'
  ∧ (∀ x v, color' !! x = Some v →
       color !! x = Some v ∨ (x ∈ Q' ∧ color !! x = None ∧ v = (1 - cc)%Z))
  ∧ (∀ n, n ∈ ns → ∃ cn, color' !! n = Some cn ∧ cn ≠ cc)
  ∧ (∀ x, x ∈ Q → x ∈ Q')
  ∧ (∀ x, x ∈ Q' → x ∈ Q ∨ (color !! x = None ∧ x ∈ dom color')).
Proof.
  revert color Q. induction ns as [|n ns IH]; intros color Q; simpl.
  { intros [= <- <-] Hcur. split; [done|]. split; [by left|]. split.
    - by intros n ?%elem_of_nil.
    - split; [done|]. by left. }
  intros Hstep Hcur. unfold color_at in Hstep. simpl in Hstep.
  destruct (color !! n) as [cn|] eqn:En; simpl in Hstep.
  - rewrite Hcur in Hstep; simpl in Hstep. case_decide as Hne; [done|].
    destruct (IH _ _ Hstep Hcur) as (Hsub & Hnew & Hns & HQ & HQ').
    split; [done|]. split; [done|]. split; [|done].
    intros n' [->|Hn']%elem_of_cons; [|by apply Hns].
    exists cn. split; [|done]. by eapply lookup_weaken.
  - rewrite Hcur in Hstep; simpl in Hstep.
    assert (n ≠ current) as Hnc by (intros ->; congruence).
    destruct (IH _ _ Hstep) as (Hsub & Hnew & Hns & HQ & HQ').
    { by rewrite lookup_insert_ne. }
    assert (color ⊆ <[n := (1 - cc)%Z]> color) as Hins by (by apply insert_subseteq).
    split; [by etrans|]. split; [|split; [|split]].
    + intros x v Hx. destruct (Hnew x v Hx) as [Hx1|(HxQ & Hx1 & ->)].
      * destruct (decide (x = n)) as [->|Hxn].
        -- rewrite lookup_insert_eq in Hx1. injection Hx1 as <-. right.
           split; [|done]. apply HQ, elem_of_app. right. by left.
        -- rewrite lookup_insert_ne in Hx1 by done. by left.
      * right. split; [done|]. split; [|done].
        destruct (decide (x = n)) as [->|Hxn]; [done|].
        by rewrite lookup_insert_ne in Hx1.
    + intros n' [->|Hn']%elem_of_cons; [|by apply Hns].
      exists (1 - cc)%Z. split; [|lia].
      eapply lookup_weaken; [|done]. apply lookup_insert_eq.
    + intros x Hx. apply HQ, elem_of_app. by left.
    + intros x Hx. destruct (HQ' x Hx) as [[HxQ|Hxn]%elem_of_app|[Hx1 Hx2]].
      * by left.
      * apply list_elem_of_singleton in Hxn as ->. right. split; [done|].
        apply (subseteq_dom _ _ Hsub), elem_of_dom. rewrite lookup_insert_eq. eauto.
      * right. split; [|done]. destruct (decide (x = n)) as [->|Hxn]; [done|].
        by rewrite lookup_insert_ne in Hx1.
Qed.

Lemma colour_step_inv graph (cq cq' : gmap T Z * list T) :
  colour_inv graph cq → bipartite_step graph cq = inl cq' →
  colour_inv graph cq' ∧ cq.1 ⊆ cq'.1.
Proof.
  destruct cq as [color Q], cq' as [color' Q']. intros [Hq Hv Hd]; simpl in *.
  unfold bipartite_step; simpl. destruct Q as [|current rest]; [done|].
  assert (current ∈ dom color) as [cc Hcc]%elem_of_dom by (apply Hq; by left).
  destruct (graph !! current) as [ns|] eqn:Eg.
  - destruct (bipartite_neighbors current ns (color, rest)) as [s'|] eqn:E; [|done].
    intros [= ->].
    destruct (bipartite_neighbors_colours _ _ _ _ _ _ _ E Hcc)
      as (Hsub & Hnew & Hns & HQ & HQ').
    split; [|done]. split; simpl.
    + intros x Hx. destruct (HQ' x Hx) as [HxQ|[_ Hx1]]; [|done].
      apply (subseteq_dom _ _ Hsub), Hq. by right.
    + intros x cx Hx. destruct (Hnew x cx Hx) as [Hx1|(_ & _ & ->)]; [by eapply Hv|].
      destruct (Hv _ _ Hcc) as [-> | ->]; lia.
    + intros x y cx Hx HxQ Hy.
      destruct (decide (x = current)) as [->|Hxc].
      * assert (cx = cc) as ->.
        { pose proof (lookup_weaken _ _ _ _ Hcc Hsub). congruence. }
        apply Hns. by rewrite (succs_Some _ _ _ Eg) in Hy.
      * destruct (Hnew x cx Hx) as [Hx1|(HxQ' & _)]; [|done].
        destruct (Hd x y cx Hx1) as (cy & Hcy & Hne); [|done|].
        { intros [->|Hxr]%elem_of_cons; [done|]. by apply HxQ, HQ. }
        exists cy. split; [|done]. by eapply lookup_weaken.
  - intros [= <- <-]. split; [|done]. split; simpl.
    + intros x Hx. apply Hq. by right.
    + done.
    + intros x y cx Hx HxQ Hy. destruct (decide (x = current)) as [->|Hxc].
      * unfold succs in Hy. rewrite Eg in Hy. by apply elem_of_nil in Hy.
      * apply (Hd x y cx Hx); [|done]. intros [->|?]%elem_of_cons; done.
Qed.

(** One colouring search, started at an uncoloured vertex on top of a
    finished colouring, ends in a finished colouring that extends it. *)
Lemma colour_search graph color vertex fuel color' :
  colour_inv graph (color, []) → color !! vertex = None →
  iter (bipartite_step graph) fuel (<[vertex := 0%Z]> color, [vertex])
    = Some (Some color') →
  colour_inv graph (color', []) ∧ color ⊆ color' ∧ vertex ∈ dom color'.
Proof.
  intros [Hq Hv Hd] Hvertex Hiter; simpl in *.
  assert (∃ s, (colour_inv graph s ∧ <[vertex := 0%Z]> color ⊆ s.1)
               ∧ bipartite_step graph s = inr (Some color'))
    as ([c Q] & [Hinv Hsub] & Hexit).
  { eapply (iter_inv (λ s, colour_inv graph s ∧ <[vertex := 0%Z]> color ⊆ s.1));
      [| |exact Hiter].
    - intros s s' [Hinv Hsub] Hstep.
      destruct (colour_step_inv graph s s' Hinv Hstep) as [Hinv' Hsub'].
      split; [done|]. by etrans.
    - split; [|done]. split; simpl.
      + intros x ->%list_elem_of_singleton. rewrite dom_insert_L. set_solver.
      + intros x cx. destruct (decide (x = vertex)) as [->|Hne].
        * rewrite lookup_insert_eq. intros [= <-]. by left.
        * rewrite lookup_insert_ne by done. apply Hv.
      + intros x y cx Hx Hxv Hy.
        assert (x ≠ vertex) as Hne by (intros ->; apply Hxv; by left).
        rewrite lookup_insert_ne in Hx by done.
        destruct (Hd x y cx Hx) as (cy & Hcy & Hcne); [apply not_elem_of_nil|done|].
        exists cy. split; [|done]. rewrite lookup_insert_ne; [done|].
        intros ->. congruence. }
  unfold bipartite_step in Hexit. simpl in Hexit. destruct Q as [|current rest].
  - injection Hexit as ->. simpl in Hsub. split; [done|]. split.
    + etrans; [|done]. by apply insert_subseteq.
    + apply (subseteq_dom _ _ Hsub). rewrite dom_insert_L. set_solver.
  - destruct (graph !! current); [|done].
    by destruct (bipartite_neighbors current l (c, rest)).
Qed.

Lemma colour_vertices graph (order : list T) color :
  colour_inv graph (color, []) →
  bipartite_vertices graph order color = Some true →
  ∃ color', colour_inv graph (color', []) ∧ color ⊆ color'
            ∧ ∀ v, v ∈ order → v ∈ dom color'.
Proof.
  revert color. induction order as [|vertex rest IH]; intros color Hinv; simpl.
  { intros _. exists color. split; [done|]. split; [done|]. by intros v ?%elem_of_nil. }
  destruct (color !! vertex) as [cv|] eqn:Ev.
  - intros Hrest. destruct (IH color Hinv Hrest) as (color' & Hinv' & Hsub & Hall).
    exists color'. split; [done|]. split; [done|].
    intros v [->|Hv]%elem_of_cons; [|by apply Hall].
    apply (subseteq_dom _ _ Hsub), elem_of_dom. eauto.
  - destruct (iter (bipartite_step graph) (loop_fuel graph)
                (<[vertex := 0%Z]> color, [vertex])) as [[color1|]|] eqn:E; [|done..].
    intros Hrest.
    destruct (colour_search graph color vertex _ color1 Hinv Ev E)
      as (Hinv1 & Hsub1 & Hv1).
    destruct (IH color1 Hinv1 Hrest) as (color' & Hinv' & Hsub & Hall).
    exists color'. split; [done|]. split; [by etrans|].
    intros v [->|Hv]%elem_of_cons; [|by apply Hall].
    by apply (subseteq_dom _ _ Hsub).
Qed.

Lemma colour_inv_empty graph : colour_inv graph (∅, []).
Proof.
  split; simpl.
  - by intros x ?%elem_of_nil.
  - intros x cx. by rewrite lookup_empty.
  - intros x y cx. by rewrite lookup_empty.
Qed.

Lemma graphIsBipartite_colouring (order : list T) graph :
  (∀ k, is_Some (graph !! k) → k ∈ order) →
  graphIsBipartite order graph = Some true →
  ∃ c, two_colouring graph c.
Proof.
  intros Hkeys Hb.
  destruct (colour_vertices graph order ∅ (colour_inv_empty graph) Hb)
    as (color & [_ Hv Hd] & _ & Hall); simpl in *.
  exists (λ x, default 0%Z (color !! x)). split.
  - intros x. destruct (color !! x) as [cx|] eqn:E; simpl; [by eapply Hv|by left].
  - intros x y Hy.
    assert (x ∈ dom color) as [cx Hcx]%elem_of_dom.
    { apply Hall, Hkeys. unfold succs in Hy.
      destruct (graph !! x); [done|]. by apply elem_of_nil in Hy. }
    destruct (Hd x y cx Hcx) as (cy & Hcy & Hne); [apply not_elem_of_nil|done|].
    rewrite Hcx, Hcy. simpl. done.
Qed.

(** *** Completeness on mappings that list every edge in both directions *)

Lemma flip_values (f : bool) z : (z = 0 ∨ z = 1)%Z → (flip f z = 0 ∨ flip f z = 1)%Z.
Proof. unfold flip. destruct f; lia. Qed.

Lemma agree_neighbors graph (c : T → Z) f color0 current ns color Q :
  two_colouring graph c → symmetric graph →
  (∀ x y cx, color0 !! x = Some cx → y ∈ succs graph x → is_Some (color0 !! y)) →
  (∀ n, n ∈ ns → n ∈ succs graph current) →
  agree_inv c f color0 (color, Q) →
  is_Some (color !! current) → color0 !! current = None →
  ∃ s', bipartite_neighbors current ns (color, Q) = inl s'
        ∧ agree_inv c f color0 s'.
Proof.
  intros [Hc01 Hcne] Hsym Hclosed. revert color Q.
  induction ns as [|n ns IH]; intros color Q Hns [Hext Hnew Hq] [cc Hcc] Hcur0; simpl.
  { eexists. by split. }
  simpl in *.
  assert (n ∈ succs graph current) as Hn by (apply Hns; by left).
  assert (color0 !! n = None) as Hn0.
  { destruct (color0 !! n) as [cn0|] eqn:E; [|done].
    destruct (Hclosed n current cn0 E (Hsym _ _ Hn)) as [? ?]. congruence. }
  pose proof (Hnew _ _ Hcc Hcur0) as Hccv.
  unfold color_at. destruct (color !! n) as [cn|] eqn:En; simpl.
  - rewrite Hcc; simpl. pose proof (Hnew _ _ En Hn0) as Hcnv.
    rewrite decide_False.
    + apply IH; [intros; apply Hns; by right|done|by eauto|done].
    + rewrite Hcnv, Hccv. pose proof (Hcne _ _ Hn).
      unfold flip. destruct f; lia.
  - rewrite Hcc; simpl. apply IH.
    + intros; apply Hns; by right.
    + split; simpl.
      * etrans; [done|]. by apply insert_subseteq.
      * intros x cx. destruct (decide (x = n)) as [->|Hxn].
        -- rewrite lookup_insert_eq. intros [= <-] _. rewrite Hccv.
           pose proof (Hcne _ _ Hn). destruct (Hc01 current), (Hc01 n);
             unfold flip; destruct f; lia.
        -- rewrite lookup_insert_ne by done. apply Hnew.
      * intros x [Hx | Hx%list_elem_of_singleton]%elem_of_app;
          [by apply Hq|by subst].
    + rewrite lookup_insert_ne; [by eauto|]. intros ->. congruence.
    + done.
Qed.

Lemma agree_search graph (c : T → Z) color vertex fuel :
  two_colouring graph c → symmetric graph →
  colour_inv graph (color, []) → color !! vertex = None →
  iter (bipartite_step graph) fuel (<[vertex := 0%Z]> color, [vertex]) ≠ Some None.
Proof.
  intros Hc Hsym Hinv Hvertex Hiter.
  set (f := bool_decide (c vertex = 1%Z)).
  assert (∃ s, (colour_inv graph s ∧ agree_inv c f color s)
               ∧ bipartite_step graph s = inr None)
    as ([col Q] & [Hcol [Hext Hnew Hq]] & Hexit).
  { eapply (iter_inv (λ s, colour_inv graph s ∧ agree_inv c f color s));
      [| |exact Hiter].
    - intros [col Q] s' [Hcol Hag] Hstep. split; [by eapply colour_step_inv|].
      unfold bipartite_step in Hstep. simpl in Hstep.
      destruct Q as [|current rest]; [done|].
      destruct Hag as [Hext Hnew Hq]; simpl in *.
      assert (agree_inv c f color (col, rest)) as Hag'.
      { split; simpl; [done|done|]. intros x Hx. apply Hq. by right. }
      destruct (graph !! current) as [ns|] eqn:Eg; [|by injection Hstep as <-].
      destruct (agree_neighbors graph c f color current ns col rest)
        as (s1 & Hs1 & Hag1); [done|done| | |done| | |].
      + intros x y cx Hx Hy. destruct Hinv as [_ _ Hd]; simpl in Hd.
        destruct (Hd x y cx Hx) as (cy & ? & _); [apply not_elem_of_nil|done|eauto].
      + intros n. by rewrite (succs_Some _ _ _ Eg).
      + apply elem_of_dom. destruct Hcol as [Hcq _ _]. apply Hcq. by left.
      + apply Hq. by left.
      + rewrite Hs1 in Hstep. by injection Hstep as <-.
    - split.
      + split; simpl.
        * intros x ->%list_elem_of_singleton. rewrite dom_insert_L. set_solver.
        * intros x cx. destruct (decide (x = vertex)) as [->|Hne].
          -- rewrite lookup_insert_eq. intros [= <-]. by left.
          -- rewrite lookup_insert_ne by done. destruct Hinv as [_ Hv _]. apply Hv.
        * intros x y cx Hx Hxv Hy.
          assert (x ≠ vertex) as Hne by (intros ->; apply Hxv; by left).
          rewrite lookup_insert_ne in Hx by done. destruct Hinv as [_ _ Hd].
          destruct (Hd x y cx Hx) as (cy & Hcy & Hcne); [apply not_elem_of_nil|done|].
          exists cy. split; [|done]. rewrite lookup_insert_ne; [done|].
          intros ->. simpl in *. congruence.
      + split; simpl.
        * by apply insert_subseteq.
        * intros x cx. destruct (decide (x = vertex)) as [->|Hne].
          -- rewrite lookup_insert_eq. intros [= <-] _. unfold flip, f.
             destruct Hc as [Hc01 _]. destruct (Hc01 vertex) as [Hv|Hv]; rewrite Hv.
             ++ by rewrite bool_decide_eq_false_2.
             ++ by rewrite bool_decide_eq_true_2.
          -- rewrite lookup_insert_ne by done. congruence.
        * by intros x ->%list_elem_of_singleton. }
  unfold bipartite_step in Hexit. simpl in Hexit.
  destruct Q as [|current rest]; [done|].
  destruct (graph !! current) as [ns|] eqn:Eg; [|done].
  destruct (agree_neighbors graph c f color current ns col rest)
    as (s1 & Hs1 & _); [done|done| | | | | |].
  - intros x y cx Hx Hy. destruct Hinv as [_ _ Hd]; simpl in Hd.
    destruct (Hd x y cx Hx) as (cy & ? & _); [apply not_elem_of_nil|done|eauto].
  - intros n. by rewrite (succs_Some _ _ _ Eg).
  - split; simpl; [done|done|]. intros x Hx. apply Hq. by right.
  - apply elem_of_dom. destruct Hcol as [Hcq _ _]. apply Hcq. by left.
  - apply Hq. by left.
  - by rewrite Hs1 in Hexit.
Qed.

Lemma agree_vertices graph (c : T → Z) (order : list T) color :
  two_colouring graph c → symmetric graph →
  colour_inv graph (color, []) →
  bipartite_vertices graph order color = Some true.
Proof.
  intros Hc Hsym. revert color.
  induction order as [|vertex rest IH]; intros color Hinv; simpl; [done|].
  destruct (color !! vertex) as [cv|] eqn:Ev; [by apply IH|].
  destruct (bipartite_search_total graph color vertex) as [r Hr]. rewrite Hr.
  destruct r as [color1|].
  - apply IH. by eapply colour_search.
  - by destruct (agree_search graph c color vertex (loop_fuel graph)).
Qed.

(** X18: when [graphIsBipartite] answers true, the mapping has a
    two-colouring: the nodes can be given the colours 0 and 1 so that every
    listed edge joins two different colours.  In particular a mapping with
    a self-loop is rejected. *)
Theorem graphIsBipartite_sound (order : list T) graph :
  order ≡ₚ elements (dom graph) →
  ∃ b, graphIsBipartite order graph = Some b
       ∧ (b = true → ∃ c, two_colouring graph c)
       ∧ ((∃ x, x ∈ succs graph x) → b = false).
Proof.
  intros Hperm. destruct (graphIsBipartite_total order graph) as [b Hb].
  assert (b = true → ∃ c, two_colouring graph c) as Hsound.
  { intros ->. apply (graphIsBipartite_colouring order); [|done].
    intros k Hk. rewrite Hperm. by apply elem_of_elements, elem_of_dom. }
  exists b. split; [done|]. split; [done|].
  intros [x Hx]. destruct b; [|done].
  destruct (Hsound eq_refl) as (c & _ & Hne). by destruct (Hne x x Hx).
Qed.

(** X19: on a mapping that lists every edge in both directions,
    [graphIsBipartite] answers true exactly when the mapping has a
    two-colouring, whatever the enumeration of the keys. *)
Theorem graphIsBipartite_undirected (order : list T) graph :
  order ≡ₚ elements (dom graph) →
  symmetric graph →
  ∃ b, graphIsBipartite order graph = Some b
       ∧ (b = true ↔ ∃ c, two_colouring graph c).
Proof.
  intros Hperm Hsym. destruct (graphIsBipartite_total order graph) as [b Hb].
  exists b. split; [done|]. split.
  - intros ->. apply (graphIsBipartite_colouring order); [|done].
    intros k Hk. rewrite Hperm. by apply elem_of_elements, elem_of_dom.
  - intros [c Hc]. unfold graphIsBipartite in Hb.
    rewrite (agree_vertices graph c order ∅ Hc Hsym (colour_inv_empty graph)) in Hb.
    by injection Hb as <-.
Qed.

End bipartite.

Lemma diamond_succs (x y : string) :
  y ∈ succs diamond x →
  (x = "A" ∧ (y = "B" ∨ y = "C")) ∨ ((x = "B" ∨ x = "C") ∧ y = "D").
Proof.
  intros Hy.
  assert (x ∈ dom diamond) as Hx.
  { apply elem_of_dom. unfold succs in Hy. destruct (diamond !! x); [done|].
    by apply elem_of_nil in Hy. }
  assert (dom diamond = {["A"; "B"; "C"; "D"]}) as Hd by (by vm_compute).
  rewrite Hd in Hx.
  repeat (apply elem_of_union in Hx as [Hx|Hx]); apply elem_of_singleton in Hx;
    subst x; vm_compute in Hy; set_solver.
Qed.

(** X20: on a mapping that lists edges in one direction only, the answer
    of [graphIsBipartite] depends on the order in which the keys are
    enumerated.  The mapping of the changelog, A: [B, C], B: [D], C: [D],
    D: [], has a two-colouring; the function accepts it when the keys are
    enumerated A, B, C, D and rejects it when they are enumerated
    D, C, B, A. *)
Theorem graphIsBipartite_enumeration_dependent :
  ["A"; "B"; "C"; "D"] ≡ₚ elements (dom diamond)
  ∧ ["D"; "C"; "B"; "A"] ≡ₚ elements (dom diamond)
  ∧ two_colouring diamond (λ x, if decide (x ∈ ["A"; "D"]) then 0 else 1)%Z
  ∧ graphIsBipartite ["A"; "B"; "C"; "D"] diamond = Some true
  ∧ graphIsBipartite ["D"; "C"; "B"; "A"] diamond = Some false.
Proof.
  assert (elements (dom diamond) = ["C"; "A"; "B"; "D"]) as Hel by (by vm_compute).
  rewrite Hel. split; [solve_Permutation|]. split; [solve_Permutation|].
  split; [|split; by vm_compute].
  split.
  - intros x. case_decide; auto.
  - intros x y [[-> [-> | ->]] | [[-> | ->] ->]]%diamond_succs; by vm_compute.
Qed.

(** ** Instances *)

Lemma bonds_distinct_witness :
  NoDup (bonds (run [OpAddBond 1 2 SINGLE]))
  ∧ hasBond (run [OpAddBond 1 2 SINGLE]) 2 1 SINGLE = false
  ∧ bondCount (addBond (run [OpAddBond 1 2 SINGLE]) 2 1 SINGLE) = 2.
Proof.
  destruct (bonds_distinct [OpAddBond 1 2 SINGLE] 2 1 SINGLE) as [Hnd Hfresh].
  split; [exact Hnd|]. split; [reflexivity|].
  destruct (Hfresh eq_refl) as [Hcount _]. exact Hcount.
Defined.

Lemma mutators_only_extend_witness :
  OpAddBond 2 3 ARROW ≠ OpClear
  ∧ neighbors (run [OpAddBond 1 2 SINGLE]) 2
      `prefix_of` neighbors (apply_op (run [OpAddBond 1 2 SINGLE]) (OpAddBond 2 3 ARROW)) 2
  ∧ atomCount (apply_op (run [OpAddBond 1 2 SINGLE]) (OpAddBond 2 3 ARROW))
    ≤ atomCount (run [OpAddBond 1 2 SINGLE]) + 2.
Proof.
  assert (OpAddBond 2 3 ARROW ≠ @OpClear nat) as Hne by done.
  destruct (mutators_only_extend (run [OpAddBond 1 2 SINGLE]) (OpAddBond 2 3 ARROW) 2 Hne)
    as (_ & _ & Hn & [_ Ha] & _).
  split; [exact Hne|]. split; [exact Hn|exact Ha].
Defined.

Lemma hasPath_preserved_witness :
  OpAddBond 2 3 ARROW ≠ OpClear
  ∧ hasPath (run [OpAddBond 1 2 SINGLE]) 2 1 = Some true
  ∧ hasPath (apply_op (run [OpAddBond 1 2 SINGLE]) (OpAddBond 2 3 ARROW)) 2 1
    = Some true.
Proof.
  assert (OpAddBond 2 3 ARROW ≠ @OpClear nat) as Hne by done.
  assert (hasPath (run [OpAddBond 1 2 SINGLE]) 2 1 = Some true) as Hp
    by (by vm_compute).
  split; [exact Hne|]. split; [exact Hp|].
  exact (hasPath_preserved (run [OpAddBond 1 2 SINGLE]) (OpAddBond 2 3 ARROW) 2 1 Hne Hp).
Defined.

Lemma no_arrow_example :
  no_arrow (run [OpAddBond 1 2 SINGLE; OpAddBond 2 3 DOUBLE; OpAddAtom 4]).
Proof.
  intros b Hb. vm_compute in Hb.
  repeat (apply elem_of_cons in Hb as [->|Hb]); [done|done|].
  by apply elem_of_nil in Hb.
Defined.

Lemma hasPath_symmetric_witness :
  no_arrow (run [OpAddBond 1 2 SINGLE; OpAddBond 2 3 DOUBLE; OpAddAtom 4])
  ∧ hasPath (run [OpAddBond 1 2 SINGLE; OpAddBond 2 3 DOUBLE; OpAddAtom 4]) 3 1
    = Some true
  ∧ hasPath (run [OpAddBond 1 2 SINGLE; OpAddBond 2 3 DOUBLE; OpAddAtom 4]) 1 3
    = Some true.
Proof.
  split; [exact no_arrow_example|].
  pose proof (hasPath_symmetric
    [OpAddBond 1 2 SINGLE; OpAddBond 2 3 DOUBLE; OpAddAtom 4] 3 1 no_arrow_example)
    as Hsym.
  assert (hasPath (run [OpAddBond 1 2 SINGLE; OpAddBond 2 3 DOUBLE; OpAddAtom 4]) 1 3
          = Some true) as H13 by (by vm_compute).
  split; [|exact H13]. rewrite Hsym. exact H13.
Defined.

Lemma atoms_enumeration_example :
  [1; 2; 3; 4]
  ≡ₚ elements (atoms (run [OpAddBond 1 2 SINGLE; OpAddBond 2 3 DOUBLE; OpAddAtom 4])).
Proof.
  match goal with |- _ ≡ₚ ?l =>
    let l' := eval vm_compute in l in
    replace l with l' by (by vm_compute)
  end.
  solve_Permutation.
Defined.

Lemma isConnected_spec_witness :
  [1; 2; 3; 4]
  ≡ₚ elements (atoms (run [OpAddBond 1 2 SINGLE; OpAddBond 2 3 DOUBLE; OpAddAtom 4]))
  ∧ isConnected [1; 2; 3; 4]
      (run [OpAddBond 1 2 SINGLE; OpAddBond 2 3 DOUBLE; OpAddAtom 4]) = Some false
  ∧ ¬ ∀ x, hasAtom (run [OpAddBond 1 2 SINGLE; OpAddBond 2 3 DOUBLE; OpAddAtom 4]) x
            = true →
           reachable
             (adjacency (run [OpAddBond 1 2 SINGLE; OpAddBond 2 3 DOUBLE; OpAddAtom 4]))
             1 x.
Proof.
  split; [exact atoms_enumeration_example|].
  destruct (isConnected_spec
    [OpAddBond 1 2 SINGLE; OpAddBond 2 3 DOUBLE; OpAddAtom 4] [1; 2; 3; 4]
    atoms_enumeration_example) as (b & Hb & _ & Hiff).
  assert (b = false) as -> by (vm_compute in Hb; by injection Hb as <-).
  split; [exact Hb|]. intros Hall. by apply (Hiff 1 eq_refl) in Hall.
Defined.

Lemma isConnected_no_arrow_witness :
  [1; 2; 3; 4]
  ≡ₚ elements (atoms (run [OpAddBond 1 2 SINGLE; OpAddBond 2 3 DOUBLE; OpAddAtom 4]))
  ∧ no_arrow (run [OpAddBond 1 2 SINGLE; OpAddBond 2 3 DOUBLE; OpAddAtom 4])
  ∧ isConnected [1; 2; 3; 4]
      (run [OpAddBond 1 2 SINGLE; OpAddBond 2 3 DOUBLE; OpAddAtom 4]) = Some false
  ∧ ∀ order',
      order'
      ≡ₚ elements (atoms (run [OpAddBond 1 2 SINGLE; OpAddBond 2 3 DOUBLE; OpAddAtom 4])) →
      isConnected order'
        (run [OpAddBond 1 2 SINGLE; OpAddBond 2 3 DOUBLE; OpAddAtom 4]) = Some false.
Proof.
  split; [exact atoms_enumeration_example|]. split; [exact no_arrow_example|].
  destruct (isConnected_no_arrow
    [OpAddBond 1 2 SINGLE; OpAddBond 2 3 DOUBLE; OpAddAtom 4] [1; 2; 3; 4]
    atoms_enumeration_example no_arrow_example) as (b & Hb & Hall & _).
  assert (b = false) as -> by (vm_compute in Hb; by injection Hb as <-).
  split; [exact Hb|exact Hall].
Defined.

Lemma isConnected_arrow_enumeration_witness :
  1 ≠ 2
  ∧ isConnected [1; 2] (run [OpAddBond 1 2 ARROW]) = Some true
  ∧ isConnected [2; 1] (run [OpAddBond 1 2 ARROW]) = Some false.
Proof.
  assert (1 ≠ 2) as Hne by lia.
  destruct (isConnected_arrow_enumeration 1 2 Hne) as (_ & _ & Ht & Hf).
  split; [exact Hne|]. split; [exact Ht|exact Hf].
Defined.

Lemma traversals_start_first_witness :
  hasAtom (run [OpAddBond 1 2 SINGLE; OpAddBond 1 3 ARROW; OpAddBond 2 4 ARROW]) 1 = true
  ∧ bfs (run [OpAddBond 1 2 SINGLE; OpAddBond 1 3 ARROW; OpAddBond 2 4 ARROW]) 1
    = Some [1; 2; 3; 4]
  ∧ dfs (run [OpAddBond 1 2 SINGLE; OpAddBond 1 3 ARROW; OpAddBond 2 4 ARROW]) 1
    = Some [1; 2; 4; 3]
  ∧ hasPath (run [OpAddBond 1 2 SINGLE; OpAddBond 1 3 ARROW; OpAddBond 2 4 ARROW]) 1 4
    = Some true.
Proof.
  assert (hasAtom (run [OpAddBond 1 2 SINGLE; OpAddBond 1 3 ARROW; OpAddBond 2 4 ARROW]) 1
          = true) as Hs by reflexivity.
  split; [exact Hs|].
  destruct (traversals_start_first
    [OpAddBond 1 2 SINGLE; OpAddBond 1 3 ARROW; OpAddBond 2 4 ARROW] 1 Hs)
    as (rb & rd & Hb & Hd & Hin).
  assert (rb = [2; 3; 4]) as -> by (vm_compute in Hb; by injection Hb as <-).
  assert (rd = [2; 4; 3]) as -> by (vm_compute in Hd; by injection Hd as <-).
  split; [exact Hb|]. split; [exact Hd|]. apply Hin. set_solver.
Defined.

Lemma hasCycle_cases_witness :
  (bonds (run [OpAddAtom 1; OpAddAtom 2]) = []
   ∧ hasCycle 0 [2; 1] (run [OpAddAtom 1; OpAddAtom 2]) = Some false)
  ∧ ([1; 2] ≡ₚ elements (atoms (run [OpAddBond 1 2 SINGLE; OpAddBond 2 2 ARROW]))
     ∧ hasBond (run [OpAddBond 1 2 SINGLE; OpAddBond 2 2 ARROW]) 2 2 ARROW = true
     ∧ 2 ≠ 0
     ∧ hasCycle 0 [1; 2] (run [OpAddBond 1 2 SINGLE; OpAddBond 2 2 ARROW]) = Some true)
  ∧ ([2; 1] ≡ₚ elements (atoms (run [OpAddBond 1 2 SINGLE; OpAddBond 2 1 SINGLE]))
     ∧ hasBond (run [OpAddBond 1 2 SINGLE; OpAddBond 2 1 SINGLE]) 1 2 SINGLE = true
     ∧ hasBond (run [OpAddBond 1 2 SINGLE; OpAddBond 2 1 SINGLE]) 2 1 SINGLE = true
     ∧ SINGLE ≠ ARROW ∧ 1 ≠ 2 ∧ 1 ≠ 0 ∧ 2 ≠ 0
     ∧ hasCycle 0 [2; 1] (run [OpAddBond 1 2 SINGLE; OpAddBond 2 1 SINGLE]) = Some true).
Proof.
  assert (∀ ops : list (op nat),
            elements (atoms (run ops)) = [1; 2] ∨ elements (atoms (run ops)) = [2; 1] →
            [1; 2] ≡ₚ elements (atoms (run ops))) as Hperm.
  { intros ops [-> | ->]; solve_Permutation. }
  split; [|split].
  - split; [reflexivity|].
    destruct (hasCycle_cases 0 [OpAddAtom 1; OpAddAtom 2] [2; 1] 0 0 SINGLE SINGLE)
      as [Hno _].
    apply Hno. reflexivity.
  - assert ([1; 2] ≡ₚ elements (atoms (run [OpAddBond 1 2 SINGLE; OpAddBond 2 2 ARROW])))
      as Hp by (apply Hperm; vm_compute; auto).
    assert (2 ≠ 0) as Hne by lia.
    split; [exact Hp|]. split; [reflexivity|]. split; [exact Hne|].
    destruct (hasCycle_cases 0 [OpAddBond 1 2 SINGLE; OpAddBond 2 2 ARROW] [1; 2]
                2 2 ARROW ARROW) as (_ & Hloop & _).
    apply Hloop; [exact Hp|reflexivity|exact Hne].
  - assert ([2; 1] ≡ₚ elements (atoms (run [OpAddBond 1 2 SINGLE; OpAddBond 2 1 SINGLE])))
      as Hp.
    { etrans; [|apply Hperm; vm_compute; auto]. solve_Permutation. }
    assert (SINGLE ≠ ARROW) as Hk by done.
    assert (1 ≠ 2) as H12 by lia. assert (1 ≠ 0) as H10 by lia.
    assert (2 ≠ 0) as H20 by lia.
    split; [exact Hp|]. split; [reflexivity|]. split; [reflexivity|].
    split; [exact Hk|]. split; [exact H12|]. split; [exact H10|]. split; [exact H20|].
    destruct (hasCycle_cases 0 [OpAddBond 1 2 SINGLE; OpAddBond 2 1 SINGLE] [2; 1]
                1 2 SINGLE SINGLE) as (_ & _ & Hpar).
    apply Hpar; [exact Hp|reflexivity|left; reflexivity|exact Hk|exact Hk|
                 exact H12|exact H10|exact H20].
Defined.

Lemma two_chains_sym_keys : [1; 2; 3; 4] ≡ₚ elements (dom two_chains_sym).
Proof.
  match goal with |- _ ≡ₚ ?l =>
    let l' := eval vm_compute in l in
    replace l with l' by (by vm_compute)
  end.
  solve_Permutation.
Defined.

Lemma graphCountComponents_undirected_witness :
  [1; 2; 3; 4] ≡ₚ elements (dom two_chains_sym)
  ∧ symmetric two_chains_sym
  ∧ graphCountComponents [1; 2; 3; 4] two_chains_sym = Some 2
  ∧ component_count two_chains_sym 2.
Proof.
  split; [exact two_chains_sym_keys|]. split; [exact two_chains_sym_symmetric|].
  destruct (graphCountComponents_undirected [1; 2; 3; 4] two_chains_sym
              two_chains_sym_keys two_chains_sym_symmetric) as (n & Hn & Hc & _).
  assert (n = 2) as -> by (vm_compute in Hn; by injection Hn as <-).
  split; [exact Hn|exact Hc].
Defined.

Lemma graphIsBipartite_sound_witness :
  [1; 2; 3; 4] ≡ₚ elements (dom two_chains_sym)
  ∧ graphIsBipartite [1; 2; 3; 4] two_chains_sym = Some true
  ∧ ∃ c, two_colouring two_chains_sym c.
Proof.
  split; [exact two_chains_sym_keys|].
  destruct (graphIsBipartite_sound [1; 2; 3; 4] two_chains_sym two_chains_sym_keys)
    as (b & Hb & Hc & _).
  assert (b = true) as -> by (vm_compute in Hb; by injection Hb as <-).
  split; [exact Hb|exact (Hc eq_refl)].
Defined.

Lemma graphIsBipartite_undirected_witness :
  [4; 3; 2; 1] ≡ₚ elements (dom two_chains_sym)
  ∧ symmetric two_chains_sym
  ∧ graphIsBipartite [4; 3; 2; 1] two_chains_sym = Some true
  ∧ ∃ c, two_colouring two_chains_sym c.
Proof.
  assert ([4; 3; 2; 1] ≡ₚ elements (dom two_chains_sym)) as Hp.
  { rewrite <- two_chains_sym_keys. solve_Permutation. }
  split; [exact Hp|]. split; [exact two_chains_sym_symmetric|].
  destruct (graphIsBipartite_undirected [4; 3; 2; 1] two_chains_sym Hp
              two_chains_sym_symmetric) as (b & Hb & Hiff).
  assert (b = true) as -> by (vm_compute in Hb; by injection Hb as <-).
  split; [exact Hb|]. by apply Hiff.
Defined.

(** * Splitting, joining and replacing *)

Section split_join.
Implicit Types (str needle d s p : list ascii) (i j pos n : nat)
  (vec parts : list (list ascii)).

Lemma occurs_at_length needle str i :
  needle ≠ [] → occurs_at needle str i → i + length needle ≤ length str.
Proof.
  unfold occurs_at. intros Hne Ho.
  assert (length (take (length needle) (drop i str)) = length needle) as Hl
    by (by rewrite Ho).
  rewrite length_take, length_drop in Hl.
  assert (0 < length needle) by (destruct needle; [done|simpl; lia]). lia.
Qed.

Lemma occurs_at_drop needle str pos i :
  occurs_at needle (drop pos str) i ↔ occurs_at needle str (pos + i).
Proof. unfold occurs_at. by rewrite drop_drop. Qed.

Lemma occurs_at_take needle str i j :
  needle ≠ [] → occurs_at needle (take i str) j →
  occurs_at needle str j ∧ j + length needle ≤ i.
Proof.
  intros Hne Ho. pose proof (occurs_at_length _ _ _ Hne Ho) as Hl.
  rewrite length_take in Hl. split; [|lia].
  unfold occurs_at in *. rewrite <- Ho at 2.
  rewrite <- (take_drop i str) at 1.
  rewrite drop_app_le by (rewrite length_take; lia).
  rewrite take_app_le; [done|]. rewrite length_drop, length_take. lia.
Qed.

Lemma occurs_at_head c d' str i :
  occurs_at (c :: d') str i → c ∈ str.
Proof.
  unfold occurs_at. simpl. intros Ho.
  destruct (drop i str) as [|a l] eqn:E; [done|]. simpl in Ho. injection Ho as -> _.
  apply (list_elem_of_lookup_2 _ i). pose proof (lookup_drop str i 0) as Hl.
  rewrite Nat.add_0_r in Hl. by rewrite <- Hl, E.
Qed.

Lemma find_in_Some str needle i :
  Str.find_in str needle = Some i →
  occurs_at needle str i ∧ ∀ j, j < i → ¬ occurs_at needle str j.
Proof.
  revert i. induction str as [|a str IH]; intros i; simpl.
  - case_bool_decide as Hd; [|done]. intros [= <-]. split; [done|]. lia.
  - case_bool_decide as Hd.
    + intros [= <-]. split; [done|]. lia.
    + destruct (Str.find_in str needle) as [i'|]; [|done]. simpl. intros [= <-].
      destruct (IH i' eq_refl) as [Ho Hmin]. split; [done|].
      intros [|j] Hj; [done|]. apply Hmin. lia.
Qed.

Lemma find_in_None str needle j :
  Str.find_in str needle = None → ¬ occurs_at needle str j.
Proof.
  revert j. induction str as [|a str IH]; intros j; simpl.
  - case_bool_decide as Hd; [done|]. intros _. unfold occurs_at.
    by rewrite drop_nil.
  - case_bool_decide as Hd; [done|].
    destruct (Str.find_in str needle) as [i'|]; [done|]. intros _.
    destruct j as [|j]; [done|]. by apply IH.
Qed.

Lemma find_in_is_Some str needle i :
  occurs_at needle str i → is_Some (Str.find_in str needle).
Proof.
  intros Ho. destruct (Str.find_in str needle) eqn:E; [by eauto|].
  by destruct (find_in_None _ _ i E).
Qed.

Lemma find_in_nil needle : needle ≠ [] → Str.find_in [] needle = None.
Proof. intros Hne. simpl. rewrite take_nil. by rewrite bool_decide_eq_false_2. Qed.

Lemma find_drop str needle pos :
  pos ≤ length str →
  Str.find str needle pos = (λ i, pos + i) <$> Str.find_in (drop pos str) needle.
Proof. intros Hpos. unfold Str.find. by rewrite decide_True. Qed.

(** *** [join] *)

Lemma join_rec_cons p vec d :
  vec ≠ [] → join_rec (p :: vec) d = p ++ d ++ join_rec vec d.
Proof. by destruct vec. Qed.

Lemma join_rec_snoc vec p d :
  join_rec (vec ++ [p]) d = (vec ≫= λ q, q ++ d) ++ p.
Proof.
  induction vec as [|q vec IH]; [done|].
  change ((q :: vec) ++ [p]) with (q :: (vec ++ [p])).
  rewrite join_rec_cons by (by destruct vec). rewrite IH, bind_cons.
  by rewrite <- !app_assoc.
Qed.

Lemma join_fold (pre l : list (list ascii)) (acc d : list ascii) :
  foldl (λ result i,
           let result := result ++ nth i (pre ++ l) [] in
           if decide (i + 1 < length (pre ++ l)) then result ++ d else result)
        acc (seq (length pre) (length l))
  = acc ++ join_rec l d.
Proof.
  revert pre acc. induction l as [|x l IH]; intros pre acc; simpl.
  { by rewrite app_nil_r. }
  rewrite app_nth2, Nat.sub_diag by lia. simpl.
  pose proof (IH (pre ++ [x])) as IH'.
  replace ((pre ++ [x]) ++ l) with (pre ++ x :: l) in IH'
    by (by rewrite <- app_assoc).
  replace (length (pre ++ [x])) with (S (length pre)) in IH'
    by (rewrite length_app; simpl; lia).
  rewrite IH'. rewrite length_app. simpl. destruct l as [|y l]; simpl.
  - rewrite decide_False by lia. by rewrite app_nil_r.
  - rewrite decide_True by lia. by rewrite <- !app_assoc.
Qed.

Lemma join_join_rec vec d : Str.join vec d = join_rec vec d.
Proof. apply (join_fold [] vec [] d). Qed.

(** *** The pieces *)

Lemma pieces_nonempty n d s : pieces n d s ≠ [].
Proof. destruct n; simpl; [done|]. by destruct (Str.find_in s d). Qed.

Lemma pieces_join n d s : d ≠ [] → join_rec (pieces n d s) d = s.
Proof.
  intros Hd. revert s. induction n as [|n IH]; intros s; simpl; [done|].
  destruct (Str.find_in s d) as [i|] eqn:E; [|done].
  rewrite join_rec_cons by apply pieces_nonempty. rewrite IH.
  apply find_in_Some in E as [Ho _].
  pose proof (occurs_at_length _ _ _ Hd Ho).
  transitivity (take i s ++ drop i s); [|apply take_drop]. f_equal.
  transitivity (take (length d) (drop i s) ++ drop (length d) (drop i s));
    [|apply take_drop].
  unfold occurs_at in Ho. rewrite Ho. by rewrite drop_drop.
Qed.

Lemma pieces_free n d s p j :
  d ≠ [] → length s ≤ n → p ∈ pieces n d s → ¬ occurs_at d p j.
Proof.
  intros Hd. revert s. induction n as [|n IH]; intros s Hn; simpl.
  - intros ->%list_elem_of_singleton Ho.
    pose proof (occurs_at_length _ _ _ Hd Ho). destruct d; [done|]. simpl in *. lia.
  - destruct (Str.find_in s d) as [i|] eqn:E.
    + apply find_in_Some in E as [Ho Hmin].
      pose proof (occurs_at_length _ _ _ Hd Ho).
      intros [->|Hp]%elem_of_cons.
      * intros [Ho' Hj]%occurs_at_take; [|done]. apply (Hmin j); [|done].
        destruct d; [done|]. simpl in *. lia.
      * revert Hp. apply IH. rewrite length_drop.
        destruct d; [done|]. simpl in *. lia.
    + intros ->%list_elem_of_singleton. by apply find_in_None.
Qed.

Lemma pieces_absent n d s : Str.find_in s d = None → pieces n d s = [s].
Proof. intros E. destruct n; simpl; [done|]. by rewrite E. Qed.

(** *** The loops *)

Lemma iter_unfold {St Res : Type} (step : St → St + Res) n (s : St) :
  iter step (S n) s = match step s with inl s' => iter step n s' | inr r => Some r end.
Proof. done. Qed.

Lemma split_step_continue str d result start i :
  start ≤ length str → Str.find_in (drop start str) d = Some i →
  Str.split_step str d
    {| Str.split_result := result; Str.split_start := start;
       Str.split_end := Str.find str d start |}
  = inl {| Str.split_result := result ++ [take i (drop start str)];
           Str.split_start := start + i + length d;
           Str.split_end := Str.find str d (start + i + length d) |}.
Proof.
  intros Hstart E. unfold Str.split_step. simpl. rewrite find_drop, E by done.
  simpl. unfold Str.substr. rewrite decide_True by done.
  by replace (start + i - start) with i by lia.
Qed.

Lemma split_step_leave str d result start :
  start ≤ length str → Str.find_in (drop start str) d = None →
  Str.split_step str d
    {| Str.split_result := result; Str.split_start := start;
       Str.split_end := Str.find str d start |}
  = inr (inr (result ++ [drop start str])).
Proof.
  intros Hstart E. unfold Str.split_step. simpl. rewrite find_drop, E by done.
  simpl. unfold Str.substr. by rewrite decide_True.
Qed.

Lemma split_loop d str n result start :
  d ≠ [] → start ≤ length str → length str - start ≤ n →
  iter (Str.split_step str d) (S n)
    {| Str.split_result := result; Str.split_start := start;
       Str.split_end := Str.find str d start |}
  = Some (inr (result ++ pieces n d (drop start str))).
Proof.
  intros Hd. revert result start.
  induction n as [|n IH]; intros result start Hstart Hn.
  - assert (drop start str = []) as Hnil by (apply drop_ge; lia).
    rewrite iter_unfold, split_step_leave; [done|done|].
    rewrite Hnil. by apply find_in_nil.
  - rewrite iter_unfold.
    destruct (Str.find_in (drop start str) d) as [i|] eqn:E.
    + pose proof E as [Ho _]%find_in_Some.
      pose proof (occurs_at_length _ _ _ Hd Ho) as Hlen. rewrite length_drop in Hlen.
      assert (0 < length d) by (destruct d; [done|simpl; lia]).
      rewrite (split_step_continue _ _ _ _ i) by done. rewrite IH by lia.
      cbn [pieces]. rewrite E, <- app_assoc. simpl. rewrite drop_drop.
      by replace (start + (i + length d)) with (start + i + length d) by lia.
    + rewrite split_step_leave by done. cbn [pieces]. by rewrite E.
Qed.

Lemma split_pieces str d :
  d ≠ [] → Str.split str d = Some (inr (pieces (length str) d str)).
Proof.
  intros Hd. unfold Str.split. rewrite decide_False by done.
  rewrite (split_loop d str (length str) [] 0); [done|done|lia|lia].
Qed.

Lemma replace_step_continue from to (R s : list ascii) i :
  Str.find_in s from = Some i → i + length from ≤ length s →
  Str.replace_step from to (R ++ s, length R)
  = inl (((R ++ take i s) ++ to) ++ drop (i + length from) s,
         length ((R ++ take i s) ++ to)).
Proof.
  intros E Hlen. unfold Str.replace_step. simpl.
  rewrite find_drop by (rewrite length_app; lia). rewrite drop_app_length, E. simpl.
  unfold Str.replace_at. rewrite decide_True by (rewrite length_app; lia).
  rewrite take_app_ge, drop_app_ge by lia.
  replace (length R + i - length R) with i by lia.
  replace (length R + i + length from - length R) with (i + length from) by lia.
  rewrite !length_app, length_take, <- !app_assoc. do 2 f_equal. lia.
Qed.

Lemma replace_step_leave from to (R s : list ascii) :
  Str.find_in s from = None →
  Str.replace_step from to (R ++ s, length R) = inr (inr (R ++ s)).
Proof.
  intros E. unfold Str.replace_step. simpl.
  rewrite find_drop by (rewrite length_app; lia). by rewrite drop_app_length, E.
Qed.

Lemma replace_loop from to n (R s : list ascii) :
  from ≠ [] → length s ≤ n →
  iter (Str.replace_step from to) (S n) (R ++ s, length R)
  = Some (inr (R ++ join_rec (pieces n from s) to)).
Proof.
  intros Hd. revert R s. induction n as [|n IH]; intros R s Hn.
  - assert (s = []) as -> by (destruct s; [done|simpl in Hn; lia]).
    rewrite iter_unfold, replace_step_leave; [done|]. by apply find_in_nil.
  - rewrite iter_unfold.
    destruct (Str.find_in s from) as [i|] eqn:E.
    + pose proof E as [Ho _]%find_in_Some.
      pose proof (occurs_at_length _ _ _ Hd Ho) as Hlen.
      assert (0 < length from) by (destruct from; [done|simpl; lia]).
      rewrite (replace_step_continue _ _ _ _ i) by done.
      rewrite IH by (rewrite length_drop; lia).
      cbn [pieces]. rewrite E.
      rewrite join_rec_cons by apply pieces_nonempty. by rewrite <- !app_assoc.
    + rewrite replace_step_leave by done. cbn [pieces]. by rewrite E.
Qed.

Lemma replace_pieces str from to :
  from ≠ [] →
  Str.replace str from to = Some (inr (join_rec (pieces (length str) from str) to)).
Proof.
  intros Hd. unfold Str.replace. rewrite decide_False by done.
  apply (replace_loop from to (length str) [] str); [done|lia].
Qed.

Lemma contains_false str d :
  Str.contains str d = false ↔ ∀ j, ¬ occurs_at d str j.
Proof.
  unfold Str.contains. rewrite bool_decide_eq_false, find_drop by lia.
  rewrite drop_0. split.
  - intros Hn j. apply find_in_None. destruct (Str.find_in str d); [|done].
    destruct Hn. done.
  - intros Hall Hf. destruct (Str.find_in str d) as [i|] eqn:E; [|done].
    apply find_in_Some in E as [Ho _]. by apply (Hall i).
Qed.

Lemma find_in_app_fresh c d' p t :
  c ∉ p → Str.find_in (p ++ (c :: d') ++ t) (c :: d') = Some (length p).
Proof.
  intros Hc. induction p as [|a p IH].
  - destruct ((c :: d') ++ t) eqn:E; [done|]. rewrite <- E.
    assert (take (length (c :: d')) ((c :: d') ++ t) = c :: d') as Ht.
    { by rewrite take_app_length. }
    rewrite E in *. simpl. simpl in Ht. by rewrite bool_decide_eq_true_2.
  - change ((a :: p) ++ (c :: d') ++ t) with (a :: (p ++ (c :: d') ++ t)).
    cbn [Str.find_in]. rewrite bool_decide_eq_false_2.
    + rewrite IH by set_solver. done.
    + simpl. intros [= -> _]. apply Hc. by left.
Qed.

Lemma pieces_join_rec c d' parts n :
  parts ≠ [] → (∀ p, p ∈ parts → c ∉ p) →
  length (join_rec parts (c :: d')) ≤ n →
  pieces n (c :: d') (join_rec parts (c :: d')) = parts.
Proof.
  revert n. induction parts as [|p parts IH]; intros n Hne Hfresh Hn; [done|].
  destruct parts as [|q parts].
  - simpl. apply pieces_absent.
    destruct (Str.find_in p (c :: d')) as [i|] eqn:E; [|done].
    apply find_in_Some in E as [Ho%occurs_at_head _].
    destruct (Hfresh p); [by left|done].
  - rewrite join_rec_cons in * by done.
    rewrite !length_app in Hn. simpl in Hn.
    destruct n as [|n]; [lia|]. cbn [pieces].
    rewrite find_in_app_fresh by (apply Hfresh; by left).
    rewrite take_app_length. f_equal.
    rewrite drop_app_ge by lia.
    replace (length p + length (c :: d') - length p) with (length (c :: d')) by lia.
    rewrite drop_app_length. apply IH; [done| |simpl in *; lia].
    intros p' Hp'. apply Hfresh. by right.
Qed.

(** X21: [split] with an empty delimiter throws invalid_argument; with
    any other delimiter it returns, without an exception, a non-empty list
    of pieces none of which contains the delimiter, and joining the pieces
    with the delimiter gives the string back.  A string without the
    delimiter is its own single piece. *)
Theorem split_then_join str d :
  Str.split str [] = Some (inl (invalid_argument "split delimiter cannot be empty"))
  ∧ (d ≠ [] →
     ∃ parts, Str.split str d = Some (inr parts)
       ∧ parts ≠ []
       ∧ Str.join parts d = str
       ∧ (∀ p, p ∈ parts → Str.contains p d = false)
       ∧ (Str.contains str d = false → parts = [str])).
Proof.
  split; [done|]. intros Hd. exists (pieces (length str) d str).
  split; [by apply split_pieces|]. split; [apply pieces_nonempty|]. split.
  { rewrite join_join_rec. by apply pieces_join. }
  split.
  - intros p Hp. apply contains_false. intros j.
    by apply (pieces_free (length str) d str).
  - intros Hc. apply pieces_absent.
    destruct (Str.find_in str d) as [i|] eqn:E; [|done].
    apply find_in_Some in E as [Ho _].
    by destruct (proj1 (contains_false str d) Hc i).
Qed.

(** X22: splitting what [join] built gives the elements back, when
    there is at least one element and the first character of the delimiter
    occurs in none of them. *)
Theorem join_then_split parts (c : ascii) (d' : list ascii) :
  parts ≠ [] →
  (∀ p, p ∈ parts → c ∉ p) →
  Str.split (Str.join parts (c :: d')) (c :: d') = Some (inr parts).
Proof.
  intros Hne Hfresh. rewrite split_pieces by done. rewrite join_join_rec.
  by rewrite pieces_join_rec.
Qed.

(** X23: [replace] returns the string unchanged for an empty [from];
    otherwise it returns, without an exception, the pieces that [split]
    cuts at [from], joined with [to].  So replacing [from] by itself, or
    in a string that does not contain it, changes nothing. *)
Theorem replace_is_split_join str from to :
  Str.replace str [] to = Some (inr str)
  ∧ (from ≠ [] →
     ∃ parts, Str.split str from = Some (inr parts)
       ∧ Str.replace str from to = Some (inr (Str.join parts to))
       ∧ Str.replace str from from = Some (inr str)
       ∧ (Str.contains str from = false →
          Str.replace str from to = Some (inr str))).
Proof.
  split; [done|]. intros Hd. exists (pieces (length str) from str).
  split; [by apply split_pieces|]. rewrite !replace_pieces by done.
  split; [by rewrite join_join_rec|]. split.
  - by rewrite pieces_join.
  - intros Hc. rewrite pieces_absent; [done|].
    destruct (Str.find_in str from) as [i|] eqn:E; [|done].
    apply find_in_Some in E as [Ho _].
    by destruct (proj1 (contains_false str from) Hc i).
Qed.

End split_join.

Lemma split_then_join_witness :
  let s := String.list_ascii_of_string in
  Str.split (s "a,b,,c") [] =
    Some (inl (invalid_argument "split delimiter cannot be empty"))
  ∧ s "," ≠ []
  ∧ Str.split (s "a,b,,c") (s ",") = Some (inr [s "a"; s "b"; s ""; s "c"])
  ∧ Str.join [s "a"; s "b"; s ""; s "c"] (s ",") = s "a,b,,c"
  ∧ Str.contains (s "b") (s ",") = false.
Proof.
  intros s. destruct (split_then_join (s "a,b,,c") (s ",")) as [Hempty Hsplit].
  split; [exact Hempty|]. split; [done|].
  destruct (Hsplit ltac:(done)) as (parts & Hp & _ & Hj & Hfree & _).
  assert (parts = [s "a"; s "b"; s ""; s "c"]) as ->.
  { vm_compute in Hp. by injection Hp as <-. }
  split; [by vm_compute|]. split; [exact Hj|]. apply Hfree. set_solver.
Defined.

Lemma join_then_split_witness :
  let s := String.list_ascii_of_string in
  [s "x"; s ""; s "yz"] ≠ []
  ∧ (∀ p, p ∈ [s "x"; s ""; s "yz"] → "-"%char ∉ p)
  ∧ Str.split (Str.join [s "x"; s ""; s "yz"] (s "->")) (s "->")
    = Some (inr [s "x"; s ""; s "yz"]).
Proof.
  intros s.
  assert (∀ p, p ∈ [s "x"; s ""; s "yz"] → "-"%char ∉ p) as Hfresh.
  { intros p Hp. repeat (apply elem_of_cons in Hp as [->|Hp]);
      [| | |by apply elem_of_nil in Hp]; vm_compute; set_solver. }
  split; [done|]. split; [exact Hfresh|].
  exact (join_then_split [s "x"; s ""; s "yz"] "-"%char (s ">") ltac:(done) Hfresh).
Defined.

Lemma replace_is_split_join_witness :
  let s := String.list_ascii_of_string in
  Str.replace (s "aaaa") [] (s "b") = Some (inr (s "aaaa"))
  ∧ s "aa" ≠ []
  ∧ Str.split (s "aaaa") (s "aa") = Some (inr [s ""; s ""; s ""])
  ∧ Str.replace (s "aaaa") (s "aa") (s "b") = Some (inr (s "bb"))
  ∧ Str.replace (s "aaaa") (s "aa") (s "aa") = Some (inr (s "aaaa")).
Proof.
  intros s.
  destruct (replace_is_split_join (s "aaaa") (s "aa") (s "b")) as [Hempty Hrep].
  split; [exact Hempty|]. split; [done|].
  destruct (Hrep ltac:(done)) as (parts & Hp & Hr & Hid & _).
  assert (parts = [s ""; s ""; s ""]) as ->.
  { vm_compute in Hp. by injection Hp as <-. }
  split; [by vm_compute|]. split; [exact Hr|exact Hid].
Defined.

(** * Slices, substrings and the affix tests *)

Section slices.
Context {T : Type}.
Implicit Types (vec : list T) (str : list ascii) (start : Z).

Lemma to_int_id z : is_int z → to_int z = z.
Proof. unfold is_int, to_int. intros Hz. rewrite Z.mod_small; lia. Qed.









(** X25: for a string shorter than 2^31 and [int] arguments, [substring]
    throws out_of_range for a start below 0 or beyond the length, then
    invalid_argument for a negative length, and otherwise returns the
    characters from [start], at most [length] of them: a length that
    reaches past the end is cut there. *)
Theorem substring_spec str start (length_ : Z) :
  (Z.of_nat (length str) < 2 ^ 31)%Z → is_int start → is_int length_ →
  ((start < 0 ∨ Z.of_nat (length str) < start)%Z →
     Str.substring str start length_
     = inl (out_of_range "substring start out of range"))
  ∧ ((0 ≤ start ≤ Z.of_nat (length str))%Z → (length_ < 0)%Z →
     Str.substring str start length_
     = inl (invalid_argument "substring length cannot be negative"))
  ∧ ((0 ≤ start ≤ Z.of_nat (length str))%Z → (0 ≤ length_)%Z →
     Str.substring str start length_
     = inr (take (Z.to_nat length_) (drop (Z.to_nat start) str))).
Proof.
  unfold is_int. intros Hn Hs Hl. unfold Str.substring.
  rewrite (to_int_id (Z.of_nat (length str))) by (unfold is_int; lia).
  split; [|split].
  - intros Hout. rewrite decide_True; [done|lia].
  - intros Hin Hneg. rewrite decide_False by lia. by rewrite decide_True.
  - intros Hin Hpos. rewrite decide_False by lia. rewrite decide_False by lia.
    cbv zeta. rewrite to_int_id by (unfold is_int; lia).
    unfold Str.substr, to_size_t. rewrite !Z.mod_small by (try case_decide; lia).
    rewrite decide_True by lia. f_equal. case_decide; [|done].
    rewrite !take_ge; [done|rewrite length_drop; lia..].
Qed.

End slices.

Section affixes.
Implicit Types (str p sfx sub : list ascii).

Lemma occurs_at_infix sub str :
  (∃ i, occurs_at sub str i) ↔ ∃ l1 l2, str = l1 ++ sub ++ l2.
Proof.
  split.
  - intros [i Ho]. exists (take i str), (drop (length sub) (drop i str)).
    unfold occurs_at in Ho.
    transitivity (take i str ++ drop i str); [by rewrite take_drop|]. f_equal.
    transitivity (take (length sub) (drop i str) ++ drop (length sub) (drop i str));
      [by rewrite take_drop|]. by rewrite Ho.
  - intros (l1 & l2 & ->). exists (length l1). unfold occurs_at.
    by rewrite drop_app_length, take_app_length.
Qed.

(** X26: [startsWith], [endsWith] and [contains] decide, without an
    exception, whether the second string is a prefix, a suffix, a
    contiguous part of the first; an affix longer than the string is
    answered false. *)
Theorem affix_tests str p :
  Str.startsWith str p = inr (bool_decide (p `prefix_of` str))
  ∧ Str.endsWith str p = inr (bool_decide (p `suffix_of` str))
  ∧ (Str.contains str p = true ↔ ∃ l1 l2, str = l1 ++ p ++ l2).
Proof.
  split; [|split].
  - unfold Str.startsWith. case_decide as Hlen.
    + rewrite bool_decide_eq_false_2; [done|]. intros Hp%prefix_length. lia.
    + unfold Str.substr. rewrite decide_True by lia. rewrite drop_0.
      f_equal. apply bool_decide_ext. split.
      * intros <-. apply prefix_take.
      * intros [k ->]. by rewrite take_app_length.
  - unfold Str.endsWith. case_decide as Hlen.
    + rewrite bool_decide_eq_false_2; [done|]. intros Hp%suffix_length. lia.
    + unfold Str.substr. rewrite decide_True by lia.
      f_equal. apply bool_decide_ext. split.
      * intros <-. apply suffix_drop.
      * intros [k ->]. rewrite length_app.
        replace (length k + length p - length p) with (length k) by lia.
        by rewrite drop_app_length.
  - rewrite <- occurs_at_infix, <- not_false_iff_true, contains_false. split.
    + intros Hn. destruct (Str.find_in str p) as [i|] eqn:E.
      * exists i. by apply find_in_Some in E as [? _].
      * destruct Hn. intros j. by apply find_in_None.
    + intros [i Ho] Hall. by apply (Hall i).
Qed.

Lemma repeat_fold (str acc : list ascii) (l : list Z) :
  foldl (λ result _, result ++ str) acc l
  = acc ++ mjoin (replicate (length l) str).
Proof.
  revert acc. induction l as [|z l IH]; intros acc; simpl.
  - by rewrite app_nil_r.
  - by rewrite IH, <- app_assoc.
Qed.

(** X27: [repeat] throws invalid_argument for a negative count and
    otherwise returns [count] copies of the string one after the other,
    of length count times the length of the string; zero copies are the
    empty string. *)
Theorem repeat_spec str (count : Z) :
  ((count < 0)%Z →
     Str.repeat str count = inl (invalid_argument "repeat count cannot be negative"))
  ∧ ((0 ≤ count)%Z →
     ∃ r, Str.repeat str count = inr r
          ∧ r = mjoin (replicate (Z.to_nat count) str)
          ∧ length r = Z.to_nat count * length str).
Proof.
  unfold Str.repeat. split.
  - intros Hneg. by rewrite decide_True.
  - intros Hpos. rewrite decide_False by lia. eexists. split; [done|].
    rewrite repeat_fold, length_seqZ. simpl. split; [done|].
    induction (Z.to_nat count) as [|k IH]; simpl; [done|].
    rewrite length_app, IH. lia.
Qed.

End affixes.


Lemma substring_spec_witness :
  let s := String.list_ascii_of_string in
  (Z.of_nat (length (s "hello")) < 2 ^ 31)%Z
  ∧ is_int 2 ∧ is_int 100 ∧ is_int 10 ∧ is_int (-5)
  ∧ Str.substring (s "hello") 2 100 = inr (s "llo")
  ∧ Str.substring (s "hello") 10 100
    = inl (out_of_range "substring start out of range")
  ∧ Str.substring (s "hello") 2 (-5)
    = inl (invalid_argument "substring length cannot be negative").
Proof.
  intros s.
  assert (Z.of_nat (length (s "hello")) < 2 ^ 31)%Z as Hs by (simpl; lia).
  assert (is_int 2) as H2 by (unfold is_int; lia).
  assert (is_int 100) as H100 by (unfold is_int; lia).
  assert (is_int 10) as H10 by (unfold is_int; lia).
  assert (is_int (-5)) as H5 by (unfold is_int; lia).
  split; [exact Hs|]. split; [exact H2|]. split; [exact H100|].
  split; [exact H10|]. split; [exact H5|].
  split; [|split].
  - destruct (substring_spec (s "hello") 2 100 Hs H2 H100) as (_ & _ & Hin).
    etrans; [apply Hin; simpl; lia|]. by vm_compute.
  - destruct (substring_spec (s "hello") 10 100 Hs H10 H100) as (Hout & _ & _).
    apply Hout. simpl. lia.
  - destruct (substring_spec (s "hello") 2 (-5) Hs H2 H5) as (_ & Hneg & _).
    apply Hneg; simpl; lia.
Defined.

Lemma repeat_spec_witness :
  let s := String.list_ascii_of_string in
  Str.repeat (s "ab") (-5) = inl (invalid_argument "repeat count cannot be negative")
  ∧ Str.repeat (s "ab") 2 = inr (s "abab")
  ∧ Str.repeat (s "ab") 0 = inr [].
Proof.
  intros s. split; [|split].
  - destruct (repeat_spec (s "ab") (-5)) as [Hneg _]. apply Hneg. lia.
  - destruct (repeat_spec (s "ab") 2) as [_ Hpos].
    destruct (Hpos ltac:(lia)) as (r & Hr & -> & _). exact Hr.
  - destruct (repeat_spec (s "ab") 0) as [_ Hpos].
    destruct (Hpos ltac:(lia)) as (r & Hr & -> & _). exact Hr.
Defined.

(** * Trimming *)

Section trimming.
Implicit Types (str chars r : list ascii) (i j : nat).

Lemma find_first_not_of_Some str chars i :
  Str.find_first_not_of str chars = Some i →
  Forall (λ c, c ∈ chars) (take i str) ∧ ∃ c, str !! i = Some c ∧ c ∉ chars.
Proof.
  revert i. induction str as [|a str IH]; intros i; simpl; [done|].
  case_bool_decide as Ha.
  - destruct (Str.find_first_not_of str chars) as [i'|]; [|done]. simpl.
    intros [= <-]. destruct (IH i' eq_refl) as [Hall Hc]. split; [|done].
    simpl. by constructor.
  - intros [= <-]. split; [by constructor|]. by exists a.
Qed.

Lemma find_first_not_of_None str chars :
  Str.find_first_not_of str chars = None → Forall (λ c, c ∈ chars) str.
Proof.
  induction str as [|a str IH]; simpl; [by constructor|].
  case_bool_decide as Ha; [|done].
  destruct (Str.find_first_not_of str chars); [done|]. intros _. by constructor; auto.
Qed.

Lemma find_first_not_of_head str chars c :
  head str = Some c → c ∉ chars → Str.find_first_not_of str chars = Some 0.
Proof.
  destruct str as [|a str]; [done|]. simpl. intros [= ->] Hc.
  by rewrite bool_decide_eq_false_2.
Qed.

Lemma trim_fixed r :
  (∀ c, head r = Some c → c ∉ Str.whitespace) →
  (∀ c, last r = Some c → c ∉ Str.whitespace) →
  Str.trim r = inr r.
Proof.
  intros Hh Hl. unfold Str.trim.
  destruct (head r) as [a|] eqn:Eh.
  2:{ by destruct r. }
  rewrite (find_first_not_of_head r _ a) by auto.
  unfold Str.find_last_not_of.
  destruct (last r) as [b|] eqn:El.
  2:{ apply last_None in El. by subst. }
  rewrite (find_first_not_of_head (reverse r) _ b).
  - simpl. unfold Str.substr. rewrite decide_True by lia. rewrite drop_0.
    f_equal. apply take_ge.
    assert (0 < length r) by (destruct r; simpl; [done|lia]). lia.
  - by rewrite <- last_reverse, reverse_involutive.
  - by apply Hl.
Qed.

(** X28: [trim] never throws; it cuts a string into leading white space,
    the result, and trailing white space (blank, tab, line feed, carriage
    return), where the result neither begins nor ends with a white-space
    character; a string of white space only gives the empty string.
    Trimming the result again changes nothing. *)
Theorem trim_spec str :
  ∃ r l1 l2,
    Str.trim str = inr r
    ∧ str = l1 ++ r ++ l2
    ∧ Forall (λ c, c ∈ Str.whitespace) l1
    ∧ Forall (λ c, c ∈ Str.whitespace) l2
    ∧ (∀ c, head r = Some c → c ∉ Str.whitespace)
    ∧ (∀ c, last r = Some c → c ∉ Str.whitespace)
    ∧ Str.trim r = inr r.
Proof.
  unfold Str.trim at 1.
  destruct (Str.find_first_not_of str Str.whitespace) as [st|] eqn:Est.
  2:{ exists [], str, []. rewrite !app_nil_r. split; [done|]. split; [done|].
      split; [by apply find_first_not_of_None|]. by repeat split. }
  apply find_first_not_of_Some in Est as (Hpre & c1 & Hc1 & Hc1w).
  pose proof (lookup_lt_Some _ _ _ Hc1) as Hst.
  unfold Str.find_last_not_of.
  destruct (Str.find_first_not_of (reverse str) Str.whitespace) as [j|] eqn:Ej.
  2:{ apply find_first_not_of_None in Ej. rewrite Forall_reverse in Ej.
      destruct Hc1w. exact (Forall_lookup_1 _ _ st c1 Ej Hc1). }
  apply find_first_not_of_Some in Ej as (Hsuf & c2 & Hc2 & Hc2w).
  pose proof (lookup_lt_Some _ _ _ Hc2) as Hj. rewrite length_reverse in Hj.
  rewrite reverse_lookup in Hc2 by done.
  simpl. set (e := length str - 1 - j).
  replace (length str - S j) with e in Hc2 by lia.
  assert (st ≤ e) as Hle.
  { destruct (decide (st ≤ e)) as [|Hgt]; [done|]. destruct Hc2w.
    apply (Forall_lookup_1 _ _ e c2 Hpre). rewrite lookup_take_lt by lia. done. }
  unfold Str.substr. rewrite decide_True by lia.
  set (r := take (e - st + 1) (drop st str)).
  assert (length r = e - st + 1) as Hlen.
  { unfold r. rewrite length_take, length_drop. lia. }
  assert (∀ c, head r = Some c → c ∉ Str.whitespace) as Hhead.
  { intros c. rewrite head_lookup. unfold r.
    rewrite lookup_take_lt by lia. rewrite lookup_drop, Nat.add_0_r, Hc1.
    by intros [= <-]. }
  assert (∀ c, last r = Some c → c ∉ Str.whitespace) as Hlast.
  { intros c. rewrite last_lookup, Hlen. unfold r.
    rewrite lookup_take_lt by lia. rewrite lookup_drop.
    replace (st + pred (e - st + 1)) with e by lia. rewrite Hc2.
    by intros [= <-]. }
  exists r, (take st str), (drop (e + 1) str).
  split; [done|]. split; [|split; [done|split; [|split; [done|split; [done|]]]]].
  - unfold r. replace (e + 1) with (st + (e - st + 1)) by lia.
    rewrite <- drop_drop. by rewrite !take_drop.
  - rewrite <- Forall_reverse in Hsuf.
    rewrite reverse_take, reverse_involutive in Hsuf.
    rewrite length_reverse in Hsuf.
    by replace (length str - j) with (e + 1) in Hsuf by lia.
  - by apply trim_fixed.
Qed.

End trimming.

(** * The containers *)

Section sequences.
Context {T : Type}.
Implicit Types (data items rest : list T) (x item : T).

Lemma enqueue_all data items : foldl Queue.enqueue data items = data ++ items.
Proof.
  revert data. induction items as [|x items IH]; intros data; simpl.
  - by rewrite app_nil_r.
  - rewrite IH. unfold Queue.enqueue. by rewrite <- app_assoc.
Qed.

Lemma push_all data items : foldl Stack.push data items = reverse items ++ data.
Proof.
  revert data. induction items as [|x items IH]; intros data; simpl; [done|].
  rewrite IH, reverse_cons. unfold Stack.push. by rewrite <- app_assoc.
Qed.

Lemma remove_n_front (pop : list T → exception + T * list T) items rest :
  (∀ x data, pop (x :: data) = inr (x, data)) →
  remove_n pop (length items) (items ++ rest) = inr (items, rest).
Proof.
  intros Hpop. induction items as [|x items IH]; simpl; [done|].
  by rewrite Hpop, IH.
Qed.

Lemma remove_n_exhausted (pop : list T → exception + T * list T) items e :
  (∀ x data, pop (x :: data) = inr (x, data)) → pop [] = inl e →
  remove_n pop (S (length items)) items = inl e.
Proof.
  intros Hpop He. induction items as [|x items IH].
  - simpl. by rewrite He.
  - change (remove_n pop (S (length (x :: items))) (x :: items))
      with (match pop (x :: items) with
            | inl e => inl e
            | inr (item, data') =>
                match remove_n pop (S (length items)) data' with
                | inl e => inl e
                | inr (its, rest) => inr (item :: its, rest)
                end
            end).
    by rewrite Hpop, IH.
Qed.

Lemma pop_back_snoc data x :
  last (data ++ [x]) = Some x
  ∧ take (length (data ++ [x]) - 1) (data ++ [x]) = data.
Proof.
  split; [apply last_snoc|]. rewrite length_app. simpl.
  replace (length data + 1 - 1) with (length data) by lia. apply take_app_length.
Qed.

(** X29: whatever is enqueued into an empty [Queue] is dequeued in the
    same order, and whatever is pushed onto an empty [Stack] is popped in
    the opposite order.  Removing at the back of a [Deque], a
    [LinkedList] or a vector returns the item pushed there last and
    restores the container.  Removing from an empty container throws
    runtime_error with the message of the container. *)
Theorem sequence_containers_order items data x :
  (remove_n Queue.dequeue (length items) (foldl Queue.enqueue [] items)
     = inr (items, [])
   ∧ remove_n Queue.dequeue (S (length items)) (foldl Queue.enqueue [] items)
     = inl (runtime_error "dequeue from empty queue")
   ∧ remove_n Stack.pop (length items) (foldl Stack.push [] items)
     = inr (reverse items, [])
   ∧ remove_n Stack.pop (S (length items)) (foldl Stack.push [] items)
     = inl (runtime_error "pop from empty stack"))
  ∧ (Deque.popBack (Deque.pushBack data x) = inr (x, data)
     ∧ Deque.peekBack (Deque.pushBack data x) = inr x
     ∧ Deque.popFront (Deque.pushFront data x) = inr (x, data)
     ∧ Deque.popBack (@nil T) = inl (runtime_error "popBack from empty deque")
     ∧ Deque.popFront (@nil T) = inl (runtime_error "popFront from empty deque"))
  ∧ (LinkedList.popBack (LinkedList.pushBack data x) = inr (x, data)
     ∧ LinkedList.popBack (@nil T) = inl (runtime_error "popBack from empty list"))
  ∧ (Vec.pop (Vec.push data x) = inr (x, data)
     ∧ Vec.pop (@nil T) = inl (runtime_error "pop from empty vector")).
Proof.
  split.
  - rewrite enqueue_all, push_all, app_nil_r. simpl.
    split; [|split; [|split]].
    + rewrite <- (app_nil_r items) at 2. by apply remove_n_front.
    + by apply remove_n_exhausted.
    + rewrite <- (length_reverse items).
      rewrite <- (app_nil_r (reverse items)) at 2. by apply remove_n_front.
    + rewrite <- (length_reverse items). by apply remove_n_exhausted.
  - destruct (pop_back_snoc data x) as [Hl Ht].
    unfold Deque.popBack, Deque.peekBack, Deque.pushBack, LinkedList.popBack,
      LinkedList.pushBack, Vec.pop, Vec.push.
    rewrite Hl, Ht. by repeat split.
Qed.

End sequences.

Section maps.
Context {K V : Type} `{Countable K}.
Implicit Types (data : gmap K V) (key : K) (value : V).

(** X30: for [Map] and [HashMap]: [get] after [set] of the same key
    returns the value set and leaves the other keys as they were; [get]
    after [remove], and on any key for which [has] is false, throws
    out_of_range with the message of the container, where [getOrDefault]
    returns the default; when [has] is true the two agree. *)
Theorem map_get_set data key key' value (defaultValue : V) :
  (Map.get (Map.set data key value) key = inr value
   ∧ (key' ≠ key → Map.get (Map.set data key value) key' = Map.get data key')
   ∧ Map.get (Map.remove data key) key = inl (out_of_range "Map key not found")
   ∧ (Map.has data key = false →
        Map.get data key = inl (out_of_range "Map key not found")
        ∧ Map.getOrDefault data key defaultValue = defaultValue)
   ∧ (Map.has data key = true →
        Map.get data key = inr (Map.getOrDefault data key defaultValue)))
  ∧ (HashMap.get (HashMap.set data key value) key = inr value
     ∧ (key' ≠ key →
          HashMap.get (HashMap.set data key value) key' = HashMap.get data key')
     ∧ HashMap.get (HashMap.remove data key) key
       = inl (out_of_range "HashMap key not found")
     ∧ (HashMap.has data key = false →
          HashMap.get data key = inl (out_of_range "HashMap key not found")
          ∧ HashMap.getOrDefault data key defaultValue = defaultValue)
     ∧ (HashMap.has data key = true →
          HashMap.get data key = inr (HashMap.getOrDefault data key defaultValue))).
Proof.
  unfold Map.get, Map.set, Map.remove, Map.has, Map.getOrDefault,
    HashMap.get, HashMap.set, HashMap.remove, HashMap.has, HashMap.getOrDefault.
  rewrite lookup_insert_eq, lookup_delete_eq.
  assert (key' ≠ key → <[key:=value]> data !! key' = data !! key') as Hne.
  { intros. by rewrite lookup_insert_ne. }
  rewrite bool_decide_eq_false, bool_decide_eq_true.
  split; (split; [done|]); (split; [by intros ->%Hne|]); (split; [done|]);
    (split; [intros Hn|intros Hs]); destruct (data !! key);
    first [done | by destruct Hn | by destruct Hs].
Qed.

End maps.
